(** * Iterative ptychographic reconstruction (py4DSTEM): a shallow embedding

    The development follows
    [src/py4DSTEM/process/phase/iterative_ptychography.py] (class
    [PtychographicReconstruction]) and the position constraint of
    [src/py4DSTEM/process/phase/iterative_constraints.py].

    - Arrays are lists.  A stack of patterns (a numpy array of shape
      [(batch, Sx, Sy)]) is a list of patterns, each pattern stored
      flattened in row-major order; the object array of shape [(P, Q)] is
      stored flattened the same way.  Element-wise operators pair the
      elements of equally shaped arrays (numpy refuses other shapes).
    - The source reaches all arithmetic through the array module [xp]
      (numpy or cupy).  The embedding does the same through the class
      [Num]: the code is written once and read at two instances, the real
      numbers (exact arithmetic, used for the algebraic facts) and IEEE
      binary64 floats (used to run the code where a quotient stops being
      finite).
    - Library calls whose code is not part of the repository sources
      (FFT, [angle], [exp], Gaussian filter, the random shuffle, ...) and
      repository helpers that live outside the given sources are the
      fields of the class [Externals].
    - A method of the class is a function in a state-and-exception monad
      over the record [Recon] of instance attributes. *)

From Stdlib Require Import Floats.
From Stdlib Require Import String ZArith Reals Lra List Bool Arith Lia.
Import ListNotations.

Set Implicit Arguments.

(* ================================================================= *)
(** ** Numeric backend *)

Declare Scope num_scope.
Delimit Scope num_scope with num.

Class Num (F : Type) : Type := {
  fzero : F;
  fone : F;
  fadd : F -> F -> F;
  fsub : F -> F -> F;
  fmul : F -> F -> F;
  fdiv : F -> F -> F;
  fopp : F -> F;
  fabs : F -> F;
  fsqrt : F -> F;
  (** [fltb a b] is the comparison [a < b]. *)
  fltb : F -> F -> bool;
  (** conversion of an element count, as [mean] and [linspace] need it *)
  of_nat : nat -> F;
  (** the literal [1e-9] *)
  f1em9 : F
}.

Infix "+" := fadd : num_scope.
Infix "-" := fsub : num_scope.
Infix "*" := fmul : num_scope.
Infix "/" := fdiv : num_scope.
Notation "- x" := (fopp x) : num_scope.
Infix "<?" := fltb : num_scope.
Notation "0" := fzero : num_scope.
Notation "1" := fone : num_scope.
Notation "2" := (fadd fone fone) : num_scope.

(** Exact real arithmetic. *)
Definition Rltb (a b : R) : bool := if Rlt_dec a b then true else false.

#[export] Instance Rnum : Num R := {|
  fzero := 0%R;
  fone := 1%R;
  fadd := Rplus;
  fsub := Rminus;
  fmul := Rmult;
  fdiv := Rdiv;
  fopp := Ropp;
  fabs := Rabs;
  fsqrt := sqrt;
  fltb := Rltb;
  of_nat := INR;
  f1em9 := (1 / 1000000000)%R
|}.

(** IEEE 754 binary64 arithmetic. *)
#[export] Instance Fnum : Num float := {|
  fzero := 0%float;
  fone := 1%float;
  fadd := PrimFloat.add;
  fsub := PrimFloat.sub;
  fmul := PrimFloat.mul;
  fdiv := PrimFloat.div;
  fopp := PrimFloat.opp;
  fabs := PrimFloat.abs;
  fsqrt := PrimFloat.sqrt;
  fltb := PrimFloat.ltb;
  of_nat := fun n => PrimFloat.of_uint63 (Uint63.of_Z (Z.of_nat n));
  f1em9 := 0x1.12e0be826d695p-30%float (* the binary64 nearest to 1e-9 *)
|}.

Section Numeric.
Context {F : Type} {NF : Num F}.
Local Open Scope num_scope.

Definition sq (x : F) : F := x * x.

(** [xp.maximum] and [xp.minimum] on two scalars. *)
Definition fmax (a b : F) : F := if a <? b then b else a.
Definition fmin (a b : F) : F := if a <? b then a else b.

(** Complex numbers [re + im j]. *)
Record Cx : Type := mkC { re : F; im : F }.

(** A real operand of a complex operation is promoted to [r + 0j]. *)
Definition rc (r : F) : Cx := mkC r 0.

Definition cadd (z w : Cx) : Cx := mkC (re z + re w) (im z + im w).
Definition csub (z w : Cx) : Cx := mkC (re z - re w) (im z - im w).
Definition cmul (z w : Cx) : Cx :=
  mkC (re z * re w - im z * im w) (re z * im w + im z * re w).
Definition cconj (z : Cx) : Cx := mkC (re z) (- im z).
Definition cabs (z : Cx) : F := fsqrt (re z * re z + im z * im z).
(** real times complex *)
Definition rcmul (r : F) (z : Cx) : Cx := cmul (rc r) z.

(** *** Arrays *)

Fixpoint zip_with {A B C : Type} (f : A -> B -> C) (l : list A) (m : list B)
  : list C :=
  match l, m with
  | a :: l', b :: m' => f a b :: zip_with f l' m'
  | _, _ => []
  end.

(** A stack of patterns: shape [(batch, Sx, Sy)], each pattern flattened. *)
Definition stack (A : Type) : Type := list (list A).

Definition smap {A B : Type} (f : A -> B) (a : stack A) : stack B :=
  map (map f) a.
Definition szip_with {A B C : Type} (f : A -> B -> C)
  (a : stack A) (b : stack B) : stack C :=
  zip_with (zip_with f) a b.

Definition fsum (l : list F) : F := fold_right fadd 0 l.
Definition csum (l : list Cx) : Cx := fold_right cadd (rc 0) l.

(** [xp.mean] of a whole array: the sum of all elements over their
    number. *)
Definition mean_all (a : stack F) : F :=
  fsum (concat a) / of_nat (length (concat a)).

(** [xp.mean(_, axis=0)] of an array of shape [(N, 2)]. *)
Definition mean_axis0 (p : list (F * F)) : F * F :=
  (fsum (map fst p) / of_nat (length p),
   fsum (map snd p) / of_nat (length p)).

(** [xp.sum(_, axis=0)] of a stack whose patterns have [n] elements. *)
Definition fsum_axis0 (n : nat) (a : stack F) : list F :=
  fold_right (zip_with fadd) (repeat 0 n) a.
Definition csum_axis0 (n : nat) (a : stack Cx) : list Cx :=
  fold_right (zip_with cadd) (repeat (rc 0) n) a.

End Numeric.

Arguments Cx F : clear implicits.

(* ================================================================= *)
(** ** Exceptions *)

Inductive exn : Type :=
| ValueError (msg : string)
| TypeError
| IndexError
| AttributeError (name : string)
| UnboundLocalError (name : string).

Inductive outcome (A : Type) : Type :=
| Ok (a : A)
| Raise (e : exn).
Arguments Ok {A} a.
Arguments Raise {A} e.

Definition obind {A B : Type} (c : outcome A) (k : A -> outcome B) : outcome B :=
  match c with
  | Ok a => k a
  | Raise e => Raise e
  end.

Declare Scope outcome_scope.
Delimit Scope outcome_scope with outcome.
Notation "x <- c ;; k" := (obind c (fun x => k))
  (at level 61, c at next level, right associativity) : outcome_scope.
Notation "' p <- c ;; k" := (obind c (fun p => k))
  (at level 61, p pattern, c at next level, right associativity) : outcome_scope.

(** Evaluate a list of fallible computations, left to right. *)
Fixpoint sequence {A : Type} (l : list (outcome A)) : outcome (list A) :=
  match l with
  | [] => Ok []
  | c :: l' =>
      match c with
      | Raise e => Raise e
      | Ok a => match sequence l' with
                | Raise e => Raise e
                | Ok r => Ok (a :: r)
                end
      end
  end.

(** A value that may be Python's [None] where a number is needed. *)
Definition number {A : Type} (x : option A) : outcome A :=
  match x with
  | Some a => Ok a
  | None => Raise TypeError
  end.

(** Reading an attribute / a local variable that may not have been set. *)
Definition attribute {A : Type} (name : string) (x : option A) : outcome A :=
  match x with
  | Some a => Ok a
  | None => Raise (AttributeError name)
  end.
Definition local {A : Type} (name : string) (x : option A) : outcome A :=
  match x with
  | Some a => Ok a
  | None => Raise (UnboundLocalError name)
  end.

(** Integer-array indexing [a[idx]]. *)
Definition take_indices {A : Type} (a : list A) (idx : list nat)
  : outcome (list A) :=
  sequence (map (fun i => match nth_error a i with
                          | Some x => Ok x
                          | None => Raise IndexError
                          end) idx).

(** Slicing [a[start:end]]. *)
Definition slice {A : Type} (start end_ : nat) (a : list A) : list A :=
  firstn (end_ - start) (skipn start a).

(* ================================================================= *)
(** ** Library calls and helpers defined outside the given sources *)

Class Externals (F : Type) {NF : Num F} (Rng : Type) : Type := {
  (** [xp.fft.fft2] / [xp.fft.ifft2] of one pattern of the given shape *)
  xp_fft2 : nat * nat -> list (Cx F) -> list (Cx F);
  xp_ifft2 : nat * nat -> list (Cx F) -> list (Cx F);
  (** [xp.angle] *)
  xp_angle : Cx F -> F;
  (** [xp.exp(1j * t)] for a real [t] *)
  xp_exp_1j : F -> Cx F;
  (** [xp.exp] and [**] on reals *)
  xp_exp : F -> F;
  xp_power : F -> F -> F;
  (** [xp.round] *)
  xp_round : F -> F;
  (** [scipy.ndimage.gaussian_filter] on a real / complex array of the
      given shape *)
  gaussian_filter_real : nat * nat -> list F -> F -> list F;
  gaussian_filter_complex : nat * nat -> list (Cx F) -> F -> list (Cx F);
  (** [py4DSTEM.process.phase.utils.fft_shift] of one array by one shift
      vector; on an array of positions it is applied position by position *)
  fft_shift : nat * nat -> list (Cx F) -> F * F -> list (Cx F);
  (** [py4DSTEM.process.utils.get_CoM] *)
  get_CoM : nat * nat -> list F -> F * F;
  (** [py4DSTEM.process.phase.utils.generate_batches(num, max_batch=_)]:
      the [(start, end)] pairs, for a positive [max_batch] (with
      [max_batch = 0] the helper divides by zero, which is left out) *)
  generate_batches : nat -> nat -> list (nat * nat);
  (** the row and column index arrays that
      [PhaseReconstruction._set_vectorized_patch_indices] computes from the
      positions, the probe shape and the object shape *)
  vectorized_patch_indices :
    list (F * F) -> nat * nat -> nat * nat -> stack nat * stack nat;
  (** [np.random.shuffle], on the global state [Rng] of [np.random] *)
  np_random_shuffle : Rng -> list nat -> list nat * Rng
}.
Arguments Externals F {NF} Rng.

(* ================================================================= *)
(** ** The reconstruction object *)

Section Reconstruction.
Context {F : Type} {NF : Num F} {Rng : Type} {E : Externals F Rng}.
Local Open Scope num_scope.

(** The instance attributes that [reconstruct] and the methods it calls
    read or write.  An attribute that may not exist yet, or may hold
    [None], is an [option]; [_exit_waves] may be missing, [None] or an
    array.  [np_random_state] stands for the global state of
    [np.random], which [np.random.shuffle] advances. *)
Record Recon : Type := mkRecon {
  _object : list (Cx F);
  _probe : list (Cx F);
  _positions_px : list (F * F);
  _positions_px_fractional : list (F * F);
  _vectorized_patch_indices_row : stack nat;
  _vectorized_patch_indices_col : stack nat;
  _exit_waves : option (option (stack (Cx F)));
  _probe_support_mask : option (list F);
  object_iterations : option (list (list (Cx F)));
  probe_iterations : option (list (list (Cx F)));
  error_iterations : option (list F);
  object : option (list (Cx F));
  probe : option (list (Cx F));
  error : option F;
  np_random_state : Rng;
  _object_initial : list (Cx F);
  _probe_initial : list (Cx F);
  _positions_px_initial : list (F * F);
  _positions_px_com : F * F;
  _amplitudes : stack F;
  _mean_diffraction_intensity : F;
  _num_diffraction_patterns : nat;
  _region_of_interest_shape : nat * nat;
  _object_shape : nat * nat;
  _probe_initial_fft_amplitude : list F
}.

(** Attribute assignment [self.<field> = v]. *)
Definition set__object (v : list (Cx F)) (self : Recon) : Recon :=
  mkRecon v (_probe self) (_positions_px self) (_positions_px_fractional
    self) (_vectorized_patch_indices_row self)
    (_vectorized_patch_indices_col self) (_exit_waves self)
    (_probe_support_mask self) (object_iterations self)
    (probe_iterations self) (error_iterations self) (object self) (probe
    self) (error self) (np_random_state self) (_object_initial self)
    (_probe_initial self) (_positions_px_initial self)
    (_positions_px_com self) (_amplitudes self)
    (_mean_diffraction_intensity self) (_num_diffraction_patterns self)
    (_region_of_interest_shape self) (_object_shape self)
    (_probe_initial_fft_amplitude self).
Definition set__probe (v : list (Cx F)) (self : Recon) : Recon :=
  mkRecon (_object self) v (_positions_px self)
    (_positions_px_fractional self) (_vectorized_patch_indices_row self)
    (_vectorized_patch_indices_col self) (_exit_waves self)
    (_probe_support_mask self) (object_iterations self)
    (probe_iterations self) (error_iterations self) (object self) (probe
    self) (error self) (np_random_state self) (_object_initial self)
    (_probe_initial self) (_positions_px_initial self)
    (_positions_px_com self) (_amplitudes self)
    (_mean_diffraction_intensity self) (_num_diffraction_patterns self)
    (_region_of_interest_shape self) (_object_shape self)
    (_probe_initial_fft_amplitude self).
Definition set__positions_px (v : list (F * F)) (self : Recon) : Recon :=
  mkRecon (_object self) (_probe self) v (_positions_px_fractional self)
    (_vectorized_patch_indices_row self) (_vectorized_patch_indices_col
    self) (_exit_waves self) (_probe_support_mask self)
    (object_iterations self) (probe_iterations self) (error_iterations
    self) (object self) (probe self) (error self) (np_random_state self)
    (_object_initial self) (_probe_initial self) (_positions_px_initial
    self) (_positions_px_com self) (_amplitudes self)
    (_mean_diffraction_intensity self) (_num_diffraction_patterns self)
    (_region_of_interest_shape self) (_object_shape self)
    (_probe_initial_fft_amplitude self).
Definition set__positions_px_fractional (v : list (F * F)) (self : Recon) : Recon :=
  mkRecon (_object self) (_probe self) (_positions_px self) v
    (_vectorized_patch_indices_row self) (_vectorized_patch_indices_col
    self) (_exit_waves self) (_probe_support_mask self)
    (object_iterations self) (probe_iterations self) (error_iterations
    self) (object self) (probe self) (error self) (np_random_state self)
    (_object_initial self) (_probe_initial self) (_positions_px_initial
    self) (_positions_px_com self) (_amplitudes self)
    (_mean_diffraction_intensity self) (_num_diffraction_patterns self)
    (_region_of_interest_shape self) (_object_shape self)
    (_probe_initial_fft_amplitude self).
Definition set__vectorized_patch_indices_row (v : stack nat) (self : Recon) : Recon :=
  mkRecon (_object self) (_probe self) (_positions_px self)
    (_positions_px_fractional self) v (_vectorized_patch_indices_col
    self) (_exit_waves self) (_probe_support_mask self)
    (object_iterations self) (probe_iterations self) (error_iterations
    self) (object self) (probe self) (error self) (np_random_state self)
    (_object_initial self) (_probe_initial self) (_positions_px_initial
    self) (_positions_px_com self) (_amplitudes self)
    (_mean_diffraction_intensity self) (_num_diffraction_patterns self)
    (_region_of_interest_shape self) (_object_shape self)
    (_probe_initial_fft_amplitude self).
Definition set__vectorized_patch_indices_col (v : stack nat) (self : Recon) : Recon :=
  mkRecon (_object self) (_probe self) (_positions_px self)
    (_positions_px_fractional self) (_vectorized_patch_indices_row self)
    v (_exit_waves self) (_probe_support_mask self) (object_iterations
    self) (probe_iterations self) (error_iterations self) (object self)
    (probe self) (error self) (np_random_state self) (_object_initial
    self) (_probe_initial self) (_positions_px_initial self)
    (_positions_px_com self) (_amplitudes self)
    (_mean_diffraction_intensity self) (_num_diffraction_patterns self)
    (_region_of_interest_shape self) (_object_shape self)
    (_probe_initial_fft_amplitude self).
Definition set__exit_waves (v : option (option (stack (Cx F)))) (self : Recon) : Recon :=
  mkRecon (_object self) (_probe self) (_positions_px self)
    (_positions_px_fractional self) (_vectorized_patch_indices_row self)
    (_vectorized_patch_indices_col self) v (_probe_support_mask self)
    (object_iterations self) (probe_iterations self) (error_iterations
    self) (object self) (probe self) (error self) (np_random_state self)
    (_object_initial self) (_probe_initial self) (_positions_px_initial
    self) (_positions_px_com self) (_amplitudes self)
    (_mean_diffraction_intensity self) (_num_diffraction_patterns self)
    (_region_of_interest_shape self) (_object_shape self)
    (_probe_initial_fft_amplitude self).
Definition set__probe_support_mask (v : option (list F)) (self : Recon) : Recon :=
  mkRecon (_object self) (_probe self) (_positions_px self)
    (_positions_px_fractional self) (_vectorized_patch_indices_row self)
    (_vectorized_patch_indices_col self) (_exit_waves self) v
    (object_iterations self) (probe_iterations self) (error_iterations
    self) (object self) (probe self) (error self) (np_random_state self)
    (_object_initial self) (_probe_initial self) (_positions_px_initial
    self) (_positions_px_com self) (_amplitudes self)
    (_mean_diffraction_intensity self) (_num_diffraction_patterns self)
    (_region_of_interest_shape self) (_object_shape self)
    (_probe_initial_fft_amplitude self).
Definition set_object_iterations (v : option (list (list (Cx F)))) (self : Recon) : Recon :=
  mkRecon (_object self) (_probe self) (_positions_px self)
    (_positions_px_fractional self) (_vectorized_patch_indices_row self)
    (_vectorized_patch_indices_col self) (_exit_waves self)
    (_probe_support_mask self) v (probe_iterations self)
    (error_iterations self) (object self) (probe self) (error self)
    (np_random_state self) (_object_initial self) (_probe_initial self)
    (_positions_px_initial self) (_positions_px_com self) (_amplitudes
    self) (_mean_diffraction_intensity self) (_num_diffraction_patterns
    self) (_region_of_interest_shape self) (_object_shape self)
    (_probe_initial_fft_amplitude self).
Definition set_probe_iterations (v : option (list (list (Cx F)))) (self : Recon) : Recon :=
  mkRecon (_object self) (_probe self) (_positions_px self)
    (_positions_px_fractional self) (_vectorized_patch_indices_row self)
    (_vectorized_patch_indices_col self) (_exit_waves self)
    (_probe_support_mask self) (object_iterations self) v
    (error_iterations self) (object self) (probe self) (error self)
    (np_random_state self) (_object_initial self) (_probe_initial self)
    (_positions_px_initial self) (_positions_px_com self) (_amplitudes
    self) (_mean_diffraction_intensity self) (_num_diffraction_patterns
    self) (_region_of_interest_shape self) (_object_shape self)
    (_probe_initial_fft_amplitude self).
Definition set_error_iterations (v : option (list F)) (self : Recon) : Recon :=
  mkRecon (_object self) (_probe self) (_positions_px self)
    (_positions_px_fractional self) (_vectorized_patch_indices_row self)
    (_vectorized_patch_indices_col self) (_exit_waves self)
    (_probe_support_mask self) (object_iterations self)
    (probe_iterations self) v (object self) (probe self) (error self)
    (np_random_state self) (_object_initial self) (_probe_initial self)
    (_positions_px_initial self) (_positions_px_com self) (_amplitudes
    self) (_mean_diffraction_intensity self) (_num_diffraction_patterns
    self) (_region_of_interest_shape self) (_object_shape self)
    (_probe_initial_fft_amplitude self).
Definition set_object (v : option (list (Cx F))) (self : Recon) : Recon :=
  mkRecon (_object self) (_probe self) (_positions_px self)
    (_positions_px_fractional self) (_vectorized_patch_indices_row self)
    (_vectorized_patch_indices_col self) (_exit_waves self)
    (_probe_support_mask self) (object_iterations self)
    (probe_iterations self) (error_iterations self) v (probe self)
    (error self) (np_random_state self) (_object_initial self)
    (_probe_initial self) (_positions_px_initial self)
    (_positions_px_com self) (_amplitudes self)
    (_mean_diffraction_intensity self) (_num_diffraction_patterns self)
    (_region_of_interest_shape self) (_object_shape self)
    (_probe_initial_fft_amplitude self).
Definition set_probe (v : option (list (Cx F))) (self : Recon) : Recon :=
  mkRecon (_object self) (_probe self) (_positions_px self)
    (_positions_px_fractional self) (_vectorized_patch_indices_row self)
    (_vectorized_patch_indices_col self) (_exit_waves self)
    (_probe_support_mask self) (object_iterations self)
    (probe_iterations self) (error_iterations self) (object self) v
    (error self) (np_random_state self) (_object_initial self)
    (_probe_initial self) (_positions_px_initial self)
    (_positions_px_com self) (_amplitudes self)
    (_mean_diffraction_intensity self) (_num_diffraction_patterns self)
    (_region_of_interest_shape self) (_object_shape self)
    (_probe_initial_fft_amplitude self).
Definition set_error (v : option F) (self : Recon) : Recon :=
  mkRecon (_object self) (_probe self) (_positions_px self)
    (_positions_px_fractional self) (_vectorized_patch_indices_row self)
    (_vectorized_patch_indices_col self) (_exit_waves self)
    (_probe_support_mask self) (object_iterations self)
    (probe_iterations self) (error_iterations self) (object self) (probe
    self) v (np_random_state self) (_object_initial self)
    (_probe_initial self) (_positions_px_initial self)
    (_positions_px_com self) (_amplitudes self)
    (_mean_diffraction_intensity self) (_num_diffraction_patterns self)
    (_region_of_interest_shape self) (_object_shape self)
    (_probe_initial_fft_amplitude self).
Definition set_np_random_state (v : Rng) (self : Recon) : Recon :=
  mkRecon (_object self) (_probe self) (_positions_px self)
    (_positions_px_fractional self) (_vectorized_patch_indices_row self)
    (_vectorized_patch_indices_col self) (_exit_waves self)
    (_probe_support_mask self) (object_iterations self)
    (probe_iterations self) (error_iterations self) (object self) (probe
    self) (error self) v (_object_initial self) (_probe_initial self)
    (_positions_px_initial self) (_positions_px_com self) (_amplitudes
    self) (_mean_diffraction_intensity self) (_num_diffraction_patterns
    self) (_region_of_interest_shape self) (_object_shape self)
    (_probe_initial_fft_amplitude self).

(** *** Methods: state and exceptions *)

Definition M (A : Type) : Type := Recon -> outcome A * Recon.

Definition ret {A : Type} (a : A) : M A := fun self => (Ok a, self).
Definition raise {A : Type} (e : exn) : M A := fun self => (Raise e, self).
Definition bind {A B : Type} (c : M A) (k : A -> M B) : M B :=
  fun self =>
    match c self with
    | (Ok a, self') => k a self'
    | (Raise e, self') => (Raise e, self')
    end.
(** read the attributes / run a computation that only reads them *)
Definition read {A : Type} (f : Recon -> outcome A) : M A :=
  fun self => (f self, self).
Definition lift {A : Type} (c : outcome A) : M A := read (fun _ => c).
(** assign attributes *)
Definition assign (f : Recon -> Recon) : M unit :=
  fun self => (Ok tt, f self).

Declare Scope method_scope.
Delimit Scope method_scope with method.
Notation "x <- c ;; k" := (bind c (fun x => k))
  (at level 61, c at next level, right associativity) : method_scope.
Notation "' p <- c ;; k" := (bind c (fun p => k))
  (at level 61, p pattern, c at next level, right associativity)
  : method_scope.
Notation "c ;; k" := (bind c (fun _ => k))
  (at level 61, right associativity) : method_scope.

(** [for x in l: acc = body x acc] *)
Fixpoint for_each {X A : Type} (body : X -> A -> M A) (l : list X) (acc : A)
  : M A :=
  match l with
  | [] => ret acc
  | x :: l' => bind (body x acc) (for_each body l')
  end.

(** *** Element-wise arithmetic on arrays *)

Definition stack_fft2 (shape : nat * nat) (a : stack (Cx F)) : stack (Cx F) :=
  map (xp_fft2 shape) a.
Definition stack_ifft2 (shape : nat * nat) (a : stack (Cx F)) : stack (Cx F) :=
  map (xp_ifft2 shape) a.

(** [xp.exp(1j * xp.angle(z))] *)
Definition unit_phase (z : Cx F) : Cx F := xp_exp_1j (xp_angle z).

(** [xp.max] of an array; numpy raises on an array without elements. *)
Definition xp_max (l : list F) : outcome F :=
  match l with
  | [] => Raise (ValueError "zero-size array to reduction operation maximum which has no identity")
  | x :: l' => Ok (fold_left fmax l' x)
  end.

(** *** [_overlap_projection] *)

(** [current_object[rows, cols]] on the flattened object *)
Definition index_object (shape : nat * nat) (a : list (Cx F))
  (rows cols : stack nat) : outcome (stack (Cx F)) :=
  let '(P, Q) := shape in
  sequence
    (zip_with
       (fun rs cs =>
          sequence
            (zip_with
               (fun r c =>
                  if (r <? P)%nat && (c <? Q)%nat then
                    match nth_error a (r * Q + c) with
                    | Some z => Ok z
                    | None => Raise IndexError
                    end
                  else Raise IndexError)
               rs cs))
       rows cols).

Definition _overlap_projection (self : Recon)
  (current_object current_probe : list (Cx F))
  : outcome (stack (Cx F) * stack (Cx F) * stack (Cx F)) :=
  let shifted_probes :=
    map (fft_shift (_region_of_interest_shape self) current_probe)
        (_positions_px_fractional self) in
  (object_patches <-
     index_object (_object_shape self) current_object
       (_vectorized_patch_indices_row self)
       (_vectorized_patch_indices_col self) ;;
   let overlap := szip_with cmul shifted_probes object_patches in
   Ok (shifted_probes, object_patches, overlap))%outcome.

(** *** Fourier projections *)

Definition _gradient_descent_fourier_projection (self : Recon)
  (amplitudes : stack F) (overlap : stack (Cx F))
  (exit_waves : option (stack (Cx F))) : stack (Cx F) * F :=
  let shape := _region_of_interest_shape self in
  let fourier_overlap := stack_fft2 shape overlap in
  let error :=
    mean_all
      (smap (fun d => sq (fabs d))
         (szip_with fsub amplitudes (smap cabs fourier_overlap)))
    / _mean_diffraction_intensity self in
  let fourier_modified_overlap :=
    szip_with rcmul amplitudes (smap unit_phase fourier_overlap) in
  let modified_overlap := stack_ifft2 shape fourier_modified_overlap in
  let exit_waves := szip_with csub modified_overlap overlap in
  (exit_waves, error).

Definition _projection_sets_fourier_projection (self : Recon)
  (amplitudes : stack F) (overlap : stack (Cx F))
  (exit_waves : option (stack (Cx F)))
  (projection_a projection_b projection_c : F) : stack (Cx F) * F :=
  let shape := _region_of_interest_shape self in
  let projection_x := 1 - projection_a - projection_b in
  let projection_y := 1 - projection_c in
  let fourier_overlap := stack_fft2 shape overlap in
  let error :=
    mean_all
      (smap (fun d => sq (fabs d))
         (szip_with fsub amplitudes (smap cabs fourier_overlap)))
    / _mean_diffraction_intensity self in
  let exit_waves :=
    match exit_waves with
    | None => overlap
    | Some w => w
    end in
  let factor_to_be_projected :=
    szip_with cadd (smap (rcmul projection_c) overlap)
                   (smap (rcmul projection_y) exit_waves) in
  let fourier_projected_factor := stack_fft2 shape factor_to_be_projected in
  let fourier_projected_factor :=
    szip_with rcmul amplitudes (smap unit_phase fourier_projected_factor) in
  let projected_factor := stack_ifft2 shape fourier_projected_factor in
  let exit_waves :=
    szip_with cadd
      (szip_with cadd (smap (rcmul projection_x) exit_waves)
                      (smap (rcmul projection_a) overlap))
      (smap (rcmul projection_b) projected_factor) in
  (exit_waves, error).

Definition _forward (self : Recon)
  (current_object current_probe : list (Cx F)) (amplitudes : stack F)
  (exit_waves : option (stack (Cx F))) (use_projection_scheme : bool)
  (projection_a projection_b projection_c : option F)
  : outcome (stack (Cx F) * stack (Cx F) * stack (Cx F) * F) :=
  ('(shifted_probes, object_patches, overlap) <-
     _overlap_projection self current_object current_probe ;;
   if use_projection_scheme then
     (* arithmetic on [None] is a TypeError, raised where it is first
        used *)
     a <- number projection_a ;;
     b <- number projection_b ;;
     c <- number projection_c ;;
     let '(exit_waves, error) :=
       _projection_sets_fourier_projection self amplitudes overlap
         exit_waves a b c in
     Ok (shifted_probes, object_patches, exit_waves, error)
   else
     let '(exit_waves, error) :=
       _gradient_descent_fourier_projection self amplitudes overlap
         exit_waves in
     Ok (shifted_probes, object_patches, exit_waves, error))%outcome.

(** *** Adjoint operators *)

(** Accumulation of weighted values into [npix] bins: bin [pix] receives
    the sum of the values whose index is [pix]. *)
Definition scatter_add {A : Type} (zero : A) (add : A -> A -> A)
  (npix : nat) (entries : list (nat * A)) : list A :=
  map (fun pix =>
         fold_right
           (fun (e : nat * A) acc =>
              if (fst e =? pix)%nat then add (snd e) acc else acc)
           zero entries)
      (seq 0 npix).

(** The flattened object index of every probe pixel at every position. *)
Definition flat_patch_indices (self : Recon) : list nat :=
  zip_with (fun r c => (r * snd (_object_shape self) + c)%nat)
    (concat (_vectorized_patch_indices_row self))
    (concat (_vectorized_patch_indices_col self)).

(** Modelled from the spec: [_sum_overlapping_patches_bincounts] is a
    method of the base class [PhaseReconstruction], whose file is not
    among the sources.  The spec describes it as the scatter-add
    accumulation, into an array of the object's shape, across all patches
    that overlap a given object pixel: the value of every probe pixel at
    every position is added to the object pixel that the patch indices
    assign to it. *)
Definition _sum_overlapping_patches_bincounts (self : Recon)
  (patches : stack F) : list F :=
  scatter_add 0 fadd
    (fst (_object_shape self) * snd (_object_shape self))
    (combine (flat_patch_indices self) (concat patches)).

(** The same accumulation of a complex array. *)
Definition _sum_overlapping_patches_bincounts_complex (self : Recon)
  (patches : stack (Cx F)) : list (Cx F) :=
  scatter_add (rc 0) cadd
    (fst (_object_shape self) * snd (_object_shape self))
    (combine (flat_patch_indices self) (concat patches)).

(** complex times real *)
Definition crmul (z : Cx F) (r : F) : Cx F := cmul z (rc r).

Definition roi_size (self : Recon) : nat :=
  (fst (_region_of_interest_shape self)
   * snd (_region_of_interest_shape self))%nat.

(** The quantity under [1/( )] in the probe normalization of
    [_gradient_descent_adjoint]. *)
Definition gradient_descent_probe_denominator (self : Recon)
  (normalization_min : F) (shifted_probes : stack (Cx F))
  : outcome (list F) :=
  (max_abs <- xp_max (concat (smap cabs shifted_probes)) ;;
   Ok (map (fadd f1em9)
         (_sum_overlapping_patches_bincounts self
            (smap (fun p => normalization_min * sq (cabs p)
                            + (1 - normalization_min) * sq max_abs)
                  shifted_probes))))%outcome.

(** The quantity under [1/( )] in its object normalization. *)
Definition gradient_descent_object_denominator (self : Recon)
  (normalization_min : F) (object_patches : stack (Cx F))
  : outcome (list F) :=
  (max_abs <- xp_max (concat (smap cabs object_patches)) ;;
   Ok (map (fadd f1em9)
         (fsum_axis0 (roi_size self)
            (smap (fun p => normalization_min * sq (cabs p)
                            + (1 - normalization_min) * sq max_abs)
                  object_patches))))%outcome.

Definition _gradient_descent_adjoint (self : Recon)
  (current_object current_probe : list (Cx F))
  (object_patches shifted_probes exit_waves : stack (Cx F))
  (step_size : option F) (normalization_min : F) (fix_probe : bool)
  : outcome (list (Cx F) * list (Cx F)) :=
  (denominator <-
     gradient_descent_probe_denominator self normalization_min
       shifted_probes ;;
   let probe_normalization := map (fdiv 1) denominator in
   step <- number step_size ;;
   let current_object :=
     zip_with cadd current_object
       (map (rcmul step)
          (zip_with crmul
             (_sum_overlapping_patches_bincounts_complex self
                (szip_with cmul (smap cconj shifted_probes) exit_waves))
             probe_normalization)) in
   if negb fix_probe then
     denominator <-
       gradient_descent_object_denominator self normalization_min
         object_patches ;;
     let object_normalization := map (fdiv 1) denominator in
     let current_probe :=
       zip_with cadd current_probe
         (map (rcmul step)
            (zip_with crmul
               (csum_axis0 (roi_size self)
                  (szip_with cmul (smap cconj object_patches) exit_waves))
               object_normalization)) in
     Ok (current_object, current_probe)
   else Ok (current_object, current_probe))%outcome.

(** The quantity under [1/( )] in the probe normalization of
    [_projection_sets_adjoint]. *)
Definition projection_sets_probe_denominator (self : Recon)
  (normalization_min : F) (shifted_probes : stack (Cx F))
  : outcome (list F) :=
  let probe_normalization :=
    _sum_overlapping_patches_bincounts self
      (smap (fun p => sq (cabs p)) shifted_probes) in
  (max_norm <- xp_max probe_normalization ;;
   Ok (map (fun n => fsqrt (sq n + sq (normalization_min * max_norm)))
         probe_normalization))%outcome.

(** The quantity under [1/( )] in its object normalization. *)
Definition projection_sets_object_denominator (self : Recon)
  (normalization_min : F) (object_patches : stack (Cx F))
  : outcome (list F) :=
  let object_normalization :=
    fsum_axis0 (roi_size self)
      (smap (fun p => sq (cabs p)) object_patches) in
  (max_norm <- xp_max object_normalization ;;
   Ok (map (fun n => fsqrt (sq n + sq (normalization_min * max_norm)))
         object_normalization))%outcome.

Definition _projection_sets_adjoint (self : Recon)
  (current_object current_probe : list (Cx F))
  (object_patches shifted_probes exit_waves : stack (Cx F))
  (normalization_min : F) (fix_probe : bool)
  : outcome (list (Cx F) * list (Cx F)) :=
  (denominator <-
     projection_sets_probe_denominator self normalization_min
       shifted_probes ;;
   let probe_normalization := map (fdiv 1) denominator in
   let current_object :=
     zip_with crmul
       (_sum_overlapping_patches_bincounts_complex self
          (szip_with cmul (smap cconj shifted_probes) exit_waves))
       probe_normalization in
   if negb fix_probe then
     denominator <-
       projection_sets_object_denominator self normalization_min
         object_patches ;;
     let object_normalization := map (fdiv 1) denominator in
     let current_probe :=
       zip_with crmul
         (csum_axis0 (roi_size self)
            (szip_with cmul (smap cconj object_patches) exit_waves))
         object_normalization in
     Ok (current_object, current_probe)
   else Ok (current_object, current_probe))%outcome.

Definition _adjoint (self : Recon)
  (current_object current_probe : list (Cx F))
  (object_patches shifted_probes : stack (Cx F))
  (current_positions : list (F * F)) (exit_waves : stack (Cx F))
  (use_projection_scheme : bool) (step_size : option F)
  (normalization_min : F)
  (fix_probe fix_positions alternative_position_correction : bool)
  : outcome (list (Cx F) * list (Cx F) * list (F * F)) :=
  ('(current_object, current_probe) <-
     (if use_projection_scheme then
        _projection_sets_adjoint self current_object current_probe
          object_patches shifted_probes exit_waves normalization_min
          fix_probe
      else
        _gradient_descent_adjoint self current_object current_probe
          object_patches shifted_probes exit_waves step_size
          normalization_min fix_probe) ;;
   Ok (current_object, current_probe, current_positions))%outcome.

(** *** Constraints *)

Definition _object_threshold_constraint (current_object : list (Cx F))
  (pure_phase_object : bool) : list (Cx F) :=
  let phase := map unit_phase current_object in
  if pure_phase_object then
    (* amplitude = 1.0 *)
    map (rcmul 1) phase
  else
    let amplitude := map (fun z => fmin (cabs z) 1) current_object in
    zip_with rcmul amplitude phase.

Definition _object_smoothness_constraint (self : Recon)
  (current_object : list (Cx F)) (gaussian_blur_sigma : F)
  (pure_phase_object : bool) : list (Cx F) :=
  if pure_phase_object then
    let amplitude := map cabs current_object in
    let phase := map xp_angle current_object in
    let phase :=
      gaussian_filter_real (_object_shape self) phase gaussian_blur_sigma in
    zip_with rcmul amplitude (map xp_exp_1j phase)
  else
    gaussian_filter_complex (_object_shape self) current_object
      gaussian_blur_sigma.

Definition _probe_center_of_mass_constraint (self : Recon)
  (current_probe : list (Cx F)) : list (Cx F) :=
  let shape := _region_of_interest_shape self in
  let probe_center := (of_nat (fst shape) / 2, of_nat (snd shape) / 2) in
  let probe_intensity := map (fun z => sq (cabs z)) current_probe in
  let '(probe_x0, probe_y0) := get_CoM shape probe_intensity in
  fft_shift shape current_probe
    (fst probe_center - probe_x0, snd probe_center - probe_y0).

Definition _probe_fourier_amplitude_constraint (self : Recon)
  (current_probe : list (Cx F)) : list (Cx F) :=
  let shape := _region_of_interest_shape self in
  let current_probe_fft := xp_fft2 shape current_probe in
  let current_probe_fft_phase := map xp_angle current_probe_fft in
  let constrained_probe_fft :=
    zip_with rcmul (_probe_initial_fft_amplitude self)
      (map xp_exp_1j current_probe_fft_phase) in
  xp_ifft2 shape constrained_probe_fft.

Definition _probe_finite_support_constraint (self : Recon)
  (current_probe : list (Cx F)) : outcome (list (Cx F)) :=
  (mask <- attribute "_probe_support_mask" (_probe_support_mask self) ;;
   Ok (zip_with crmul current_probe mask))%outcome.

(** [self._set_vectorized_patch_indices()]: the method belongs to the
    base class; it stores the index arrays computed from the current
    positions. *)
Definition _set_vectorized_patch_indices : M unit :=
  assign (fun self =>
    let '(rows, cols) :=
      vectorized_patch_indices (_positions_px self)
        (_region_of_interest_shape self) (_object_shape self) in
    set__vectorized_patch_indices_col cols
      (set__vectorized_patch_indices_row rows self)).

Definition fractional (positions : list (F * F)) : list (F * F) :=
  map (fun p => (fst p - xp_round (fst p), snd p - xp_round (snd p)))
      positions.

(** The new value of the positions array in
    [_positions_center_of_mass_constraint]:
    [current_positions -= xp.mean(current_positions, axis=0) - com]. *)
Definition recentre (com : F * F) (current_positions : list (F * F))
  : list (F * F) :=
  let m := mean_axis0 current_positions in
  let d := (fst m - fst com, snd m - snd com) in
  map (fun p => (fst p - fst d, snd p - snd d)) current_positions.

(** [current_positions] is the array held in [self._positions_px] (the
    only call passes that attribute), and [-=] changes it in place: the
    attribute shows the new value when the patch indices are
    recomputed. *)
Definition _positions_center_of_mass_constraint
  (current_positions : list (F * F)) : M (list (F * F)) :=
  (self <- read (fun self => Ok self) ;;
   let current_positions :=
     recentre (_positions_px_com self) current_positions in
   assign (set__positions_px current_positions) ;;
   assign (set__positions_px_fractional (fractional current_positions)) ;;
   _set_vectorized_patch_indices ;;
   ret current_positions)%method.

Definition _constraints (current_object current_probe : list (Cx F))
  (current_positions : list (F * F)) (pure_phase_object : bool)
  (gaussian_blur_sigma : option F)
  (fix_com fix_probe_fourier_amplitude fix_positions : bool)
  : M (list (Cx F) * list (Cx F) * list (F * F)) :=
  (self <- read (fun self => Ok self) ;;
   let current_object :=
     match gaussian_blur_sigma with
     | Some sigma =>
         _object_smoothness_constraint self current_object sigma
           pure_phase_object
     | None => current_object
     end in
   let current_object :=
     _object_threshold_constraint current_object pure_phase_object in
   let current_probe :=
     if fix_probe_fourier_amplitude then
       _probe_fourier_amplitude_constraint self current_probe
     else current_probe in
   current_probe <- lift (_probe_finite_support_constraint self current_probe) ;;
   let current_probe :=
     if fix_com then _probe_center_of_mass_constraint self current_probe
     else current_probe in
   current_positions <-
     (if negb fix_positions then
        _positions_center_of_mass_constraint current_positions
      else ret current_positions) ;;
   ret (current_object, current_probe, current_positions))%method.

(** *** [reconstruct] *)

(** The keyword arguments of [reconstruct].  An iteration threshold is a
    number of iterations or [np.inf] ([None] here). *)
Record Config : Type := mkConfig {
  reset : option bool;
  max_iter : nat;
  step_size : F;
  positions_step_size : F;
  normalization_min : F;
  fix_com : bool;
  fix_probe_iter : option nat;
  fix_positions_iter : option nat;
  alternative_position_correction : bool;
  probe_support_relative_radius : F;
  probe_support_supergaussian_degree : F;
  fix_probe_fourier_amplitude_iter : option nat;
  pure_phase_object_iter : option nat;
  gaussian_blur_sigma : option F;
  gaussian_blur_iter : option nat;
  progress_bar : bool;
  store_iterations : bool;
  reconstruction_method : string;
  reconstruction_parameter : F;
  max_batch_size : option nat
}.

(** [a0 < threshold] *)
Definition before (a0 : nat) (threshold : option nat) : bool :=
  match threshold with
  | None => true
  | Some n => (a0 <? n)%nat
  end.

(** The local variables that the section "Reconstruction method" of
    [reconstruct] binds. *)
Record Scheme : Type := mkScheme {
  use_projection_scheme : bool;
  projection_a : option F;
  projection_b : option F;
  projection_c : option F;
  scheme_step_size : option F;
  scheme_reconstruction_parameter : option F
}.

Definition select_method (reconstruction_method : string)
  (reconstruction_parameter step_size : F) : outcome Scheme :=
  if (reconstruction_method =? "DM_AP")%string
     || (reconstruction_method =? "difference-map_alternating-projections")%string
  then
    Ok (mkScheme true
          (Some (- reconstruction_parameter))
          (Some 1)
          (Some (1 + reconstruction_parameter))
          None
          (Some reconstruction_parameter))
  else if (reconstruction_method =? "RAAR")%string
          || (reconstruction_method =? "relaxed-averaged-alternating-reflections")%string
  then
    Ok (mkScheme true
          (Some (1 - 2 * reconstruction_parameter))
          (Some reconstruction_parameter)
          (Some 2)
          None
          (Some reconstruction_parameter))
  else if (reconstruction_method =? "GD")%string
          || (reconstruction_method =? "gradient-descent")%string
  then
    Ok (mkScheme false None None None (Some step_size) None)
  else
    Raise (ValueError
      ("reconstruction_method must be one of 'DM_AP' (or 'difference-map_alternating-projections'), "
       ++ "'RAAR' (or 'relaxed-averaged-alternating-reflections'), "
       ++ "or 'GD' (or 'gradient-descent'), not  "
       ++ reconstruction_method ++ ".")%string).

(** Section "Batching": the batch size that the loop uses. *)
Definition batching (sch : Scheme) (max_batch_size : option nat)
  (num_diffraction_patterns : nat) : outcome nat :=
  match max_batch_size with
  | Some size =>
      if use_projection_scheme sch then
        Raise (ValueError
          ("Stochastic object/probe updating is inconsistent with 'DM_AP' and 'RAAR'. "
           ++ "Use reconstruction_method='GD' or set max_batch_size=None.")%string)
      else Ok size
  | None => Ok num_diffraction_patterns
  end.

Definition truthy (b : option bool) : bool :=
  match b with
  | Some true => true
  | _ => false
  end.

(** Section "initialization". *)
Definition initialization (cfg : Config) : M unit :=
  (self <- read (fun self => Ok self) ;;
   (if store_iterations cfg
       && (match object_iterations self with None => true | Some _ => false end
           || truthy (reset cfg))
    then
      assign (set_object_iterations (Some [])) ;;
      assign (set_probe_iterations (Some [])) ;;
      assign (set_error_iterations (Some []))
    else ret tt) ;;
   match reset cfg with
   | Some true =>
       assign (fun self => set__object (_object_initial self) self) ;;
       assign (fun self => set__probe (_probe_initial self) self) ;;
       assign (fun self => set__positions_px (_positions_px_initial self) self) ;;
       assign (fun self =>
                 set__positions_px_fractional
                   (fractional (_positions_px self)) self) ;;
       _set_vectorized_patch_indices ;;
       assign (set__exit_waves (Some None))
   | None =>
       self <- read (fun self => Ok self) ;;
       match error self with
       | Some _ => ret tt (* warnings.warn *)
       | None => assign (set__exit_waves (Some None))
       end
   | Some false => ret tt
   end)%method.

(** "Probe support mask initialization":
    [x = xp.linspace(-1, 1, n, endpoint=False)] and the super-Gaussian
    of the mesh grid, flattened in row-major order. *)
Definition linspace_m1_1 (n : nat) : list F :=
  map (fun i => of_nat i * ((1 - fopp 1) / of_nat n) + fopp 1) (seq 0 n).

Definition probe_support_mask (shape : nat * nat)
  (probe_support_relative_radius probe_support_supergaussian_degree : F)
  : list F :=
  let x := linspace_m1_1 (fst shape) in
  let y := linspace_m1_1 (snd shape) in
  flat_map
    (fun xx =>
       map (fun yy =>
              xp_exp
                (- xp_power
                     (sq (xx / probe_support_relative_radius)
                      + sq (yy / probe_support_relative_radius))
                     probe_support_supergaussian_degree))
           y)
    x.

(** "batch indices": the first four statements of the inner loop, for
    the batch [(start, end)]; the result is the local [amplitudes]. *)
Definition batch_indices (shuffled_indices : list nat) (start end_ : nat)
  : M (stack F) :=
  (initial <- read (fun self =>
     take_indices (_positions_px_initial self) shuffled_indices) ;;
   assign (set__positions_px (slice start end_ initial)) ;;
   assign (fun self =>
             set__positions_px_fractional
               (fractional (_positions_px self)) self) ;;
   _set_vectorized_patch_indices ;;
   all_amplitudes <- read (fun self =>
     take_indices (_amplitudes self) shuffled_indices) ;;
   ret (slice start end_ all_amplitudes))%method.

(** "forward operator": the call of [_forward] and the assignment of
    its results. *)
Definition batch_forward (sch : Scheme) (amplitudes : stack F)
  : M (stack (Cx F) * stack (Cx F) * stack (Cx F) * F) :=
  ('(shifted_probes, object_patches, exit_waves, error) <-
     read (fun self =>
       (previous <- attribute "_exit_waves" (_exit_waves self) ;;
        _forward self (_object self) (_probe self) amplitudes previous
          (use_projection_scheme sch) (projection_a sch)
          (projection_b sch) (projection_c sch))%outcome) ;;
   assign (set__exit_waves (Some (Some exit_waves))) ;;
   ret (shifted_probes, object_patches, exit_waves, error))%method.

(** "adjoint operator" *)
Definition batch_adjoint (cfg : Config) (sch : Scheme) (a0 : nat)
  (object_patches shifted_probes exit_waves : stack (Cx F)) : M unit :=
  ('(new_object, new_probe, new_positions) <-
     read (fun self =>
       _adjoint self (_object self) (_probe self) object_patches
         shifted_probes (_positions_px self) exit_waves
         (use_projection_scheme sch) (scheme_step_size sch)
         (normalization_min cfg)
         (before a0 (fix_probe_iter cfg))
         (before a0 (fix_positions_iter cfg))
         (alternative_position_correction cfg)) ;;
   assign (set__object new_object) ;;
   assign (set__probe new_probe) ;;
   assign (set__positions_px new_positions))%method.

(** "constraints" *)
Definition batch_constraints (cfg : Config) (a0 : nat) : M unit :=
  (let gaussian_sigma :=
     if before a0 (gaussian_blur_iter cfg) then gaussian_blur_sigma cfg
     else None in
   self <- read (fun self => Ok self) ;;
   '(new_object, new_probe, new_positions) <-
     _constraints (_object self) (_probe self) (_positions_px self)
       (before a0 (pure_phase_object_iter cfg))
       gaussian_sigma
       (fix_com cfg && negb (before a0 (fix_probe_iter cfg)))
       (before a0 (fix_probe_fourier_amplitude_iter cfg))
       (before a0 (fix_positions_iter cfg)) ;;
   assign (set__object new_object) ;;
   assign (set__probe new_probe) ;;
   assign (set__positions_px new_positions))%method.

(** The body of the inner loop, for the batch [(start, end)] of iteration
    [a0]; the result is the local variable [error]. *)
Definition batch (cfg : Config) (sch : Scheme) (a0 : nat)
  (shuffled_indices : list nat) (bounds : nat * nat) (error : option F)
  : M (option F) :=
  (amplitudes <-
     batch_indices shuffled_indices (fst bounds) (snd bounds) ;;
   '(shifted_probes, object_patches, exit_waves, error) <-
     batch_forward sch amplitudes ;;
   batch_adjoint cfg sch a0 object_patches shifted_probes exit_waves ;;
   batch_constraints cfg a0 ;;
   ret (Some error))%method.

Definition append {A : Type} (name : string) (l : option (list A)) (x : A)
  : outcome (option (list A)) :=
  (l <- attribute name l ;; Ok (Some (l ++ [x])))%outcome.

(** "if store_iterations:" at the end of an iteration. *)
Definition store_iteration (error : option F) : M unit :=
  (self <- read (fun self => Ok self) ;;
   l <- lift (append "object_iterations" (object_iterations self) (_object self)) ;;
   assign (set_object_iterations l) ;;
   l <- lift (append "probe_iterations" (probe_iterations self) (_probe self)) ;;
   assign (set_probe_iterations l) ;;
   l <- lift (e <- local "error" error ;;
              append "error_iterations" (error_iterations self) e)%outcome ;;
   assign (set_error_iterations l))%method.

(** "randomize": shuffle the index order when the batches are smaller
    than the data set. *)
Definition randomize (max_batch_size : nat) (shuffled_indices : list nat)
  : M (list nat) :=
  (num <- read (fun self => Ok (_num_diffraction_patterns self)) ;;
   if (max_batch_size <? num)%nat then
     state <- read (fun self => Ok (np_random_state self)) ;;
     let '(shuffled, state) := np_random_shuffle state shuffled_indices in
     assign (set_np_random_state state) ;;
     ret shuffled
   else ret shuffled_indices)%method.

(** The body of the main loop for iteration [a0]; the loop carries the
    local variables [shuffled_indices] and [error]. *)
Definition iteration (cfg : Config) (sch : Scheme) (max_batch_size : nat)
  (a0 : nat) (locals : list nat * option F) : M (list nat * option F) :=
  (shuffled_indices <- randomize max_batch_size (fst locals) ;;
   num <- read (fun self => Ok (_num_diffraction_patterns self)) ;;
   error <-
     for_each (batch cfg sch a0 shuffled_indices)
       (generate_batches num max_batch_size) (snd locals) ;;
   (if store_iterations cfg then store_iteration error else ret tt) ;;
   ret (shuffled_indices, error))%method.

(** "store result".  With the numpy backend [asnumpy] does not copy: the
    code stores in [self.object] the array held in [self._object], and
    the model stores its value at this point. *)
Definition store_result (error : option F) : M unit :=
  (assign (fun self => set_object (Some (_object self)) self) ;;
   assign (fun self => set_probe (Some (_probe self)) self) ;;
   e <- lift (local "error" error) ;;
   assign (set_error (Some e)))%method.

(** Everything that [reconstruct] does before its main loop; the result
    is the selected scheme and the batch size.  The messages printed when
    [self._verbose] is set change no attribute and are left out.  The
    local [shuffled_indices = np.arange(num)] of the section "Batching" is
    bound in [reconstruct] below, where the loop starts from it. *)
Definition prelude (cfg : Config) : M (Scheme * nat) :=
  ((* Reconstruction method *)
   (if (reconstruction_parameter cfg <? 0) || (1 <? reconstruction_parameter cfg)
    then raise (ValueError "reconstruction_parameter must be between 0-1.")
    else ret tt) ;;
   sch <- lift (select_method (reconstruction_method cfg)
                  (reconstruction_parameter cfg) (step_size cfg)) ;;
   (* Batching *)
   num <- read (fun self => Ok (_num_diffraction_patterns self)) ;;
   max_batch_size <- lift (batching sch (max_batch_size cfg) num) ;;
   (* initialization *)
   initialization cfg ;;
   (* Probe support mask initialization *)
   assign (fun self =>
             set__probe_support_mask
               (Some (probe_support_mask (_region_of_interest_shape self)
                        (probe_support_relative_radius cfg)
                        (probe_support_supergaussian_degree cfg)))
               self) ;;
   ret (sch, max_batch_size))%method.

Definition reconstruct (cfg : Config) : M unit :=
  ('(sch, max_batch_size) <- prelude cfg ;;
   num <- read (fun self => Ok (_num_diffraction_patterns self)) ;;
   let shuffled_indices := seq 0 num in
   (* main loop *)
   locals <-
     for_each (iteration cfg sch max_batch_size) (seq 0 (max_iter cfg))
       (shuffled_indices, None) ;;
   (* store result *)
   store_result (snd locals))%method.

End Reconstruction.

Arguments Recon F Rng : clear implicits.
Arguments Config F : clear implicits.
Arguments Scheme F : clear implicits.
Arguments M F Rng A : clear implicits.

(* ================================================================= *)
(** ** Constraints of [iterative_constraints.py] *)

Section FurtherConstraints.
Context {F : Type} {NF : Num F} {Rng : Type} {E : Externals F Rng}.
Local Open Scope num_scope.

(** [_object_positivity_constraint]: the object is a real potential;
    [shrinkage_rad] may be [None]. *)
Definition _object_positivity_constraint (current_object : list F)
  (shrinkage_rad : option F) : list F :=
  let current_object :=
    match shrinkage_rad with
    | Some shrinkage => map (fun x => x - shrinkage) current_object
    | None => current_object
    end in
  map (fun x => fmax x 0) current_object.

(** [_object_gaussian_constraint]: unlike [_object_smoothness_constraint]
    above, the pure-phase branch returns [exp(1j·phase)] alone. *)
Definition _object_gaussian_constraint (self : Recon F Rng)
  (current_object : list (Cx F)) (gaussian_filter_sigma : F)
  (pure_phase_object : bool) : list (Cx F) :=
  if pure_phase_object then
    let phase := map xp_angle current_object in
    let phase :=
      gaussian_filter_real (_object_shape self) phase gaussian_filter_sigma in
    map xp_exp_1j phase
  else
    gaussian_filter_complex (_object_shape self) current_object
      gaussian_filter_sigma.

End FurtherConstraints.

(* ================================================================= *)
(** ** The formulas of the specification *)

Section Specification.
Context {F : Type} {NF : Num F} {Rng : Type} {E : Externals F Rng}.
Local Open Scope num_scope.

Notation "a '.+' b" := (szip_with cadd a b) (at level 50, left associativity).
Notation "k '.*' a" := (smap (rcmul k) a) (at level 40, left associativity).

(** "replace amplitude while preserving phase":
    [IFFT(amplitudes · exp(i·angle(FFT(wave))))] *)
Definition spec_fourier_project (shape : nat * nat) (amplitudes : stack F)
  (wave : stack (Cx F)) : stack (Cx F) :=
  stack_ifft2 shape
    (szip_with rcmul amplitudes (smap unit_phase (stack_fft2 shape wave))).

(** [mean(|amplitudes - |FFT(overlap)||²) / reference_intensity] *)
Definition spec_error (shape : nat * nat) (reference_intensity : F)
  (amplitudes : stack F) (overlap : stack (Cx F)) : F :=
  mean_all
    (smap (fun d => sq (fabs d))
       (szip_with fsub amplitudes (smap cabs (stack_fft2 shape overlap))))
  / reference_intensity.

(** [exit_wave_new = x·exit_wave_prev + a·overlap + b·projected] with
    [x = 1 − a − b], [projected] the Fourier projection of
    [c·overlap + (1 − c)·exit_wave_prev], and [exit_wave_prev] defaulting
    to [overlap]. *)
Definition spec_projection_sets_exit_wave (shape : nat * nat)
  (amplitudes : stack F) (overlap : stack (Cx F))
  (exit_wave_prev : option (stack (Cx F))) (a b c : F) : stack (Cx F) :=
  let x := 1 - a - b in
  let prev := match exit_wave_prev with
              | Some w => w
              | None => overlap
              end in
  let projected :=
    spec_fourier_project shape amplitudes (c .* overlap .+ (1 - c) .* prev) in
  x .* prev .+ a .* overlap .+ b .* projected.

(** The six accepted method names, and those of the projection
    schemes. *)
Definition accepted_methods : list string :=
  [ "GD"; "gradient-descent";
    "DM_AP"; "difference-map_alternating-projections";
    "RAAR"; "relaxed-averaged-alternating-reflections" ]%string.

Definition projection_methods : list string :=
  [ "DM_AP"; "difference-map_alternating-projections";
    "RAAR"; "relaxed-averaged-alternating-reflections" ]%string.

End Specification.

(* ================================================================= *)
(** ** An instance in exact arithmetic, and example inputs *)

Module Reference.
Local Open Scope R_scope.

Definition exp_1j (t : R) : Cx R := mkC (cos t) (sin t).

(** the indices [(i, j)] of an array of the given shape, row by row *)
Definition grid (shape : nat * nat) : list (nat * nat) :=
  flat_map (fun i => map (pair i) (seq 0 (snd shape))) (seq 0 (fst shape)).

(** the two-dimensional discrete Fourier transform with exponent sign
    [sign] *)
Definition dft2 (sign : R) (shape : nat * nat) (a : list (Cx R))
  : list (Cx R) :=
  map (fun k =>
         csum
           (zip_with
              (fun n z =>
                 cmul z
                   (exp_1j
                      (sign * 2 * PI
                       * (INR (fst k) * INR (fst n) / INR (fst shape)
                          + INR (snd k) * INR (snd n) / INR (snd shape)))))
              (grid shape) a))
      (grid shape).

Definition fft2 (shape : nat * nat) (a : list (Cx R)) : list (Cx R) :=
  dft2 (-1) shape a.
Definition ifft2 (shape : nat * nat) (a : list (Cx R)) : list (Cx R) :=
  map (rcmul (/ INR (fst shape * snd shape))) (dft2 1 shape a).

Definition angle (z : Cx R) : R :=
  let x := re z in
  let y := im z in
  if Rlt_dec 0 x then atan (y / x)
  else if Rlt_dec x 0 then
         if Rle_dec 0 y then atan (y / x) + PI else atan (y / x) - PI
  else if Rlt_dec 0 y then PI / 2
  else if Rlt_dec y 0 then - (PI / 2)
  else 0.

Definition power (x y : R) : R :=
  if Req_dec_T x 0 then 0 else Rpower x y.

(** rounding to the nearest integer, halves to the even one *)
Definition round (x : R) : R :=
  let n := Int_part x in
  let d := frac_part x in
  if Rlt_dec d (1 / 2) then IZR n
  else if Rlt_dec (1 / 2) d then IZR (n + 1)
  else if Z.even n then IZR n else IZR (n + 1).

Definition fftfreq (n i : nat) : R :=
  if (2 * i <? n)%nat then INR i / INR n else (INR i - INR n) / INR n.

(** the Fourier-domain linear phase ramp of the sub-pixel shifter *)
Definition shift (shape : nat * nat) (a : list (Cx R)) (d : R * R)
  : list (Cx R) :=
  ifft2 shape
    (zip_with
       (fun k z =>
          cmul z
            (exp_1j
               (- 2 * PI
                * (fftfreq (fst shape) (fst k) * fst d
                   + fftfreq (snd shape) (snd k) * snd d))))
       (grid shape) (fft2 shape a)).

(** the centroid of an intensity array *)
Definition centroid (shape : nat * nat) (a : list R) : R * R :=
  (fsum (zip_with (fun k v => INR (fst k) * v) (grid shape) a) / fsum a,
   fsum (zip_with (fun k v => INR (snd k) * v) (grid shape) a) / fsum a).

(** contiguous batches of a fixed size *)
Fixpoint batches_from (fuel start num size : nat) : list (nat * nat) :=
  match fuel with
  | O => []
  | S fuel' =>
      if (num <=? start)%nat then []
      else (start, Nat.min (start + size) num)
             :: batches_from fuel' (start + size) num size
  end.
Definition batches (num size : nat) : list (nat * nat) :=
  batches_from num 0 num size.

(** The patch indices of a raster scan along one row with unit step:
    the n-th position is anchored at column n; indices are clipped to
    the object. *)
Definition raster_patch_indices (positions : list (R * R))
  (roi object_shape : nat * nat) : stack nat * stack nat :=
  (map (fun _ =>
          map (fun k => Nat.min (fst k) (fst object_shape - 1)) (grid roi))
       positions,
   map (fun n =>
          map (fun k => Nat.min (n + snd k) (snd object_shape - 1))
              (grid roi))
       (seq 0 (length positions))).

(** One possible outcome of a shuffle: the rotation by one place.  The
    generator state counts the calls. *)
Definition rotate (state : nat) (l : list nat) : list nat * nat :=
  (match l with
   | [] => []
   | x :: l' => l' ++ [x]
   end, S state).

(** The Gaussian filter is left out (the identity, its limit for a
    vanishing width). *)
#[global] Instance externals : Externals R nat := {|
  xp_fft2 := fft2;
  xp_ifft2 := ifft2;
  xp_angle := angle;
  xp_exp_1j := exp_1j;
  xp_exp := exp;
  xp_power := power;
  xp_round := round;
  gaussian_filter_real := fun _ a _ => a;
  gaussian_filter_complex := fun _ a _ => a;
  fft_shift := shift;
  get_CoM := centroid;
  generate_batches := batches;
  vectorized_patch_indices := raster_patch_indices;
  np_random_shuffle := rotate
|}.

(** Two diffraction patterns of shape (1, 2), taken at the positions
    (0, 0) and (0, 1) of an object of shape (1, 3). *)
Definition example : Recon R nat := {|
  _object := [rc 1; rc 1; rc 1];
  _probe := [rc 1; rc 0];
  _positions_px := [(0, 0); (0, 1)];
  _positions_px_fractional := [(0, 0); (0, 0)];
  _vectorized_patch_indices_row := [[0; 0]; [0; 0]]%nat;
  _vectorized_patch_indices_col := [[0; 1]; [1; 2]]%nat;
  _exit_waves := Some None;
  _probe_support_mask := None;
  object_iterations := None;
  probe_iterations := None;
  error_iterations := None;
  object := None;
  probe := None;
  error := None;
  np_random_state := 0%nat;
  _object_initial := [rc 1; rc 1; rc 1];
  _probe_initial := [rc 1; rc 0];
  _positions_px_initial := [(0, 0); (0, 1)];
  _positions_px_com := (0, 1 / 2);
  _amplitudes := [[1; 1]; [1; 1]];
  _mean_diffraction_intensity := 1;
  _num_diffraction_patterns := 2;
  _region_of_interest_shape := (1, 2)%nat;
  _object_shape := (1, 3)%nat;
  _probe_initial_fft_amplitude := [1; 1]
|}.

Definition example_config (method : string) (parameter : R)
  (batch_size : option nat) : Config R := {|
  reset := None;
  max_iter := 1;
  step_size := 9 / 10;
  positions_step_size := 9 / 10;
  normalization_min := 1 / 100;
  fix_com := true;
  fix_probe_iter := Some 0%nat;
  fix_positions_iter := None;
  alternative_position_correction := false;
  probe_support_relative_radius := 1;
  probe_support_supergaussian_degree := 10;
  fix_probe_fourier_amplitude_iter := Some 0%nat;
  pure_phase_object_iter := Some 0%nat;
  gaussian_blur_sigma := None;
  gaussian_blur_iter := None;
  progress_bar := true;
  store_iterations := true;
  reconstruction_method := method;
  reconstruction_parameter := parameter;
  max_batch_size := batch_size
|}.

(** The selected scheme for gradient descent with the step size of
    [example_config]. *)
Definition gradient_descent : Scheme R :=
  mkScheme false None None None (Some (9 / 10)) None.

(** The example after everything that [reconstruct] does before its main
    loop on a first run that stores its iterations. *)
Definition initialised : Recon R nat :=
  set__probe_support_mask (Some (probe_support_mask (1, 2)%nat 1 10))
    (set__exit_waves (Some None)
       (set_error_iterations (Some [])
          (set_probe_iterations (Some [])
             (set_object_iterations (Some []) example)))).

End Reference.

(** A single position whose shifted probe vanishes everywhere, on an
    object of shape (1, 2): both object pixels are covered by this one
    position.  The values are built from the backend's constants, so the
    same input is read in exact arithmetic and in IEEE arithmetic. *)
Module Degenerate.
Section Backend.
Context {F : Type} {NF : Num F}.
Local Open Scope num_scope.

Definition shifted_probes : stack (Cx F) := [[rc 0; rc 0]].
Definition object_patches : stack (Cx F) := [[rc 1; rc 1]].
Definition exit_waves : stack (Cx F) := [[rc 1; rc 1]].
Definition current_object : list (Cx F) := [rc 1; rc 1].
Definition current_probe : list (Cx F) := [rc 0; rc 0].
(** the default [normalization_min = 1e-2] *)
Definition normalization_min_default : F := 1 / of_nat 100.
Definition step_size_half : F := 1 / 2.

Definition state : Recon F unit := {|
  _object := current_object;
  _probe := current_probe;
  _positions_px := [(0, 0)];
  _positions_px_fractional := [(0, 0)];
  _vectorized_patch_indices_row := [[0; 0]]%nat;
  _vectorized_patch_indices_col := [[0; 1]]%nat;
  _exit_waves := Some None;
  _probe_support_mask := None;
  object_iterations := None;
  probe_iterations := None;
  error_iterations := None;
  object := None;
  probe := None;
  error := None;
  np_random_state := tt;
  _object_initial := current_object;
  _probe_initial := current_probe;
  _positions_px_initial := [(0, 0)];
  _positions_px_com := (0, 0);
  _amplitudes := [[1; 1]];
  _mean_diffraction_intensity := 1;
  _num_diffraction_patterns := 1;
  _region_of_interest_shape := (1, 2)%nat;
  _object_shape := (1, 2)%nat;
  _probe_initial_fft_amplitude := [0; 0]
|}.

End Backend.

(** Which parts of the new object are NaN (IEEE arithmetic). *)
Definition nan_parts (r : outcome (list (Cx float) * list (Cx float)))
  : outcome (list (bool * bool)) :=
  obind r (fun r =>
    Ok (map (fun z => (PrimFloat.is_nan (re z), PrimFloat.is_nan (im z)))
            (fst r))).

(** Which reciprocals are infinite (IEEE arithmetic). *)
Definition infinite_reciprocals (d : outcome (list float))
  : outcome (list bool) :=
  obind d (fun d =>
    Ok (map (fun x => PrimFloat.is_infinity (PrimFloat.div 1%float x)) d)).

End Degenerate.

(* ================================================================= *)
(** ** Properties that hold for every numeric backend *)

(** Positions at which rounding shows: the reference centroid (0.1, 0.2)
    and the two positions (0.1, 1/3) and (0.7, 0.2).  The values are built
    from the backend's constants, so the same input is read in exact
    arithmetic and in IEEE arithmetic. *)
Module Rounding.
Section Backend.
Context {F : Type} {NF : Num F}.
Local Open Scope num_scope.

Definition reference : F * F := (1 / of_nat 10, 1 / of_nat 5).
Definition positions : list (F * F) :=
  [(1 / of_nat 10, 1 / of_nat 3); (of_nat 7 / of_nat 10, 1 / of_nat 5)].

End Backend.

(** Which coordinates of two position arrays are equal (IEEE
    arithmetic). *)
Definition agree (a b : list (float * float)) : list (bool * bool) :=
  zip_with
    (fun p q =>
       (PrimFloat.eqb (fst p) (fst q), PrimFloat.eqb (snd p) (snd q)))
    a b.

End Rounding.

(** The library at NaN (IEEE arithmetic).  IEEE 754 propagates NaN, and so
    do the library functions: [xp.angle] of a NaN is NaN and
    [xp.exp(1j * t)] of a NaN is [nan + nan j].  Only these two values are
    used below, on an object whose pixels are NaN; the other library
    functions are not called there.  Every field returns NaN (the array
    functions an array of NaN of the length of their argument, the index
    functions nothing), so the record says nothing about the library at
    other arguments. *)
Module NotANumber.

Definition nan_j : Cx float := mkC PrimFloat.nan PrimFloat.nan.

Definition library : Externals float unit := {|
  xp_fft2 := fun _ a => map (fun _ => nan_j) a;
  xp_ifft2 := fun _ a => map (fun _ => nan_j) a;
  xp_angle := fun _ => PrimFloat.nan;
  xp_exp_1j := fun _ => nan_j;
  xp_exp := fun _ => PrimFloat.nan;
  xp_power := fun _ _ => PrimFloat.nan;
  xp_round := fun _ => PrimFloat.nan;
  gaussian_filter_real := fun _ a _ => map (fun _ => PrimFloat.nan) a;
  gaussian_filter_complex := fun _ a _ => map (fun _ => nan_j) a;
  fft_shift := fun _ a _ => map (fun _ => nan_j) a;
  get_CoM := fun _ _ => (PrimFloat.nan, PrimFloat.nan);
  generate_batches := fun _ _ => [];
  vectorized_patch_indices := fun _ _ _ => ([], []);
  np_random_shuffle := fun state l => (l, state)
|}.

(** [|z| <= 1] (IEEE arithmetic: false when [|z|] is NaN). *)
Definition amplitude_at_most_one (z : Cx float) : bool :=
  PrimFloat.leb (cabs z) 1.

(** Whether the two parts of each pixel are NaN. *)
Definition nan_pixels (o : list (Cx float)) : list (bool * bool) :=
  map (fun z => (PrimFloat.is_nan (re z), PrimFloat.is_nan (im z))) o.

End NotANumber.

(** Further example inputs. *)
Module Examples.
Local Open Scope R_scope.

(** [Reference.example_config] with other values of [reset], [max_iter]
    and [store_iterations]. *)
Definition configure (reset_ : option bool) (iterations : nat) (store : bool)
  (method : string) (parameter : R) (batch_size : option nat) : Config R :=
  let cfg := Reference.example_config method parameter batch_size in
  mkConfig reset_ iterations (step_size cfg) (positions_step_size cfg)
    (normalization_min cfg) (fix_com cfg) (fix_probe_iter cfg)
    (fix_positions_iter cfg) (alternative_position_correction cfg)
    (probe_support_relative_radius cfg)
    (probe_support_supergaussian_degree cfg)
    (fix_probe_fourier_amplitude_iter cfg) (pure_phase_object_iter cfg)
    (gaussian_blur_sigma cfg) (gaussian_blur_iter cfg) (progress_bar cfg)
    store method parameter batch_size.

(** [Reference.example_config] for gradient descent in batches of one
    pattern, with the constraint on the positions applied from the first
    iteration on ([fix_positions_iter = 0]). *)
Definition free_positions : Config R :=
  let cfg := Reference.example_config "GD" 1 (Some 1%nat) in
  mkConfig (reset cfg) (max_iter cfg) (step_size cfg)
    (positions_step_size cfg) (normalization_min cfg) (fix_com cfg)
    (fix_probe_iter cfg) (Some 0%nat) (alternative_position_correction cfg)
    (probe_support_relative_radius cfg)
    (probe_support_supergaussian_degree cfg)
    (fix_probe_fourier_amplitude_iter cfg) (pure_phase_object_iter cfg)
    (gaussian_blur_sigma cfg) (gaussian_blur_iter cfg) (progress_bar cfg)
    (store_iterations cfg) (reconstruction_method cfg)
    (reconstruction_parameter cfg) (max_batch_size cfg).

(** [Reference.example_config] for gradient descent in batches of one
    pattern, with the probe kept fixed during the first iteration
    ([fix_probe_iter = 1]). *)
Definition fixed_probe : Config R :=
  let cfg := Reference.example_config "GD" 1 (Some 1%nat) in
  mkConfig (reset cfg) (max_iter cfg) (step_size cfg)
    (positions_step_size cfg) (normalization_min cfg) (fix_com cfg)
    (Some 1%nat) (fix_positions_iter cfg)
    (alternative_position_correction cfg)
    (probe_support_relative_radius cfg)
    (probe_support_supergaussian_degree cfg)
    (fix_probe_fourier_amplitude_iter cfg) (pure_phase_object_iter cfg)
    (gaussian_blur_sigma cfg) (gaussian_blur_iter cfg) (progress_bar cfg)
    (store_iterations cfg) (reconstruction_method cfg)
    (reconstruction_parameter cfg) (max_batch_size cfg).

(** One diffraction pattern of a single pixel, whose measured amplitude
    is the Fourier amplitude of the overlap. *)
Definition single_pixel : Recon R nat :=
  mkRecon [rc 1] [rc 1] [(0, 0)] [(0, 0)] [[0%nat]] [[0%nat]] (Some None)
    None None None None None None None 0%nat [rc 1] [rc 1] [(0, 0)] (0, 0)
    [[1]] 1 1%nat (1, 1)%nat (1, 1)%nat [1].

End Examples.

(* ================================================================= *)
(** ** Vocabulary of the statements *)

Section Vocabulary.
Context {F : Type} {Rng : Type}.

Definition is_ok {A : Type} (o : outcome A) : bool :=
  match o with
  | Ok _ => true
  | Raise _ => false
  end.

(** A method keeps the attribute read by [get] when it returns (normally
    or by an exception) with that attribute as it found it. *)
Definition keeps {X A : Type} (get : Recon F Rng -> X) (c : M F Rng A)
  : Prop :=
  forall self, get (snd (c self)) = get self.

(** The attributes that hold the working positions and what is derived
    from them, replaced by arbitrary values. *)
Definition with_working_positions (positions fractional_part : list (F * F))
  (rows cols : stack nat) (self : Recon F Rng) : Recon F Rng :=
  set__positions_px positions
    (set__positions_px_fractional fractional_part
       (set__vectorized_patch_indices_row rows
          (set__vectorized_patch_indices_col cols self))).

(** The batch size of a run: the argument [max_batch_size], or the number
    of diffraction patterns when it is [None]. *)
Definition chosen_batch_size (cfg : Config F) (self : Recon F Rng) : nat :=
  match max_batch_size cfg with
  | Some size => size
  | None => _num_diffraction_patterns self
  end.

End Vocabulary.

Section FurtherVocabulary.
Context {F : Type} {NF : Num F} {Rng : Type} {E : Externals F Rng}.

(** The attributes that a previous reconstruction leaves behind, replaced
    by arbitrary values. *)
Definition with_previous_reconstruction (o p : list (Cx F))
  (ew : option (option (stack (Cx F)))) (positions frac : list (F * F))
  (rows cols : stack nat) (self : Recon F Rng) : Recon F Rng :=
  set__object o
    (set__probe p
       (set__exit_waves ew
          (with_working_positions positions frac rows cols self))).

(** The three lists of stored iterations. *)
Definition stored_iterations (self : Recon F Rng)
  : option (list (list (Cx F))) * option (list (list (Cx F)))
    * option (list F) :=
  (object_iterations self, probe_iterations self, error_iterations self).

(** The working positions are [w], and the fractional positions and the
    patch indices are the ones computed from [w]. *)
Definition positions_are (w : list (F * F)) (self : Recon F Rng) : Prop :=
  _positions_px self = w
  /\ _positions_px_fractional self = fractional w
  /\ (_vectorized_patch_indices_row self, _vectorized_patch_indices_col self)
     = vectorized_patch_indices w (_region_of_interest_shape self)
         (_object_shape self).

(** The exceptions of a run whose configuration was accepted: an index
    outside an array, a missing attribute, the maximum of an empty
    array. *)
Definition data_error (e : exn) : Prop :=
  match e with
  | IndexError | AttributeError _ | ValueError _ => True
  | TypeError | UnboundLocalError _ => False
  end.

(** A scheme as [select_method] builds it: the three projection
    coefficients for a projection-set method, the step size otherwise. *)
Definition well_formed_scheme (sch : Scheme F) : Prop :=
  if use_projection_scheme sch then
    exists a b c,
      projection_a sch = Some a /\ projection_b sch = Some b
      /\ projection_c sch = Some c
  else exists step, scheme_step_size sch = Some step.

(** The amplitude that the threshold constraint gives to the pixel [z]:
    [1.0] in pure-phase mode, [xp.minimum(xp.abs(z), 1.0)] otherwise. *)
Definition threshold_amplitude_of (pure_phase_object : bool) (z : Cx F) : F :=
  (if pure_phase_object then 1 else fmin (cabs z) 1)%num.

End FurtherVocabulary.

(** Every element of a complex array is [0j] (exact arithmetic). *)
Definition vanishes (l : list (Cx R)) : Prop :=
  Forall (fun z => z = rc 0%R) l.

Unset Implicit Arguments.

Section Properties.
Context {F : Type} {NF : Num F} {Rng : Type} {E : Externals F Rng}.
Local Open Scope num_scope.

Implicit Types (self : Recon F Rng) (cfg : Config F) (sch : Scheme F).

(** *** Fourier projections *)

(** C1.  For every amplitudes array, overlap array, previous exit wave
    (possibly absent) and scalars (a, b, c), the exit wave returned by
    the projection-sets Fourier projection is
    x·exit_wave_prev + a·overlap + b·projected with x = 1 − a − b,
    projected the inverse FFT of amplitudes times the unit phase of
    FFT(c·overlap + (1 − c)·exit_wave_prev), and exit_wave_prev the
    overlap when no previous exit wave exists.  The scalars that
    [reconstruct] derives from the reconstruction parameter alpha are
    a = −alpha, b = 1, c = 1 + alpha for DM_AP and a = 1 − 2·alpha,
    b = alpha, c = 2 for RAAR, under either name of each method. *)
Theorem projection_sets_fourier_projection_formula :
  (forall self amplitudes overlap exit_waves a b c,
      fst (_projection_sets_fourier_projection self amplitudes overlap
             exit_waves a b c)
      = spec_projection_sets_exit_wave (_region_of_interest_shape self)
          amplitudes overlap exit_waves a b c)
  /\ (forall alpha step,
         let dm_ap :=
           mkScheme true (Some (- alpha)) (Some 1) (Some (1 + alpha))
             None (Some alpha) in
         select_method "DM_AP" alpha step = Ok dm_ap
         /\ select_method "difference-map_alternating-projections" alpha step
            = Ok dm_ap)
  /\ (forall alpha step,
         let raar :=
           mkScheme true (Some (1 - 2 * alpha)) (Some alpha) (Some 2)
             None (Some alpha) in
         select_method "RAAR" alpha step = Ok raar
         /\ select_method "relaxed-averaged-alternating-reflections" alpha step
            = Ok raar).
Proof.
  split; [| split].
  - intros self amplitudes overlap exit_waves a b c.
    unfold _projection_sets_fourier_projection,
      spec_projection_sets_exit_wave, spec_fourier_project.
    destruct exit_waves as [w |]; reflexivity.
  - intros alpha step; split; reflexivity.
  - intros alpha step; split; reflexivity.
Qed.

(** C2.  The gradient-descent Fourier projection, with F = FFT(overlap),
    returns error = mean(|amplitudes − |F||²) / reference_intensity (the
    stored mean diffraction intensity) and
    exit_wave_new = IFFT(amplitudes · exp(i·angle(F))) − overlap: the
    difference between the amplitude-corrected wave and the overlap, not
    the corrected wave. *)
Theorem gradient_descent_fourier_projection_formula :
  forall self amplitudes overlap exit_waves,
    _gradient_descent_fourier_projection self amplitudes overlap exit_waves
    = (szip_with csub
         (stack_ifft2 (_region_of_interest_shape self)
            (szip_with rcmul amplitudes
               (smap (fun f => xp_exp_1j (xp_angle f))
                  (stack_fft2 (_region_of_interest_shape self) overlap))))
         overlap,
       spec_error (_region_of_interest_shape self)
         (_mean_diffraction_intensity self) amplitudes overlap).
Proof.
  intros self amplitudes overlap exit_waves.
  reflexivity.
Qed.

(** C5.  The error returned by the projection-sets Fourier projection
    equals the error returned by the gradient-descent Fourier
    projection on the same amplitudes and overlap, whatever the previous
    exit waves and the scalars (a, b, c) are: both are
    mean(|amplitudes − |FFT(overlap)||²) / reference_intensity. *)
Theorem fourier_projection_errors_agree :
  forall self amplitudes overlap exit_waves exit_waves' a b c,
    snd (_projection_sets_fourier_projection self amplitudes overlap
           exit_waves a b c)
    = snd (_gradient_descent_fourier_projection self amplitudes overlap
             exit_waves')
    /\ snd (_projection_sets_fourier_projection self amplitudes overlap
              exit_waves a b c)
       = spec_error (_region_of_interest_shape self)
           (_mean_diffraction_intensity self) amplitudes overlap.
Proof.
  intros self amplitudes overlap exit_waves exit_waves' a b c.
  split; reflexivity.
Qed.

(** *** Configuration errors *)

Lemma bind_raise {A B : Type} (c : M F Rng A) (k : A -> M F Rng B) self e self' :
  c self = (Raise e, self') -> bind c k self = (Raise e, self').
Proof. intros H; unfold bind; rewrite H; reflexivity. Qed.

Lemma bind_ok {A B : Type} (c : M F Rng A) (k : A -> M F Rng B) self a self' :
  c self = (Ok a, self') -> bind c k self = k a self'.
Proof. intros H; unfold bind; rewrite H; reflexivity. Qed.

Lemma prelude_parameter_error cfg self :
  (reconstruction_parameter cfg <? 0) = true
  \/ (1 <? reconstruction_parameter cfg) = true ->
  prelude cfg self
  = (Raise (ValueError "reconstruction_parameter must be between 0-1."), self).
Proof.
  intros H.
  unfold prelude.
  apply bind_raise.
  destruct H as [H | H]; rewrite H; [| rewrite orb_true_r]; reflexivity.
Qed.

Lemma select_method_unknown m alpha step :
  ~ In m accepted_methods ->
  exists msg, select_method m alpha step = Raise (ValueError msg).
Proof.
  intros H.
  unfold select_method.
  assert (Hne : forall n, In n accepted_methods -> (m =? n)%string = false).
  { intros n Hn. apply String.eqb_neq. intros ->. exact (H Hn). }
  rewrite !Hne by (simpl; tauto).
  simpl. eexists. reflexivity.
Qed.

Lemma select_method_projection m alpha step :
  In m projection_methods ->
  exists sch, select_method m alpha step = Ok sch
              /\ use_projection_scheme sch = true.
Proof.
  intros H. simpl in H.
  destruct H as [<- | [<- | [<- | [<- | []]]]];
    eexists; split; reflexivity.
Qed.

Lemma prelude_method_error cfg self :
  ~ In (reconstruction_method cfg) accepted_methods ->
  exists msg, prelude cfg self = (Raise (ValueError msg), self).
Proof.
  intros H.
  destruct ((reconstruction_parameter cfg <? 0)
            || (1 <? reconstruction_parameter cfg)) eqn:Hp.
  - eexists. apply prelude_parameter_error.
    apply orb_true_iff. exact Hp.
  - destruct (select_method_unknown _ (reconstruction_parameter cfg)
                (step_size cfg) H) as [msg Hm].
    exists msg.
    unfold prelude. rewrite Hp.
    unfold bind at 1. unfold ret at 1.
    apply bind_raise. unfold lift, read. rewrite Hm. reflexivity.
Qed.

Lemma prelude_batching_error cfg self :
  max_batch_size cfg <> None ->
  In (reconstruction_method cfg) projection_methods ->
  exists msg, prelude cfg self = (Raise (ValueError msg), self).
Proof.
  intros Hb H.
  destruct ((reconstruction_parameter cfg <? 0)
            || (1 <? reconstruction_parameter cfg)) eqn:Hp.
  - eexists. apply prelude_parameter_error.
    apply orb_true_iff. exact Hp.
  - destruct (select_method_projection _ (reconstruction_parameter cfg)
                (step_size cfg) H) as (sch & Hm & Hs).
    destruct (max_batch_size cfg) as [size |] eqn:Hsize; [| contradiction].
    eexists.
    unfold prelude. rewrite Hp.
    unfold bind at 1. unfold ret at 1.
    unfold bind at 1. unfold lift at 1, read at 1. rewrite Hm.
    unfold bind at 1. unfold read at 1.
    apply bind_raise. unfold lift, read, batching.
    rewrite Hsize, Hs. reflexivity.
Qed.

(** C3.  If the reconstruction parameter lies outside [0, 1], or the
    method is none of the six accepted names, or a batch size is given
    together with a projection scheme (DM_AP or RAAR), then
    [reconstruct] raises a ValueError before any iteration runs, and
    every attribute of the reconstruction object (object, probe,
    positions, exit waves, ...) is left as it was. *)
Theorem reconstruct_configuration_error cfg self :
  ((reconstruction_parameter cfg <? 0) = true
   \/ (1 <? reconstruction_parameter cfg) = true)
  \/ ~ In (reconstruction_method cfg) accepted_methods
  \/ (max_batch_size cfg <> None
      /\ In (reconstruction_method cfg) projection_methods) ->
  exists msg, reconstruct cfg self = (Raise (ValueError msg), self).
Proof.
  intros [H | [H | [Hb H]]].
  - eexists. unfold reconstruct. apply bind_raise.
    apply prelude_parameter_error. exact H.
  - destruct (prelude_method_error cfg self H) as [msg Hm].
    exists msg. unfold reconstruct. apply bind_raise. exact Hm.
  - destruct (prelude_batching_error cfg self Hb H) as [msg Hm].
    exists msg. unfold reconstruct. apply bind_raise. exact Hm.
Qed.

(** C10.  [reconstruct] tests the reconstruction parameter against
    [0, 1] before it looks at the method: whatever the method is, a
    parameter below 0 or above 1 raises the ValueError of the parameter
    test with no attribute changed; this includes gradient descent,
    which does not use the parameter and sets it to [None]. *)
Theorem reconstruct_parameter_checked_first cfg self :
  (reconstruction_parameter cfg <? 0) = true
  \/ (1 <? reconstruction_parameter cfg) = true ->
  reconstruct cfg self
  = (Raise (ValueError "reconstruction_parameter must be between 0-1."), self)
  /\ (forall alpha step,
         select_method "GD" alpha step
         = Ok (mkScheme false None None None (Some step) None)
         /\ select_method "gradient-descent" alpha step
            = Ok (mkScheme false None None None (Some step) None)).
Proof.
  intros H. split.
  - unfold reconstruct. apply bind_raise.
    apply prelude_parameter_error. exact H.
  - intros alpha step. split; reflexivity.
Qed.

(** *** Composition of methods *)

Lemma bind_inv {A B : Type} (c : M F Rng A) (k : A -> M F Rng B) self b self'' :
  bind c k self = (Ok b, self'') ->
  exists a self', c self = (Ok a, self') /\ k a self' = (Ok b, self'').
Proof.
  unfold bind. intros H.
  destruct (c self) as [[a | e] self'].
  - exists a, self'. split; [reflexivity | exact H].
  - discriminate H.
Qed.

Lemma for_each_app {X A : Type} (body : X -> A -> M F Rng A) (l m : list X) :
  forall acc self,
    for_each body (l ++ m) acc self
    = bind (for_each body l acc) (for_each body m) self.
Proof.
  induction l as [| x l IH]; intros acc self; simpl.
  - reflexivity.
  - unfold bind.
    destruct (body x acc self) as [[a | e] self']; [| reflexivity].
    rewrite IH. unfold bind. reflexivity.
Qed.

(** *** Attributes that a method leaves alone *)

Section Frame.
Context {X : Type} (get : Recon F Rng -> X).

Lemma keeps_ret {A : Type} (a : A) : keeps get (ret a).
Proof. intros self. reflexivity. Qed.

Lemma keeps_raise {A : Type} (e : exn) : keeps get (raise (A := A) e).
Proof. intros self. reflexivity. Qed.

Lemma keeps_read {A : Type} (f : Recon F Rng -> outcome A) :
  keeps get (read f).
Proof. intros self. reflexivity. Qed.

Lemma keeps_lift {A : Type} (c : outcome A) : keeps get (lift c).
Proof. intros self. reflexivity. Qed.

Lemma keeps_assign (f : Recon F Rng -> Recon F Rng) :
  (forall self, get (f self) = get self) -> keeps get (assign f).
Proof. intros H self. apply H. Qed.

Lemma keeps_bind {A B : Type} (c : M F Rng A) (k : A -> M F Rng B) :
  keeps get c -> (forall a, keeps get (k a)) -> keeps get (bind c k).
Proof.
  intros Hc Hk self. unfold bind.
  specialize (Hc self).
  destruct (c self) as [[a | e] self']; simpl in Hc.
  - rewrite Hk. exact Hc.
  - exact Hc.
Qed.

Lemma keeps_for_each {Y A : Type} (body : Y -> A -> M F Rng A) (l : list Y) :
  (forall y acc, keeps get (body y acc)) ->
  forall acc, keeps get (for_each body l acc).
Proof.
  intros H. induction l as [| y l IH]; intros acc; simpl.
  - apply keeps_ret.
  - apply keeps_bind; [apply H | exact IH].
Qed.

End Frame.

Section Snapshot.
Context {X : Type} (get : Recon F Rng -> X).
(** [get] is an attribute without assignment in [reconstruct]: each
    assigned attribute is changed through its own [set_] function. *)
Hypothesis get_set__object : forall v self, get (set__object v self) = get self.
Hypothesis get_set__probe : forall v self, get (set__probe v self) = get self.
Hypothesis get_set__positions_px :
  forall v self, get (set__positions_px v self) = get self.
Hypothesis get_set__positions_px_fractional :
  forall v self, get (set__positions_px_fractional v self) = get self.
Hypothesis get_set__vectorized_patch_indices_row :
  forall v self, get (set__vectorized_patch_indices_row v self) = get self.
Hypothesis get_set__vectorized_patch_indices_col :
  forall v self, get (set__vectorized_patch_indices_col v self) = get self.
Hypothesis get_set__exit_waves :
  forall v self, get (set__exit_waves v self) = get self.
Hypothesis get_set__probe_support_mask :
  forall v self, get (set__probe_support_mask v self) = get self.
Hypothesis get_set_object_iterations :
  forall v self, get (set_object_iterations v self) = get self.
Hypothesis get_set_probe_iterations :
  forall v self, get (set_probe_iterations v self) = get self.
Hypothesis get_set_error_iterations :
  forall v self, get (set_error_iterations v self) = get self.
Hypothesis get_set_object : forall v self, get (set_object v self) = get self.
Hypothesis get_set_probe : forall v self, get (set_probe v self) = get self.
Hypothesis get_set_error : forall v self, get (set_error v self) = get self.
Hypothesis get_set_np_random_state :
  forall v self, get (set_np_random_state v self) = get self.

Ltac untouched :=
  repeat first
    [ rewrite get_set__object | rewrite get_set__probe
    | rewrite get_set__positions_px | rewrite get_set__positions_px_fractional
    | rewrite get_set__vectorized_patch_indices_row
    | rewrite get_set__vectorized_patch_indices_col
    | rewrite get_set__exit_waves | rewrite get_set__probe_support_mask
    | rewrite get_set_object_iterations | rewrite get_set_probe_iterations
    | rewrite get_set_error_iterations | rewrite get_set_object
    | rewrite get_set_probe | rewrite get_set_error
    | rewrite get_set_np_random_state ];
  try reflexivity.

Ltac frame :=
  repeat
    lazymatch goal with
    | |- keeps _ (bind _ _) => apply keeps_bind; [| intros ?]
    | |- keeps _ (ret _) => apply keeps_ret
    | |- keeps _ (raise _) => apply keeps_raise
    | |- keeps _ (read _) => apply keeps_read
    | |- keeps _ (lift _) => apply keeps_lift
    | |- keeps _ (assign _) => apply keeps_assign; intros ?; untouched
    | |- keeps _ (match ?x with _ => _ end) => destruct x
    end.

Lemma keeps__set_vectorized_patch_indices :
  keeps get _set_vectorized_patch_indices.
Proof.
  unfold _set_vectorized_patch_indices.
  apply keeps_assign. intros self.
  destruct (vectorized_patch_indices _ _ _) as [rows cols].
  untouched.
Qed.

Lemma keeps__positions_center_of_mass_constraint current_positions :
  keeps get (_positions_center_of_mass_constraint current_positions).
Proof.
  unfold _positions_center_of_mass_constraint.
  frame. apply keeps__set_vectorized_patch_indices.
Qed.

Lemma keeps__constraints o p pos pure sigma fc fa fp :
  keeps get (_constraints o p pos pure sigma fc fa fp).
Proof.
  unfold _constraints.
  frame. apply keeps__positions_center_of_mass_constraint.
Qed.

Lemma keeps_batch_indices idx start end_ :
  keeps get (batch_indices idx start end_).
Proof.
  unfold batch_indices.
  frame. apply keeps__set_vectorized_patch_indices.
Qed.

Lemma keeps_batch cfg sch a0 idx b err :
  keeps get (batch cfg sch a0 idx b err).
Proof.
  unfold batch, batch_forward, batch_adjoint, batch_constraints.
  frame.
  - apply keeps_batch_indices.
  - apply keeps__constraints.
Qed.

Lemma keeps_iteration cfg sch mb a0 locals :
  keeps get (iteration cfg sch mb a0 locals).
Proof.
  unfold iteration, randomize, store_iteration.
  frame.
  apply keeps_for_each. intros y acc. apply keeps_batch.
Qed.

Lemma keeps_prelude cfg : keeps get (prelude cfg).
Proof.
  unfold prelude, initialization.
  frame; apply keeps__set_vectorized_patch_indices.
Qed.

Lemma keeps_reconstruct cfg : keeps get (reconstruct cfg).
Proof.
  unfold reconstruct, store_result.
  frame.
  - apply keeps_prelude.
  - apply keeps_for_each. intros y acc. apply keeps_iteration.
Qed.

End Snapshot.

(** *** The working positions of a batch *)

Lemma batch_indices_positions idx start end_ self initial :
  take_indices (_positions_px_initial self) idx = Ok initial ->
  _positions_px (snd (batch_indices idx start end_ self))
  = slice start end_ initial
  /\ _positions_px_fractional (snd (batch_indices idx start end_ self))
     = fractional (slice start end_ initial).
Proof.
  intros H.
  unfold batch_indices, bind, read, assign, _set_vectorized_patch_indices, ret.
  rewrite H. cbn.
  destruct (vectorized_patch_indices _ _ _) as [rows cols]. cbn.
  destruct (take_indices (_amplitudes self) idx); cbn; split; reflexivity.
Qed.

Lemma batch_indices_forgets idx start end_ self initial p f r c :
  take_indices (_positions_px_initial self) idx = Ok initial ->
  batch_indices idx start end_ (with_working_positions p f r c self)
  = batch_indices idx start end_ self.
Proof.
  intros H.
  unfold batch_indices, bind, read, assign, _set_vectorized_patch_indices, ret.
  change (_positions_px_initial (with_working_positions p f r c self))
    with (_positions_px_initial self).
  rewrite H.
  reflexivity.
Qed.

(** C7.  At the start of every batch the working positions are set to
    the slice [start:end] of the (possibly shuffled) snapshot of the
    positions taken at preprocessing, and the fractional positions and
    patch indices are recomputed from them.  Whatever an earlier batch or
    iteration left in the working positions (the centre-of-mass constraint
    writes there) has no effect on the batch, and no batch, iteration or
    run writes to the snapshot. *)
Theorem working_positions_recomputed_each_batch
  cfg sch a0 idx bounds err self initial :
  take_indices (_positions_px_initial self) idx = Ok initial ->
  _positions_px (snd (batch_indices idx (fst bounds) (snd bounds) self))
  = slice (fst bounds) (snd bounds) initial
  /\ (forall positions fractional_part rows cols,
         batch cfg sch a0 idx bounds err
           (with_working_positions positions fractional_part rows cols self)
         = batch cfg sch a0 idx bounds err self)
  /\ keeps _positions_px_initial (batch cfg sch a0 idx bounds err)
  /\ (forall mb locals,
         keeps _positions_px_initial (iteration cfg sch mb a0 locals))
  /\ keeps _positions_px_initial (reconstruct cfg).
Proof.
  intros H. split; [| split; [| split; [| split]]].
  - apply (batch_indices_positions idx _ _ self initial H).
  - intros p f r c. unfold batch.
    unfold bind at 1 5.
    rewrite (batch_indices_forgets idx _ _ self initial p f r c H).
    reflexivity.
  - apply keeps_batch; intros; reflexivity.
  - intros mb locals. apply keeps_iteration; intros; reflexivity.
  - apply keeps_reconstruct; intros; reflexivity.
Qed.

(** *** The error that an iteration records *)

Lemma read_inv {A : Type} (f : Recon F Rng -> outcome A) self a self' :
  read f self = (Ok a, self') -> f self = Ok a /\ self' = self.
Proof. unfold read. intros H. inversion H. split; reflexivity. Qed.

Lemma assign_inv (f : Recon F Rng -> Recon F Rng) self u self' :
  assign f self = (Ok u, self') -> self' = f self.
Proof. unfold assign. intros H. inversion H. reflexivity. Qed.

Lemma ret_inv {A : Type} (a b : A) self self' :
  ret a self = (Ok b, self') -> b = a /\ self' = self.
Proof. unfold ret. intros H. inversion H. split; reflexivity. Qed.

Lemma batch_returns_forward_error cfg sch a0 idx bounds err self r self' :
  batch cfg sch a0 idx bounds err self = (Ok r, self') ->
  exists amplitudes s_indices shifted_probes object_patches exit_waves e
         s_forward,
    batch_indices idx (fst bounds) (snd bounds) self
    = (Ok amplitudes, s_indices)
    /\ batch_forward sch amplitudes s_indices
       = (Ok (shifted_probes, object_patches, exit_waves, e), s_forward)
    /\ r = Some e.
Proof.
  unfold batch. intros H.
  apply bind_inv in H as (amplitudes & s1 & Hi & H).
  apply bind_inv in H as ([[[sp op] ew] e] & s2 & Hf & H).
  apply bind_inv in H as (u1 & s3 & Ha & H).
  apply bind_inv in H as (u2 & s4 & Hc & H).
  apply ret_inv in H as [-> ->].
  exists amplitudes, s1, sp, op, ew, e, s2.
  repeat split; assumption.
Qed.

Lemma store_iteration_appends err self u self' :
  store_iteration err self = (Ok u, self') ->
  exists e es,
    err = Some e
    /\ error_iterations self = Some es
    /\ error_iterations self' = Some (es ++ [e])%list.
Proof.
  unfold store_iteration. intros H.
  apply bind_inv in H as (s & s0 & Hs & H). apply read_inv in Hs as [Hs ->].
  inversion Hs; subst s; clear Hs.
  apply bind_inv in H as (l1 & s1 & H1 & H).
  apply read_inv in H1 as [H1 ->].
  apply bind_inv in H as (u1 & s2 & H2 & H). apply assign_inv in H2 as ->.
  apply bind_inv in H as (l2 & s3 & H3 & H).
  apply read_inv in H3 as [H3 ->].
  apply bind_inv in H as (u2 & s4 & H4 & H). apply assign_inv in H4 as ->.
  apply bind_inv in H as (l3 & s5 & H5 & H).
  apply read_inv in H5 as [H5 ->].
  apply assign_inv in H as ->.
  destruct err as [e |]; [| discriminate H5].
  cbn in H5. unfold append, attribute in H5.
  destruct (error_iterations self) as [es |]; [| discriminate H5].
  cbn in H5. inversion H5; subst l3.
  exists e, es. repeat split; reflexivity.
Qed.

Lemma store_result_error err self u self' :
  store_result err self = (Ok u, self') ->
  exists e, err = Some e /\ error self' = Some e.
Proof.
  unfold store_result. intros H.
  apply bind_inv in H as (u1 & s1 & H1 & H). apply assign_inv in H1 as ->.
  apply bind_inv in H as (u2 & s2 & H2 & H). apply assign_inv in H2 as ->.
  apply bind_inv in H as (e & s3 & H3 & H).
  apply read_inv in H3 as [H3 ->].
  apply assign_inv in H as ->.
  destruct err as [e' |]; [| discriminate H3].
  inversion H3; subst e'. exists e. split; reflexivity.
Qed.

Lemma keeps_randomize {X : Type} (get : Recon F Rng -> X) mb idx :
  (forall v self, get (set_np_random_state v self) = get self) ->
  keeps get (randomize mb idx).
Proof.
  intros Hg. unfold randomize.
  apply keeps_bind; [apply keeps_read |]. intros num.
  destruct (mb <? num)%nat; [| apply keeps_ret].
  apply keeps_bind; [apply keeps_read |]. intros state.
  destruct (np_random_shuffle state idx) as [shuffled state'].
  apply keeps_bind; [| intros; apply keeps_ret].
  apply keeps_assign. intros self. apply Hg.
Qed.

Lemma keeps_num_for_each_iteration cfg sch mb l locals :
  keeps _num_diffraction_patterns (for_each (iteration cfg sch mb) l locals).
Proof.
  apply keeps_for_each. intros a0 acc.
  apply keeps_iteration; intros; reflexivity.
Qed.

Lemma prelude_batch_size cfg self sch mb s_init :
  prelude cfg self = (Ok (sch, mb), s_init) ->
  mb = chosen_batch_size cfg self
  /\ _num_diffraction_patterns s_init = _num_diffraction_patterns self.
Proof.
  intros H. split.
  - unfold prelude in H.
    apply bind_inv in H as (u & s1 & H1 & H).
    assert (s1 = self) as ->.
    { destruct (_ || _);
        [discriminate H1 | apply ret_inv in H1 as [_ ->]; reflexivity]. }
    apply bind_inv in H as (sch' & s2 & H2 & H).
    apply read_inv in H2 as [H2 ->].
    apply bind_inv in H as (num & s3 & H3 & H).
    apply read_inv in H3 as [H3 ->]. inversion H3; subst num; clear H3.
    apply bind_inv in H as (mb' & s4 & H4 & H).
    apply read_inv in H4 as [H4 ->].
    apply bind_inv in H as (u1 & s5 & H5 & H).
    apply bind_inv in H as (u2 & s6 & H6 & H).
    apply ret_inv in H as [Heq _]. inversion Heq; subst sch' mb'; clear Heq.
    unfold batching, chosen_batch_size in *.
    destruct (max_batch_size cfg) as [size |].
    + destruct (use_projection_scheme sch); inversion H4; reflexivity.
    + inversion H4; reflexivity.
  - assert (K : keeps _num_diffraction_patterns (prelude cfg))
      by (apply keeps_prelude; intros; reflexivity).
    specialize (K self).
    rewrite H in K. exact K.
Qed.

Lemma seq_last (k : nat) : seq 0 (S k) = (seq 0 k ++ [k])%list.
Proof. rewrite seq_S. reflexivity. Qed.

(** C6.  When an iteration runs its batches (the last one being
    [bounds]), the value of [error] that the iteration ends with, and that
    it appends to [error_iterations] when iterations are stored, is the
    error that the forward operator returned for that last batch; the
    errors of the earlier batches of the iteration do not enter it.  The
    scalar [error] that [reconstruct] stores after the loop is the error
    of the last batch of the last iteration. *)
Theorem recorded_error_is_last_batch_error :
  (forall cfg sch mb a0 locals self idx' err' s_end bs bounds,
      generate_batches (_num_diffraction_patterns self) mb
      = (bs ++ [bounds])%list ->
      iteration cfg sch mb a0 locals self = (Ok (idx', err'), s_end) ->
      exists s0 e_mid s1 amplitudes s_indices shifted_probes object_patches
             exit_waves e s_forward s2,
        randomize mb (fst locals) self = (Ok idx', s0)
        /\ for_each (batch cfg sch a0 idx') bs (snd locals) s0 = (Ok e_mid, s1)
        /\ batch_indices idx' (fst bounds) (snd bounds) s1
           = (Ok amplitudes, s_indices)
        /\ batch_forward sch amplitudes s_indices
           = (Ok (shifted_probes, object_patches, exit_waves, e), s_forward)
        /\ batch cfg sch a0 idx' bounds e_mid s1 = (Ok (Some e), s2)
        /\ err' = Some e
        /\ (store_iterations cfg = true ->
            exists es, error_iterations s2 = Some es
                       /\ error_iterations s_end = Some (es ++ [e])%list)
        /\ (store_iterations cfg = false -> s_end = s2))
  /\ (forall cfg self s_end k bs bounds,
         max_iter cfg = S k ->
         generate_batches (_num_diffraction_patterns self)
           (chosen_batch_size cfg self) = (bs ++ [bounds])%list ->
         reconstruct cfg self = (Ok tt, s_end) ->
         exists sch s_init locals s_k idx' s0 e_mid s1 e s2,
           prelude cfg self = (Ok (sch, chosen_batch_size cfg self), s_init)
           /\ for_each (iteration cfg sch (chosen_batch_size cfg self))
                (seq 0 k) (seq 0 (_num_diffraction_patterns self), None)
                s_init
              = (Ok locals, s_k)
           /\ randomize (chosen_batch_size cfg self) (fst locals) s_k
              = (Ok idx', s0)
           /\ for_each (batch cfg sch k idx') bs (snd locals) s0
              = (Ok e_mid, s1)
           /\ batch cfg sch k idx' bounds e_mid s1 = (Ok (Some e), s2)
           /\ error s_end = Some e).
Proof.
  assert (per_iteration :
    forall cfg sch mb a0 locals self idx' err' s_end bs bounds,
      generate_batches (_num_diffraction_patterns self) mb
      = (bs ++ [bounds])%list ->
      iteration cfg sch mb a0 locals self = (Ok (idx', err'), s_end) ->
      exists s0 e_mid s1 amplitudes s_indices shifted_probes object_patches
             exit_waves e s_forward s2,
        randomize mb (fst locals) self = (Ok idx', s0)
        /\ for_each (batch cfg sch a0 idx') bs (snd locals) s0 = (Ok e_mid, s1)
        /\ batch_indices idx' (fst bounds) (snd bounds) s1
           = (Ok amplitudes, s_indices)
        /\ batch_forward sch amplitudes s_indices
           = (Ok (shifted_probes, object_patches, exit_waves, e), s_forward)
        /\ batch cfg sch a0 idx' bounds e_mid s1 = (Ok (Some e), s2)
        /\ err' = Some e
        /\ (store_iterations cfg = true ->
            exists es, error_iterations s2 = Some es
                       /\ error_iterations s_end = Some (es ++ [e])%list)
        /\ (store_iterations cfg = false -> s_end = s2)).
  { intros cfg sch mb a0 locals self idx' err' s_end bs b Hb H.
    unfold iteration in H.
    apply bind_inv in H as (idx & s0 & Hr & H).
    apply bind_inv in H as (num & s0' & Hn & H).
    apply read_inv in Hn as [Hn ->]. inversion Hn; subst num; clear Hn.
    assert (Hnum : _num_diffraction_patterns s0
                   = _num_diffraction_patterns self).
    { pose proof (keeps_randomize _num_diffraction_patterns mb (fst locals)
                    (fun _ _ => eq_refl) self) as K.
      rewrite Hr in K. exact K. }
    rewrite Hnum, Hb in H.
    apply bind_inv in H as (err & s2 & Hf & H).
    apply bind_inv in H as (u & s3 & Hs & H).
    apply ret_inv in H as [Heq ->]. inversion Heq; subst idx' err'; clear Heq.
    rewrite for_each_app in Hf.
    apply bind_inv in Hf as (e_mid & s1 & Hbs & Hl).
    simpl in Hl.
    apply bind_inv in Hl as (r & s2' & Hlast & Hl).
    apply ret_inv in Hl as [-> ->].
    destruct (batch_returns_forward_error _ _ _ _ _ _ _ _ _ Hlast)
      as (am & si & sp & op & ew & e & sf & Hi & Hfw & ->).
    exists s0, e_mid, s1, am, si, sp, op, ew, e, sf, s2'.
    repeat split; try assumption.
    - intros Hst. rewrite Hst in Hs.
      destruct (store_iteration_appends _ _ _ _ Hs)
        as (e' & es & He & Hes & Hend).
      inversion He; subst e'. exists es. split; assumption.
    - intros Hst. rewrite Hst in Hs.
      apply ret_inv in Hs as [_ ->]. reflexivity. }
  split; [exact per_iteration |].
  intros cfg self s_end k bs b Hk Hb H. unfold reconstruct in H.
  apply bind_inv in H as ([sch mb] & s_init & Hp & H).
  destruct (prelude_batch_size _ _ _ _ _ Hp) as [-> Hnum].
  apply bind_inv in H as (num & s' & Hn & H).
  apply read_inv in Hn as [Hn ->]. inversion Hn; subst num; clear Hn.
  rewrite Hnum in H.
  apply bind_inv in H as (final & s_loop & Hl & H).
  rewrite Hk, seq_last, for_each_app in Hl.
  apply bind_inv in Hl as (locals & s_k & Hfirst & Hl).
  simpl in Hl.
  apply bind_inv in Hl as ([idx' err'] & s_it & Hit & Hl).
  apply ret_inv in Hl as [-> ->].
  assert (Hnk : _num_diffraction_patterns s_k
                = _num_diffraction_patterns self).
  { pose proof (keeps_num_for_each_iteration cfg sch
                  (chosen_batch_size cfg self) (seq 0 k)
                  (seq 0 (_num_diffraction_patterns self), None) s_init) as K.
    rewrite Hfirst in K. simpl in K. rewrite K. exact Hnum. }
  rewrite <- Hnk in Hb.
  destruct (per_iteration _ _ _ _ _ _ _ _ _ _ _ Hb Hit)
    as (s0 & e_mid & s1 & am & si & sp & op & ew & e & sf & s2
        & Hr & Hbs & _ & _ & Hlast & -> & _).
  destruct (store_result_error _ _ _ _ H) as (e' & He & Herr).
  simpl in He. inversion He; subst e'.
  exists sch, s_init, locals, s_k, idx', s0, e_mid, s1, e, s2.
  repeat split; assumption.
Qed.

End Properties.

(* ================================================================= *)
(** ** What the threshold constraint returns *)

Section Threshold.
Context {F : Type} {NF : Num F} {Rng : Type} {E : Externals F Rng}.
Local Open Scope num_scope.

Lemma threshold_formula (current_object : list (Cx F))
  (pure_phase_object : bool) :
  _object_threshold_constraint current_object pure_phase_object
  = map (fun z =>
           rcmul (threshold_amplitude_of pure_phase_object z)
             (xp_exp_1j (xp_angle z)))
        current_object.
Proof.
  unfold _object_threshold_constraint, threshold_amplitude_of.
  destruct pure_phase_object.
  - rewrite map_map. reflexivity.
  - induction current_object as [| z l IH]; [reflexivity |].
    cbn [map zip_with]. f_equal. exact IH.
Qed.

Lemma constraints_object
  o p pos pure sigma fc fa fp self o' p' pos' self' :
  _constraints o p pos pure sigma fc fa fp self = (Ok (o', p', pos'), self') ->
  o' = _object_threshold_constraint
         match sigma with
         | Some s => _object_smoothness_constraint self o s pure
         | None => o
         end
         pure.
Proof.
  unfold _constraints. intros H.
  apply bind_inv in H as (s & s0 & Hs & H). apply read_inv in Hs as [Hs ->].
  inversion Hs; subst s; clear Hs.
  apply bind_inv in H as (pr & s1 & H1 & H).
  apply bind_inv in H as (ps & s2 & H2 & H).
  apply ret_inv in H as [Heq _]. inversion Heq; subst. reflexivity.
Qed.

Lemma batch_object cfg sch a0 idx bounds err self r self' :
  batch cfg sch a0 idx bounds err self = (Ok r, self') ->
  exists o,
    _object self'
    = _object_threshold_constraint o (before a0 (pure_phase_object_iter cfg)).
Proof.
  unfold batch. intros H.
  apply bind_inv in H as (amplitudes & s1 & Hi & H).
  apply bind_inv in H as ([[[sp op] ew] e] & s2 & Hf & H).
  apply bind_inv in H as (u1 & s3 & Ha & H).
  apply bind_inv in H as (u2 & s4 & Hc & H).
  apply ret_inv in H as [_ ->].
  unfold batch_constraints in Hc.
  apply bind_inv in Hc as (s & s0 & Hs & Hc).
  apply read_inv in Hs as [Hs ->].
  apply bind_inv in Hc as ([[o' p'] pos'] & s5 & Hcs & Hc).
  apply bind_inv in Hc as (u3 & s6 & H6 & Hc). apply assign_inv in H6 as ->.
  apply bind_inv in Hc as (u4 & s7 & H7 & Hc). apply assign_inv in H7 as ->.
  apply assign_inv in Hc as ->.
  change (_object (set__positions_px pos' (set__probe p' (set__object o' s5))))
    with o'.
  eexists. exact (constraints_object _ _ _ _ _ _ _ _ _ _ _ _ _ Hcs).
Qed.

End Threshold.

(* ================================================================= *)
(** ** Properties in exact arithmetic *)

Section RealArithmetic.
Context {Rng : Type} {E : Externals R Rng}.
Local Open Scope R_scope.

Implicit Types (self : Recon R Rng).

(** the operations of [Rnum], unfolded *)
Ltac real :=
  cbn [fzero fone fadd fsub fmul fdiv fopp fabs fsqrt fltb of_nat f1em9 Rnum]
    in *.

(** *** The centre-of-mass constraint of the positions *)

Lemma fsum_shift (d : R) (l : list R) :
  fsum (map (fun x => x - d) l) = fsum l - INR (length l) * d.
Proof.
  induction l as [| x l IH].
  - simpl. lra.
  - change (fsum (map (fun x0 => x0 - d) (x :: l)))
      with ((x - d) + fsum (map (fun x0 => x0 - d) l)).
    change (fsum (x :: l)) with (x + fsum l).
    rewrite IH. change (length (x :: l)) with (S (length l)).
    rewrite S_INR. lra.
Qed.

Lemma mean_shift (d : R) (l : list R) :
  l <> [] ->
  fsum (map (fun x => x - d) l) / INR (length l) = fsum l / INR (length l) - d.
Proof.
  intros Hl. rewrite fsum_shift.
  assert (INR (length l) <> 0).
  { apply not_0_INR. destruct l; [contradiction | discriminate]. }
  field. assumption.
Qed.

Lemma mean_axis0_recentre (com : R * R) (p : list (R * R)) :
  p <> [] -> mean_axis0 (recentre com p) = com.
Proof.
  intros Hp. unfold recentre, mean_axis0. real.
  rewrite !length_map, !map_map. cbn [fst snd].
  assert (Hx : map fst p <> []) by (destruct p; [contradiction | discriminate]).
  assert (Hy : map snd p <> []) by (destruct p; [contradiction | discriminate]).
  pose proof (mean_shift (fsum (map fst p) / INR (length p) - fst com)
                (map fst p) Hx) as Mx.
  pose proof (mean_shift (fsum (map snd p) / INR (length p) - snd com)
                (map snd p) Hy) as My.
  rewrite map_map, length_map in Mx, My.
  rewrite Mx, My. destruct com as [cx cy]. cbn [fst snd]. f_equal; lra.
Qed.

Lemma recentre_fixed (com : R * R) (p : list (R * R)) :
  mean_axis0 p = com -> recentre com p = p.
Proof.
  intros H. unfold recentre. rewrite H. real.
  rewrite <- (map_id p) at 2. apply map_ext.
  intros [x y]. cbn [fst snd]. f_equal; lra.
Qed.

Lemma recentre_idempotent (com : R * R) (p : list (R * R)) :
  recentre com (recentre com p) = recentre com p.
Proof.
  destruct p as [| q p].
  - reflexivity.
  - apply recentre_fixed. apply mean_axis0_recentre. discriminate.
Qed.

(** C8.  In exact arithmetic and with the reference centroid fixed,
    applying the position
    centre-of-mass constraint twice in succession gives the positions (and
    the fractional positions and patch indices) of a single application:
    after one application the mean position is the reference centroid, so
    the second subtracts zero.  The new positions are those of
    [_positions_center_of_mass_constraint] in [iterative_ptychography.py]
    and in [iterative_constraints.py] alike. *)
Theorem positions_center_of_mass_constraint_idempotent :
  (forall (com : R * R) p, recentre com (recentre com p) = recentre com p)
  /\ (forall (com : R * R) p, p <> [] -> mean_axis0 (recentre com p) = com)
  /\ (forall p self,
         bind (_positions_center_of_mass_constraint p)
              _positions_center_of_mass_constraint self
         = _positions_center_of_mass_constraint p self).
Proof.
  split; [exact recentre_idempotent | split; [exact mean_axis0_recentre |]].
  intros p self.
  unfold _positions_center_of_mass_constraint, bind, read, assign, ret,
    _set_vectorized_patch_indices.
  cbn.
  destruct (vectorized_patch_indices
              (recentre (_positions_px_com self) p) _ _)
    as [rows cols] eqn:Hv.
  cbn. rewrite recentre_idempotent. rewrite Hv. reflexivity.
Qed.

(** *** The amplitude threshold of the object *)

Lemma cabs_nonneg (z : Cx R) : 0 <= cabs z.
Proof. unfold cabs. real. apply sqrt_pos. Qed.

Lemma cabs_rcmul (a : R) (z : Cx R) : cabs (rcmul a z) = Rabs a * cabs z.
Proof.
  unfold rcmul, cmul, rc, cabs. real. cbn [re im].
  replace ((a * re z - 0 * im z) * (a * re z - 0 * im z)
           + (a * im z + 0 * re z) * (a * im z + 0 * re z))
    with (Rsqr a * (re z * re z + im z * im z)) by (unfold Rsqr; ring).
  rewrite sqrt_mult; [| apply Rle_0_sqr | nra].
  rewrite sqrt_Rsqr_abs. reflexivity.
Qed.

Lemma fmin_le_1 (x : R) : 0 <= x -> Rabs (fmin x 1) <= 1.
Proof.
  intros Hx. unfold fmin. real. unfold Rltb.
  destruct (Rlt_dec x 1) as [Hlt | Hge].
  - rewrite Rabs_pos_eq by assumption. lra.
  - rewrite Rabs_R1. lra.
Qed.

Lemma zip_with_map {A B C D : Type} (f : B -> C -> D) (g : A -> B)
  (h : A -> C) (l : list A) :
  zip_with f (map g l) (map h l) = map (fun a => f (g a) (h a)) l.
Proof.
  induction l as [| a l IH]; simpl; [reflexivity | rewrite IH; reflexivity].
Qed.

Section UnitPhase.
(** [exp(1j·t)] has modulus one. *)
Hypothesis exp_1j_unit : forall t : R, cabs (xp_exp_1j t) = 1.

Lemma threshold_bounded (current_object : list (Cx R))
  (pure_phase_object : bool) :
  Forall (fun z => cabs z <= 1)
    (_object_threshold_constraint current_object pure_phase_object).
Proof.
  unfold _object_threshold_constraint.
  destruct pure_phase_object.
  - rewrite map_map. apply Forall_map, Forall_forall. intros z _.
    rewrite cabs_rcmul. unfold unit_phase. rewrite exp_1j_unit. real.
    rewrite Rabs_R1. lra.
  - rewrite zip_with_map. apply Forall_map, Forall_forall. intros z _.
    rewrite cabs_rcmul. unfold unit_phase. rewrite exp_1j_unit.
    pose proof (fmin_le_1 (cabs z) (cabs_nonneg z)). real. lra.
Qed.

Lemma fmin_nonneg (x : R) : 0 <= x -> 0 <= fmin x 1.
Proof.
  intros Hx. unfold fmin. real. unfold Rltb.
  destruct (Rlt_dec x 1); lra.
Qed.

Lemma threshold_amplitude (current_object : list (Cx R))
  (pure_phase_object : bool) :
  map cabs (_object_threshold_constraint current_object pure_phase_object)
  = map (threshold_amplitude_of pure_phase_object) current_object.
Proof.
  rewrite threshold_formula, map_map. apply map_ext. intros z.
  rewrite cabs_rcmul, exp_1j_unit. unfold threshold_amplitude_of.
  destruct pure_phase_object.
  - real. rewrite Rabs_R1. lra.
  - rewrite Rabs_pos_eq by (apply fmin_nonneg, cabs_nonneg). real. lra.
Qed.

End UnitPhase.

End RealArithmetic.

(** C9.  What the threshold constraint returns, for every backend: pixel
    by pixel, [amplitude · exp(1j·angle(object))] with amplitude 1 in
    pure-phase mode and min(|object|, 1) otherwise; [_constraints] applies
    it, whatever its switches are, to the object it was given or to its
    smoothed version; and after every batch that completes, the object
    attribute is such a thresholded array.  In exact arithmetic, where
    [|exp(1j·t)| = 1], the modulus of every returned pixel is that
    amplitude, hence at most 1. *)
Theorem object_amplitude_at_most_one :
  (forall (F : Type) (NF : Num F) (Rng : Type) (E : Externals F Rng),
      (forall (current_object : list (Cx F)) pure_phase_object,
          _object_threshold_constraint current_object pure_phase_object
          = map (fun z =>
                   rcmul (threshold_amplitude_of pure_phase_object z)
                     (xp_exp_1j (xp_angle z)))
                current_object)
      /\ (forall o p pos pure sigma fc fa fp (self : Recon F Rng)
            o' p' pos' self',
             _constraints o p pos pure sigma fc fa fp self
             = (Ok (o', p', pos'), self') ->
             o' = _object_threshold_constraint
                    match sigma with
                    | Some s => _object_smoothness_constraint self o s pure
                    | None => o
                    end
                    pure)
      /\ (forall cfg sch a0 idx bounds err (self : Recon F Rng) r self',
             batch cfg sch a0 idx bounds err self = (Ok r, self') ->
             exists o,
               _object self'
               = _object_threshold_constraint o
                   (before a0 (pure_phase_object_iter cfg))))
  /\ (forall (Rng : Type) (E : Externals R Rng),
         (forall t : R, cabs (xp_exp_1j t) = 1%R) ->
         forall (current_object : list (Cx R)) pure_phase_object,
           map cabs
             (_object_threshold_constraint current_object pure_phase_object)
           = map (threshold_amplitude_of pure_phase_object) current_object
           /\ Forall (fun z => (cabs z <= 1)%R)
                (_object_threshold_constraint current_object
                   pure_phase_object)).
Proof.
  split.
  - intros F NF Rng E. split; [| split].
    + exact threshold_formula.
    + exact constraints_object.
    + exact batch_object.
  - intros Rng E Hunit o pure. split.
    + exact (threshold_amplitude Hunit o pure).
    + exact (threshold_bounded Hunit o pure).
Qed.

(* ================================================================= *)
(** ** The normalization of the adjoint operators *)

Section RealAdjoint.
Context {Rng : Type}.
Local Open Scope R_scope.

Implicit Types (self : Recon R Rng).

Ltac real :=
  cbn [fzero fone fadd fsub fmul fdiv fopp fabs fsqrt fltb of_nat f1em9 Rnum]
    in *.

Lemma scatter_add_nonneg (npix : nat) (entries : list (nat * R)) :
  (forall e, In e entries -> 0 <= snd e) ->
  Forall (fun x => 0 <= x) (scatter_add 0 Rplus npix entries).
Proof.
  intros H. unfold scatter_add. apply Forall_map, Forall_forall.
  intros pix _.
  induction entries as [| e entries IH]; simpl.
  - lra.
  - assert (0 <= snd e) by (apply H; left; reflexivity).
    assert (0 <= fold_right
               (fun (e0 : nat * R) acc =>
                  if (fst e0 =? pix)%nat then snd e0 + acc else acc)
               0 entries)
      by (apply IH; intros e' He'; apply H; right; exact He').
    destruct (fst e =? pix)%nat; lra.
Qed.

Lemma zip_with_add_nonneg (l m : list R) :
  Forall (fun x => 0 <= x) l -> Forall (fun x => 0 <= x) m ->
  Forall (fun x => 0 <= x) (zip_with Rplus l m).
Proof.
  intros Hl. revert m.
  induction Hl as [| x l Hx Hl IH]; intros m Hm; simpl.
  - constructor.
  - destruct Hm as [| y m Hy Hm]; constructor.
    + lra.
    + apply IH. exact Hm.
Qed.

Lemma fsum_axis0_nonneg (n : nat) (a : stack R) :
  (forall row x, In row a -> In x row -> 0 <= x) ->
  Forall (fun x => 0 <= x) (fsum_axis0 n a).
Proof.
  intros H. unfold fsum_axis0.
  induction a as [| row a IH]; simpl.
  - apply Forall_forall. intros x Hx. apply repeat_spec in Hx. subst x.
    real. lra.
  - apply zip_with_add_nonneg.
    + apply Forall_forall. intros x Hx.
      apply (H row x); [left; reflexivity | exact Hx].
    + apply IH. intros r x Hr Hx. apply (H r x); [right; exact Hr | exact Hx].
Qed.

Lemma weight_nonneg (nmin m : R) (p : Cx R) :
  0 <= nmin <= 1 -> 0 <= nmin * sq (cabs p) + (1 - nmin) * sq m.
Proof.
  intros [H0 H1]. unfold sq. real.
  assert (0 <= cabs p * cabs p) by nra.
  assert (0 <= m * m) by nra.
  nra.
Qed.

Lemma in_smap_concat {A B : Type} (f : A -> B) (a : stack A) (y : B) :
  In y (concat (smap f a)) -> exists x, y = f x.
Proof.
  intros H. apply in_concat in H as (row & Hrow & Hy).
  unfold smap in Hrow. apply in_map_iff in Hrow as (r & <- & _).
  apply in_map_iff in Hy as (x & <- & _). exists x. reflexivity.
Qed.

(** X14.  In exact arithmetic and for [normalization_min] in [0, 1], the
    quantities that [_gradient_descent_adjoint] divides by, for the object
    update and for the probe update, are at least the additive floor
    [1e-9]: it never divides by zero. *)
Lemma gradient_descent_denominators_positive
  self (nmin : R) (shifted_probes object_patches : stack (Cx R)) :
  0 <= nmin <= 1 ->
  (forall d,
      gradient_descent_probe_denominator self nmin shifted_probes = Ok d ->
      Forall (fun x => 1 / 1000000000 <= x) d)
  /\ (forall d,
         gradient_descent_object_denominator self nmin object_patches = Ok d ->
         Forall (fun x => 1 / 1000000000 <= x) d).
Proof.
  intros Hn. split; intros d H.
  - unfold gradient_descent_probe_denominator in H.
    destruct (xp_max _) as [m |]; [| discriminate H].
    cbn in H. inversion H; subst d; clear H.
    apply Forall_map.
    eapply Forall_impl;
      [| apply scatter_add_nonneg
           with (npix := (fst (_object_shape self)
                          * snd (_object_shape self))%nat)].
    + intros x Hx. real. lra.
    + intros [i v] He. cbn [snd]. apply in_combine_r in He.
      apply in_smap_concat in He as (p & ->). apply weight_nonneg. exact Hn.
  - unfold gradient_descent_object_denominator in H.
    destruct (xp_max _) as [m |]; [| discriminate H].
    cbn in H. inversion H; subst d; clear H.
    apply Forall_map.
    eapply Forall_impl; [| apply fsum_axis0_nonneg].
    + intros x Hx. real. lra.
    + intros row x Hrow Hx. unfold smap in Hrow.
      apply in_map_iff in Hrow as (r & <- & _).
      apply in_map_iff in Hx as (p & <- & _). apply weight_nonneg. exact Hn.
Qed.

Lemma cabs_zero : cabs (rc (F := R) 0) = 0.
Proof.
  unfold cabs, rc. real. cbn [re im].
  replace (0 * 0 + 0 * 0) with 0 by ring. apply sqrt_0.
Qed.

End RealAdjoint.

(** C4.  The input is a batch of one position whose shifted probe is 0
    everywhere and that alone covers both pixels of the object.  In
    [_projection_sets_adjoint] the quantity that divides the object update
    is exactly zero, for every [normalization_min]; in IEEE arithmetic its
    reciprocal is infinite and the new object is NaN at both pixels.  On
    the same input the denominator of [_gradient_descent_adjoint] is the
    floor [1e-9], and its new object has no NaN. *)
Theorem projection_sets_adjoint_divides_by_zero :
  (forall nmin : R,
      projection_sets_probe_denominator Degenerate.state nmin
        Degenerate.shifted_probes
      = Ok [0; 0]%R)
  /\ Degenerate.infinite_reciprocals
       (projection_sets_probe_denominator Degenerate.state
          Degenerate.normalization_min_default Degenerate.shifted_probes)
     = Ok [true; true]
  /\ Degenerate.nan_parts
       (_projection_sets_adjoint Degenerate.state
          Degenerate.current_object Degenerate.current_probe
          Degenerate.object_patches Degenerate.shifted_probes
          Degenerate.exit_waves Degenerate.normalization_min_default true)
     = Ok [(true, true); (true, true)]
  /\ (forall nmin : R,
         gradient_descent_probe_denominator Degenerate.state nmin
           Degenerate.shifted_probes
         = Ok [1 / 1000000000; 1 / 1000000000]%R)
  /\ Degenerate.nan_parts
       (_gradient_descent_adjoint Degenerate.state
          Degenerate.current_object Degenerate.current_probe
          Degenerate.object_patches Degenerate.shifted_probes
          Degenerate.exit_waves (Some Degenerate.step_size_half)
          Degenerate.normalization_min_default true)
     = Ok [(false, false); (false, false)].
Proof.
  split; [| split; [| split; [| split]]].
  - intros nmin.
    unfold projection_sets_probe_denominator,
      _sum_overlapping_patches_bincounts, Degenerate.shifted_probes.
    cbn -[cabs rc sq]. rewrite !cabs_zero. unfold sq, fmax.
    cbn [fzero fone fadd fsub fmul fsqrt fltb Rnum].
    replace (0 * 0 + 0)%R with 0%R by ring.
    assert (Hm : (if Rltb 0 0 then 0 else 0)%R = 0%R)
      by (destruct (Rltb 0 0); reflexivity).
    rewrite Hm.
    replace (0 * 0 + nmin * 0 * (nmin * 0))%R with 0%R by ring.
    rewrite sqrt_0. reflexivity.
  - vm_compute. reflexivity.
  - vm_compute. reflexivity.
  - intros nmin.
    unfold gradient_descent_probe_denominator,
      _sum_overlapping_patches_bincounts, Degenerate.shifted_probes.
    cbn -[cabs rc sq]. rewrite !cabs_zero. unfold sq, fmax.
    cbn [fzero fone fadd fsub fmul fdiv fsqrt fltb f1em9 Rnum].
    assert (Hm : (if Rltb 0 0 then 0 else 0)%R = 0%R)
      by (destruct (Rltb 0 0); reflexivity).
    rewrite Hm.
    replace (1 / 1000000000 + (nmin * (0 * 0) + (1 - nmin) * (0 * 0) + 0))%R
      with (1 / 1000000000)%R by ring.
    reflexivity.
  - vm_compute. reflexivity.
Qed.

(* ================================================================= *)
(** ** The statements at the example inputs *)

Lemma Rltb_true (a b : R) : (a < b)%R -> Rltb a b = true.
Proof. intros H. unfold Rltb. destruct (Rlt_dec a b); [reflexivity | contradiction]. Qed.

Lemma Rltb_false (a b : R) : (b <= a)%R -> Rltb a b = false.
Proof. intros H. unfold Rltb. destruct (Rlt_dec a b); [lra | reflexivity]. Qed.

Lemma exp_1j_unit (t : R) : cabs (Reference.exp_1j t) = 1%R.
Proof.
  unfold cabs, Reference.exp_1j. cbn.
  replace (cos t * cos t + sin t * sin t)%R with 1%R.
  - apply sqrt_1.
  - pose proof (sin2_cos2 t) as H. unfold Rsqr in H. lra.
Qed.

Lemma example_prelude :
  prelude (Reference.example_config "GD" 1 (Some 1)) Reference.example
  = (Ok (Reference.gradient_descent, 1), Reference.initialised).
Proof.
  unfold prelude.
  change (reconstruction_parameter (Reference.example_config "GD" 1 (Some 1)))
    with 1%R.
  cbn [fltb fzero fone Rnum].
  rewrite (Rltb_false 1 0) by lra.
  rewrite (Rltb_false 1 1) by lra.
  reflexivity.
Qed.

Lemma example_batch_ok :
  is_ok (fst (batch (Reference.example_config "GD" 1 (Some 1))
                Reference.gradient_descent 0 [0; 1] (0, 1) None
                Reference.initialised))
  = true.
Proof. vm_compute. reflexivity. Qed.

Lemma example_iteration_ok :
  is_ok (fst (iteration (Reference.example_config "GD" 1 (Some 1))
                Reference.gradient_descent 1 0 ([0; 1], None)
                Reference.initialised))
  = true.
Proof. vm_compute. reflexivity. Qed.

Lemma example_run_ok :
  is_ok (fst (reconstruct (Reference.example_config "GD" 1 (Some 1))
                Reference.example))
  = true.
Proof.
  unfold reconstruct.
  rewrite (bind_ok _ _ _ _ _ example_prelude).
  vm_compute. reflexivity.
Qed.

Lemma reconstruct_configuration_error_witness :
  (exists msg,
      reconstruct (Reference.example_config "GD" 2 None) Reference.example
      = (Raise (ValueError msg), Reference.example))
  /\ (exists msg,
         reconstruct (Reference.example_config "gradient_descent" 1 None)
           Reference.example
         = (Raise (ValueError msg), Reference.example))
  /\ (exists msg,
         reconstruct (Reference.example_config "RAAR" 1 (Some 1))
           Reference.example
         = (Raise (ValueError msg), Reference.example)).
Proof.
  split; [| split].
  - apply (reconstruct_configuration_error
             (Reference.example_config "GD" 2 None) Reference.example).
    left. right. apply Rltb_true. cbn. lra.
  - apply (reconstruct_configuration_error
             (Reference.example_config "gradient_descent" 1 None)
             Reference.example).
    right. left. simpl. intuition discriminate.
  - apply (reconstruct_configuration_error
             (Reference.example_config "RAAR" 1 (Some 1)) Reference.example).
    right. right. split; [discriminate | simpl; tauto].
Defined.

Lemma reconstruct_parameter_checked_first_witness :
  reconstruct (Reference.example_config "GD" (-1 / 2) None) Reference.example
  = (Raise (ValueError "reconstruction_parameter must be between 0-1."),
     Reference.example).
Proof.
  apply (reconstruct_parameter_checked_first
           (Reference.example_config "GD" (-1 / 2) None) Reference.example).
  left. apply Rltb_true. cbn. lra.
Defined.

Lemma recorded_error_is_last_batch_error_witness :
  (exists idx e s_end es,
      iteration (Reference.example_config "GD" 1 (Some 1))
        Reference.gradient_descent 1 0 ([0; 1], None) Reference.initialised
      = (Ok (idx, Some e), s_end)
      /\ error_iterations s_end = Some (es ++ [e]))
  /\ (exists e s_end,
         reconstruct (Reference.example_config "GD" 1 (Some 1))
           Reference.example
         = (Ok tt, s_end)
         /\ error s_end = Some e).
Proof.
  split.
  - destruct (iteration (Reference.example_config "GD" 1 (Some 1))
                Reference.gradient_descent 1 0 ([0; 1], None)
                Reference.initialised)
      as [[[idx err] | x] s_end] eqn:Hrun.
    + destruct (proj1 (recorded_error_is_last_batch_error
                         (E := Reference.externals))
                  (Reference.example_config "GD" 1 (Some 1))
                  Reference.gradient_descent 1 0 ([0; 1], None)
                  Reference.initialised idx err s_end [(0, 1)] (1, 2)
                  eq_refl Hrun)
        as (s0 & e_mid & s1 & am & si & sp & op & ew & e & sf & s2
            & _ & _ & _ & _ & _ & Herr & Hstore & _).
      destruct (Hstore eq_refl) as (es & _ & Hend).
      exists idx, e, s_end, es. rewrite Herr. split; [reflexivity | exact Hend].
    + exfalso. pose proof example_iteration_ok as Hok.
      rewrite Hrun in Hok. discriminate Hok.
  - destruct (reconstruct (Reference.example_config "GD" 1 (Some 1))
                Reference.example)
      as [[[] | x] s_end] eqn:Hrun.
    + destruct (proj2 (recorded_error_is_last_batch_error
                         (E := Reference.externals))
                  (Reference.example_config "GD" 1 (Some 1))
                  Reference.example s_end 0 [(0, 1)] (1, 2)
                  eq_refl eq_refl Hrun)
        as (sch & s_init & locals & s_k & idx & s0 & e_mid & s1 & e & s2
            & _ & _ & _ & _ & _ & Herr).
      exists e, s_end. split; [reflexivity | exact Herr].
    + exfalso. pose proof example_run_ok as Hok.
      rewrite Hrun in Hok. discriminate Hok.
Defined.

Lemma working_positions_recomputed_each_batch_witness :
  _positions_px
    (snd (batch_indices [1; 0] 0 1 Reference.example))
  = slice 0 1 [(0, 1); (0, 0)]%R.
Proof.
  exact (proj1 (working_positions_recomputed_each_batch
                  (E := Reference.externals)
                  (Reference.example_config "GD" 1 (Some 1))
                  Reference.gradient_descent 0 [1; 0] (0, 1) None
                  Reference.example [(0, 1); (0, 0)]%R eq_refl)).
Defined.

Lemma positions_center_of_mass_constraint_idempotent_witness :
  mean_axis0 (recentre (1, 2)%R [(3, 4); (5, 6)]%R) = (1, 2)%R.
Proof.
  apply (proj1 (proj2 (positions_center_of_mass_constraint_idempotent
                         (E := Reference.externals)))).
  discriminate.
Defined.

Lemma object_amplitude_at_most_one_witness :
  Forall (fun z => (cabs z <= 1)%R)
    (_object
       (snd (batch (Reference.example_config "GD" 1 (Some 1))
               Reference.gradient_descent 0 [0; 1] (0, 1) None
               Reference.initialised))).
Proof.
  destruct (batch (Reference.example_config "GD" 1 (Some 1))
              Reference.gradient_descent 0 [0; 1] (0, 1) None
              Reference.initialised)
    as [[r | x] s'] eqn:Hrun.
  - destruct (proj2 (proj2 (proj1 object_amplitude_at_most_one
                              R Rnum nat Reference.externals))
                _ _ _ _ _ _ _ _ _ Hrun)
      as [o Ho].
    cbn [snd]. rewrite Ho.
    exact (proj2 (proj2 object_amplitude_at_most_one nat
                    Reference.externals exp_1j_unit o _)).
  - exfalso. pose proof example_batch_ok as Hok.
    rewrite Hrun in Hok. discriminate Hok.
Defined.

(** C8 in IEEE arithmetic.  With the reference centroid (0.1, 0.2) and the
    positions (0.1, 1/3) and (0.7, 0.2), the mean after one application is
    not the reference centroid (0.10000000000000005 against 0.1 along the
    first axis), and the second application moves the first coordinate of
    both positions. *)
Lemma positions_center_of_mass_constraint_moves_twice_in_floats :
  Rounding.agree
    (recentre Rounding.reference
       (recentre Rounding.reference Rounding.positions))
    (recentre Rounding.reference Rounding.positions)
  = [(false, true); (false, true)]
  /\ PrimFloat.eqb
       (fst (mean_axis0 (recentre Rounding.reference Rounding.positions)))
       (fst Rounding.reference)
     = false
  /\ recentre (F := float) Rounding.reference
       (recentre Rounding.reference Rounding.positions)
     <> recentre Rounding.reference Rounding.positions.
Proof.
  split; [vm_compute; reflexivity | split; [vm_compute; reflexivity |]].
  intros H.
  pose proof (f_equal
                (fun l =>
                   Rounding.agree l
                     (recentre Rounding.reference Rounding.positions))
                H) as K.
  vm_compute in K. discriminate K.
Qed.

(** C9 in IEEE arithmetic.  On the batch whose shifted probe is 0
    everywhere, [_projection_sets_adjoint] returns an object whose two
    pixels are NaN; the threshold constraint in pure-phase mode,
    [1.0 * exp(1j * angle(object))], returns NaN pixels again, and the
    test [|object| <= 1] fails at both. *)
Lemma object_amplitude_not_bounded_at_nan :
  obind
    (_projection_sets_adjoint Degenerate.state Degenerate.current_object
       Degenerate.current_probe Degenerate.object_patches
       Degenerate.shifted_probes Degenerate.exit_waves
       Degenerate.normalization_min_default true)
    (fun r =>
       let constrained :=
         _object_threshold_constraint (E := NotANumber.library) (fst r)
           true in
       Ok (NotANumber.nan_pixels (fst r),
           NotANumber.nan_pixels constrained,
           map NotANumber.amplitude_at_most_one constrained))
  = Ok ([(true, true); (true, true)],
        [(true, true); (true, true)],
        [false; false]).
Proof. vm_compute. reflexivity. Qed.

(* ================================================================= *)
(** ** Further properties of the reconstruction loop *)

Section MoreProperties.
Context {F : Type} {NF : Num F} {Rng : Type} {E : Externals F Rng}.
Local Open Scope num_scope.
Implicit Types (self : Recon F Rng) (cfg : Config F) (sch : Scheme F).

(** X1.  The section "Reconstruction method" of [reconstruct] accepts
    exactly the six names "DM_AP",
    "difference-map_alternating-projections", "RAAR",
    "relaxed-averaged-alternating-reflections", "GD" and
    "gradient-descent" and raises for every other string.  The scheme is
    a projection-set scheme exactly for the first four; it then has its
    three coefficients and [step_size = None]; for the last two it has
    the caller's step size and the three coefficients are [None]. *)
Theorem select_method_accepts_exactly m (alpha step : F) :
  (In m accepted_methods <-> exists sch, select_method m alpha step = Ok sch)
  /\ (forall sch,
         select_method m alpha step = Ok sch ->
         (use_projection_scheme sch = true <-> In m projection_methods)
         /\ (if use_projection_scheme sch then
               scheme_step_size sch = None
               /\ exists a b c,
                    projection_a sch = Some a /\ projection_b sch = Some b
                    /\ projection_c sch = Some c
             else
               scheme_step_size sch = Some step
               /\ projection_a sch = None /\ projection_b sch = None
               /\ projection_c sch = None)).
Proof.
  assert (projection_case :
    forall (a b c : F) (p : option F),
      In m accepted_methods -> In m projection_methods ->
      (In m accepted_methods
       <-> exists sch, Ok (mkScheme true (Some a) (Some b) (Some c) None p)
                       = Ok sch)
      /\ (forall sch,
             Ok (mkScheme true (Some a) (Some b) (Some c) None p) = Ok sch ->
             (use_projection_scheme sch = true <-> In m projection_methods)
             /\ (if use_projection_scheme sch then
                   scheme_step_size sch = None
                   /\ exists a b c,
                        projection_a sch = Some a /\ projection_b sch = Some b
                        /\ projection_c sch = Some c
                 else
                   scheme_step_size sch = Some step
                   /\ projection_a sch = None /\ projection_b sch = None
                   /\ projection_c sch = None))).
  { intros a b c p Ha Hp. split.
    - split; [intros _; eexists; reflexivity | intros _; exact Ha].
    - intros sch H. inversion H; subst sch; cbn.
      split; [split; [intros _; exact Hp | reflexivity] |].
      split; [reflexivity |]. exists a, b, c. repeat split. }
  unfold select_method.
  destruct (String.eqb_spec m "DM_AP") as [-> | H1].
  { apply projection_case; cbn; auto 10. }
  destruct (String.eqb_spec m "difference-map_alternating-projections")
    as [-> | H2].
  { apply projection_case; cbn; auto 10. }
  destruct (String.eqb_spec m "RAAR") as [-> | H3].
  { apply projection_case; cbn; auto 10. }
  destruct (String.eqb_spec m "relaxed-averaged-alternating-reflections")
    as [-> | H4].
  { apply projection_case; cbn; auto 10. }
  assert (Hnp : ~ In m projection_methods).
  { cbn. intros [H | [H | [H | [H | []]]]]; congruence. }
  cbn [orb].
  destruct ((m =? "GD")%string || (m =? "gradient-descent")%string) eqn:Hgd.
  - assert (Ha : In m accepted_methods).
    { apply orb_true_iff in Hgd as [H | H]; apply String.eqb_eq in H;
        subst m; cbn; auto 10. }
    split.
    + split; [intros _; eexists; reflexivity | intros _; exact Ha].
    + intros sch H. inversion H; subst sch; cbn.
      split; [split; [discriminate | intros H'; contradiction] |].
      repeat split.
  - apply orb_false_iff in Hgd as [H5 H6].
    apply String.eqb_neq in H5, H6.
    split.
    + split.
      * cbn. intros [H | [H | [H | [H | [H | [H | []]]]]]]; congruence.
      * intros [sch H]. discriminate H.
    + intros sch H. discriminate H.
Qed.

Lemma initialization_succeeds cfg self :
  exists self', initialization cfg self = (Ok tt, self').
Proof.
  unfold initialization, bind, read, assign, ret,
    _set_vectorized_patch_indices.
  destruct (store_iterations cfg
            && (match object_iterations self with
                | Some _ => false
                | None => true
                end || truthy (reset cfg)));
    destruct (reset cfg) as [[|] |]; try (eexists; reflexivity).
  - destruct (error _); eexists; reflexivity.
  - destruct (error self); eexists; reflexivity.
Qed.

Lemma select_method_accepted m (alpha step : F) :
  In m accepted_methods ->
  exists sch,
    select_method m alpha step = Ok sch
    /\ (use_projection_scheme sch = true -> In m projection_methods).
Proof.
  intros H. cbn in H.
  destruct H as [<- | [<- | [<- | [<- | [<- | [<- | []]]]]]];
    eexists; (split; [reflexivity |]); cbn; intros H; auto 10; discriminate H.
Qed.

(** X2.  The three tests of [reconstruct] are the only way its
    preparation fails: when the parameter is neither below 0 nor above 1,
    the method is one of the accepted names, and no batch size is given
    or the method is not a projection-set method, everything before the
    main loop succeeds, whatever the state of the object.  The batch size
    is [max_batch_size], or the number of patterns if it is [None], and
    the probe support mask is set. *)
Theorem reconstruct_accepts_valid_configuration cfg self :
  (reconstruction_parameter cfg <? 0) = false ->
  (1 <? reconstruction_parameter cfg) = false ->
  In (reconstruction_method cfg) accepted_methods ->
  (max_batch_size cfg = None
   \/ ~ In (reconstruction_method cfg) projection_methods) ->
  exists sch s_init,
    select_method (reconstruction_method cfg) (reconstruction_parameter cfg)
      (step_size cfg)
    = Ok sch
    /\ prelude cfg self = (Ok (sch, chosen_batch_size cfg self), s_init)
    /\ _probe_support_mask s_init <> None.
Proof.
  intros Hlow Hhigh Hm Hb.
  destruct (select_method_accepted _ (reconstruction_parameter cfg)
              (step_size cfg) Hm) as (sch & Hsel & Hproj).
  assert (Hbatch : batching sch (max_batch_size cfg)
                     (_num_diffraction_patterns self)
                   = Ok (chosen_batch_size cfg self)).
  { unfold batching, chosen_batch_size.
    destruct (max_batch_size cfg) as [size |]; [| reflexivity].
    destruct (use_projection_scheme sch); [| reflexivity].
    destruct Hb as [Hb | Hb]; [discriminate Hb |].
    exfalso. apply Hb, Hproj. reflexivity. }
  destruct (initialization_succeeds cfg self) as [s1 Hs1].
  exists sch. eexists. split; [exact Hsel |].
  unfold prelude. rewrite Hlow, Hhigh. cbn [orb].
  unfold bind at 1. unfold ret at 1.
  unfold bind at 1. unfold lift at 1, read at 1. rewrite Hsel.
  unfold bind at 1. unfold read at 1.
  unfold bind at 1. unfold lift at 1, read at 1. rewrite Hbatch.
  unfold bind at 1. rewrite Hs1.
  unfold bind, assign, ret.
  split; [reflexivity | discriminate].
Qed.

(** X3.  With [max_iter = 0] and an accepted configuration the main loop
    never binds the local variable [error]: [reconstruct] stores
    [self.object] and [self.probe] and then raises [UnboundLocalError] at
    [self.error = error.item()]. *)
Theorem reconstruct_without_iterations cfg self sch mb s_init :
  max_iter cfg = 0%nat ->
  prelude cfg self = (Ok (sch, mb), s_init) ->
  reconstruct cfg self
  = (Raise (UnboundLocalError "error"),
     set_probe (Some (_probe s_init))
       (set_object (Some (_object s_init)) s_init)).
Proof.
  intros Hk Hp. unfold reconstruct.
  rewrite (bind_ok _ _ _ _ _ Hp). rewrite Hk.
  reflexivity.
Qed.

Lemma initialization_reset cfg self :
  reset cfg = Some true ->
  exists s',
    initialization cfg self = (Ok tt, s')
    /\ _object s' = _object_initial self
    /\ _probe s' = _probe_initial self
    /\ _positions_px s' = _positions_px_initial self
    /\ _positions_px_fractional s' = fractional (_positions_px_initial self)
    /\ (_vectorized_patch_indices_row s', _vectorized_patch_indices_col s')
       = vectorized_patch_indices (_positions_px_initial self)
           (_region_of_interest_shape self) (_object_shape self)
    /\ _exit_waves s' = Some None
    /\ forall o p ew positions frac rows cols,
         initialization cfg
           (with_previous_reconstruction o p ew positions frac rows cols self)
         = (Ok tt, s').
Proof.
  intros Hreset.
  destruct (vectorized_patch_indices (_positions_px_initial self)
              (_region_of_interest_shape self) (_object_shape self))
    as [rows cols] eqn:Hv.
  assert (Hlists :
    forall o p ew positions frac rows' cols',
      object_iterations
        (with_previous_reconstruction o p ew positions frac rows' cols' self)
      = object_iterations self) by reflexivity.
  unfold initialization, bind, read, assign, ret,
    _set_vectorized_patch_indices.
  rewrite Hreset.
  destruct (store_iterations cfg
            && (match object_iterations self with
                | Some _ => false
                | None => true
                end || truthy (Some true))) eqn:Hc.
  - eexists. split; [cbn; rewrite Hv; reflexivity |].
    repeat split; try reflexivity.
    intros o p ew positions frac rows' cols'.
    rewrite Hlists, Hc. cbn. rewrite Hv. reflexivity.
  - eexists. split; [cbn; rewrite Hv; reflexivity |].
    repeat split; try reflexivity.
    intros o p ew positions frac rows' cols'.
    rewrite Hlists, Hc. cbn. rewrite Hv. reflexivity.
Qed.

(** X4.  With [reset=True] the preparation of [reconstruct] puts the
    object, probe, positions, fractional positions, patch indices and
    exit waves back to their initial values, and its outcome does not
    depend on what a previous reconstruction left in those
    attributes. *)
Theorem reset_ignores_previous_reconstruction cfg self r s' :
  reset cfg = Some true ->
  prelude cfg self = (Ok r, s') ->
  _object s' = _object_initial self
  /\ _probe s' = _probe_initial self
  /\ _positions_px s' = _positions_px_initial self
  /\ _positions_px_fractional s' = fractional (_positions_px_initial self)
  /\ (_vectorized_patch_indices_row s', _vectorized_patch_indices_col s')
     = vectorized_patch_indices (_positions_px_initial self)
         (_region_of_interest_shape self) (_object_shape self)
  /\ _exit_waves s' = Some None
  /\ forall o p ew positions frac rows cols,
       prelude cfg
         (with_previous_reconstruction o p ew positions frac rows cols self)
       = (Ok r, s').
Proof.
  intros Hreset H.
  destruct (initialization_reset cfg self Hreset)
    as (s1 & Hi & Ho & Hp & Hpos & Hfrac & Hidx & Hew & Hindep).
  unfold prelude in H.
  apply bind_inv in H as (u0 & s0 & Hcheck & H).
  destruct ((reconstruction_parameter cfg <? 0)
            || (1 <? reconstruction_parameter cfg)) eqn:Hc;
    [discriminate Hcheck |].
  apply ret_inv in Hcheck as [_ ->].
  apply bind_inv in H as (sch & s2 & Hsel & H).
  apply read_inv in Hsel as [Hsel ->].
  apply bind_inv in H as (num & s3 & Hnum & H).
  apply read_inv in Hnum as [Hnum ->]. inversion Hnum; subst num; clear Hnum.
  apply bind_inv in H as (mb & s4 & Hbatch & H).
  apply read_inv in Hbatch as [Hbatch ->].
  apply bind_inv in H as (u1 & s5 & Hinit & H).
  rewrite Hi in Hinit. inversion Hinit; subst u1 s5; clear Hinit.
  apply bind_inv in H as (u2 & s6 & Hmask & H).
  apply assign_inv in Hmask as ->.
  apply ret_inv in H as [-> ->].
  repeat split; try assumption.
  intros o p ew positions frac rows cols.
  unfold prelude. rewrite Hc.
  unfold bind at 1. unfold ret at 1.
  unfold bind at 1. unfold lift at 1, read at 1. rewrite Hsel.
  unfold bind at 1. unfold read at 1.
  unfold bind at 1. unfold lift at 1, read at 1.
  change (_num_diffraction_patterns
            (with_previous_reconstruction o p ew positions frac rows cols self))
    with (_num_diffraction_patterns self).
  rewrite Hbatch.
  unfold bind at 1. rewrite Hindep.
  reflexivity.
Qed.

(** *** The stored iterations *)

Ltac frame_by tac :=
  repeat
    lazymatch goal with
    | |- keeps _ (bind _ _) => apply keeps_bind; [| intros ?]
    | |- keeps _ (ret _) => apply keeps_ret
    | |- keeps _ (raise _) => apply keeps_raise
    | |- keeps _ (read _) => apply keeps_read
    | |- keeps _ (lift _) => apply keeps_lift
    | |- keeps _ (assign _) => apply keeps_assign; intros ?; reflexivity
    | |- keeps _ (match ?x with _ => _ end) => destruct x
    | |- _ => tac
    end.

Lemma keeps_stored_iterations_batch cfg sch a0 idx b err :
  keeps stored_iterations (batch cfg sch a0 idx b err).
Proof. apply keeps_batch; intros; reflexivity. Qed.

Lemma keeps_stored_iterations_randomize mb idx :
  keeps stored_iterations (randomize mb idx).
Proof. apply keeps_randomize; intros; reflexivity. Qed.

Lemma keeps_stored_iterations_set_indices :
  keeps stored_iterations _set_vectorized_patch_indices.
Proof. apply keeps__set_vectorized_patch_indices; intros; reflexivity. Qed.

(** X5.  With [store_iterations=False] a call of [reconstruct], whether
    it returns or raises, leaves [object_iterations], [probe_iterations]
    and [error_iterations] as they were (missing attributes stay
    missing). *)
Theorem reconstruct_without_storing_keeps_history cfg :
  store_iterations cfg = false ->
  keeps stored_iterations (reconstruct cfg).
Proof.
  intros Hstore.
  unfold reconstruct, prelude, initialization, iteration, store_result.
  rewrite Hstore. cbn [andb].
  frame_by fail.
  - apply keeps_stored_iterations_set_indices.
  - apply keeps_for_each. intros a0 locals.
    frame_by fail.
    + apply keeps_stored_iterations_randomize.
    + apply keeps_for_each. intros b err.
      apply keeps_stored_iterations_batch.
Qed.

Lemma store_iteration_history err self u self' :
  store_iteration err self = (Ok u, self') ->
  exists os ps es e,
    object_iterations self = Some os
    /\ probe_iterations self = Some ps
    /\ error_iterations self = Some es
    /\ err = Some e
    /\ object_iterations self' = Some (os ++ [_object self'])%list
    /\ probe_iterations self' = Some (ps ++ [_probe self'])%list
    /\ error_iterations self' = Some (es ++ [e])%list.
Proof.
  unfold store_iteration. intros H.
  apply bind_inv in H as (s & s0 & Hs & H). apply read_inv in Hs as [Hs ->].
  inversion Hs; subst s; clear Hs.
  apply bind_inv in H as (l1 & s1 & H1 & H).
  apply read_inv in H1 as [H1 ->].
  apply bind_inv in H as (u1 & s2 & H2 & H). apply assign_inv in H2 as ->.
  apply bind_inv in H as (l2 & s3 & H3 & H).
  apply read_inv in H3 as [H3 ->].
  apply bind_inv in H as (u2 & s4 & H4 & H). apply assign_inv in H4 as ->.
  apply bind_inv in H as (l3 & s5 & H5 & H).
  apply read_inv in H5 as [H5 ->].
  apply assign_inv in H as ->.
  unfold append, attribute in H1, H3, H5.
  destruct (object_iterations self) as [os |]; [| discriminate H1].
  destruct (probe_iterations self) as [ps |]; [| discriminate H3].
  destruct err as [e |]; [| discriminate H5].
  destruct (error_iterations self) as [es |]; [| discriminate H5].
  cbn in H1, H3, H5.
  inversion H1; subst l1. inversion H3; subst l2. inversion H5; subst l3.
  exists os, ps, es, e. repeat split; reflexivity.
Qed.

Lemma iteration_history cfg sch mb a0 locals self r s_end :
  store_iterations cfg = true ->
  iteration cfg sch mb a0 locals self = (Ok r, s_end) ->
  exists os ps es e,
    object_iterations self = Some os
    /\ probe_iterations self = Some ps
    /\ error_iterations self = Some es
    /\ snd r = Some e
    /\ object_iterations s_end = Some (os ++ [_object s_end])%list
    /\ probe_iterations s_end = Some (ps ++ [_probe s_end])%list
    /\ error_iterations s_end = Some (es ++ [e])%list.
Proof.
  intros Hstore H. unfold iteration in H. rewrite Hstore in H.
  apply bind_inv in H as (idx & s0 & Hr & H).
  apply bind_inv in H as (num & s0' & Hn & H).
  apply read_inv in Hn as [Hn ->].
  apply bind_inv in H as (err & s2 & Hf & H).
  apply bind_inv in H as (u & s3 & Hs & H).
  apply ret_inv in H as [-> ->].
  assert (K : stored_iterations s2 = stored_iterations self).
  { pose proof (keeps_for_each stored_iterations
                  (batch cfg sch a0 idx)
                  (generate_batches num mb)
                  (keeps_stored_iterations_batch cfg sch a0 idx)
                  (snd locals) s0) as K1.
    rewrite Hf in K1. cbn [snd] in K1.
    pose proof (keeps_stored_iterations_randomize mb (fst locals) self) as K0.
    rewrite Hr in K0. cbn [snd] in K0.
    rewrite K1. exact K0. }
  assert (Ko : object_iterations s2 = object_iterations self)
    by exact (f_equal (fun t => fst (fst t)) K).
  assert (Kp : probe_iterations s2 = probe_iterations self)
    by exact (f_equal (fun t => snd (fst t)) K).
  assert (Ke : error_iterations s2 = error_iterations self)
    by exact (f_equal snd K).
  destruct (store_iteration_history _ _ _ _ Hs)
    as (os & ps & es & e & Hos & Hps & Hes & He & Ho' & Hp' & He').
  exists os, ps, es, e. cbn [snd].
  rewrite <- Ko, <- Kp, <- Ke.
  repeat split; assumption.
Qed.

Lemma loop_history cfg sch mb l :
  store_iterations cfg = true ->
  forall a0 locals self r s_end,
    for_each (iteration cfg sch mb) (a0 :: l) locals self = (Ok r, s_end) ->
    exists os ps es new_objects new_probes new_errors e,
      object_iterations self = Some os
      /\ probe_iterations self = Some ps
      /\ error_iterations self = Some es
      /\ snd r = Some e
      /\ object_iterations s_end
         = Some (os ++ new_objects ++ [_object s_end])%list
      /\ probe_iterations s_end
         = Some (ps ++ new_probes ++ [_probe s_end])%list
      /\ error_iterations s_end = Some (es ++ new_errors ++ [e])%list
      /\ length new_objects = length l
      /\ length new_probes = length l
      /\ length new_errors = length l.
Proof.
  intros Hstore.
  induction l as [| a1 l IH]; intros a0 locals self r s_end H.
  - simpl in H.
    apply bind_inv in H as (r1 & s1 & Hit & H).
    apply ret_inv in H as [-> ->].
    destruct (iteration_history _ _ _ _ _ _ _ _ Hstore Hit)
      as (os & ps & es & e & Hos & Hps & Hes & He & Ho' & Hp' & He').
    exists os, ps, es, [], [], [], e.
    repeat split; assumption.
  - change (for_each (iteration cfg sch mb) (a0 :: a1 :: l) locals self)
      with (bind (iteration cfg sch mb a0 locals)
              (for_each (iteration cfg sch mb) (a1 :: l)) self) in H.
    apply bind_inv in H as (r1 & s1 & Hit & H).
    destruct (iteration_history _ _ _ _ _ _ _ _ Hstore Hit)
      as (os & ps & es & e1 & Hos & Hps & Hes & He1 & Ho1 & Hp1 & He1').
    destruct (IH _ _ _ _ _ H)
      as (os' & ps' & es' & no & np & ne & e & Hos' & Hps' & Hes' & He
          & Ho & Hp & Hee & Lo & Lp & Le).
    rewrite Ho1 in Hos'. rewrite Hp1 in Hps'. rewrite He1' in Hes'.
    inversion Hos'; subst os'. inversion Hps'; subst ps'.
    inversion Hes'; subst es'.
    exists os, ps, es, (_object s1 :: no), (_probe s1 :: np), (e1 :: ne), e.
    rewrite Ho, Hp, Hee. rewrite <- !app_assoc. cbn [app length].
    rewrite Lo, Lp, Le.
    repeat split; assumption.
Qed.

(** X6.  A call of [reconstruct] with [store_iterations=True] that
    returns has appended exactly [max_iter] entries to each of
    [object_iterations], [probe_iterations] and [error_iterations], after
    the entries that the lists held when the main loop started, and the
    last appended entries are the stored [object], [probe] and
    [error]. *)
Theorem stored_history_of_a_run cfg self s_end :
  store_iterations cfg = true ->
  reconstruct cfg self = (Ok tt, s_end) ->
  exists sch mb s_init os ps es new_objects new_probes new_errors o p e,
    prelude cfg self = (Ok (sch, mb), s_init)
    /\ object_iterations s_init = Some os
    /\ probe_iterations s_init = Some ps
    /\ error_iterations s_init = Some es
    /\ object_iterations s_end = Some (os ++ new_objects ++ [o])%list
    /\ probe_iterations s_end = Some (ps ++ new_probes ++ [p])%list
    /\ error_iterations s_end = Some (es ++ new_errors ++ [e])%list
    /\ S (length new_objects) = max_iter cfg
    /\ S (length new_probes) = max_iter cfg
    /\ S (length new_errors) = max_iter cfg
    /\ object s_end = Some o /\ probe s_end = Some p /\ error s_end = Some e.
Proof.
  intros Hstore H. unfold reconstruct in H.
  apply bind_inv in H as ([sch mb] & s_init & Hp & H).
  apply bind_inv in H as (num & s' & Hn & H).
  apply read_inv in Hn as [Hn ->].
  apply bind_inv in H as (final & s_loop & Hl & H).
  destruct (max_iter cfg) as [| k] eqn:Hk.
  { simpl in Hl. apply ret_inv in Hl as [-> ->].
    unfold store_result in H.
    apply bind_inv in H as (u1 & s1 & H1 & H).
    apply bind_inv in H as (u2 & s2 & H2 & H).
    apply bind_inv in H as (e & s3 & H3 & H).
    apply read_inv in H3 as [H3 _]. discriminate H3. }
  change (seq 0 (S k)) with (0%nat :: seq 1 k) in Hl.
  destruct (loop_history cfg sch mb (seq 1 k) Hstore _ _ _ _ _ Hl)
    as (os & ps & es & no & np & ne & e & Hos & Hps & Hes & He
        & Ho & Hpr & Hee & Lo & Lp & Le).
  rewrite length_seq in Lo, Lp, Le.
  unfold store_result in H.
  apply bind_inv in H as (u1 & s1 & H1 & H). apply assign_inv in H1 as ->.
  apply bind_inv in H as (u2 & s2 & H2 & H). apply assign_inv in H2 as ->.
  apply bind_inv in H as (e' & s3 & H3 & H).
  apply read_inv in H3 as [H3 ->].
  apply assign_inv in H as ->.
  rewrite He in H3. inversion H3; subst e'.
  exists sch, mb, s_init, os, ps, es, no, np, ne,
    (_object s_loop), (_probe s_loop), e.
  rewrite Lo, Lp, Le.
  repeat split; assumption.
Qed.

(** *** The working positions after a batch *)

Lemma adjoint_keeps_positions self o p op sp pos ew ups step nmin
  fix_probe fix_positions alt o' p' pos' :
  _adjoint self o p op sp pos ew ups step nmin fix_probe fix_positions alt
  = Ok (o', p', pos') ->
  pos' = pos /\ (fix_probe = true -> p' = p).
Proof.
  unfold _adjoint. intros H.
  destruct ups.
  - unfold _projection_sets_adjoint in H.
    destruct (projection_sets_probe_denominator self nmin sp) as [d |];
      [| discriminate H].
    cbn [obind] in H.
    destruct fix_probe; cbn [negb] in H.
    + inversion H. split; [reflexivity | intros _; reflexivity].
    + destruct (projection_sets_object_denominator self nmin op) as [d' |];
        [| discriminate H].
      inversion H. split; [reflexivity | discriminate].
  - unfold _gradient_descent_adjoint in H.
    destruct (gradient_descent_probe_denominator self nmin sp) as [d |];
      [| discriminate H].
    cbn [obind] in H.
    destruct step as [step |]; [| discriminate H].
    cbn [obind number] in H.
    destruct fix_probe; cbn [negb] in H.
    + inversion H. split; [reflexivity | intros _; reflexivity].
    + destruct (gradient_descent_object_denominator self nmin op) as [d' |];
        [| discriminate H].
      inversion H. split; [reflexivity | discriminate].
Qed.

Lemma positions_are_set__positions_px w self :
  positions_are w self -> positions_are w (set__positions_px w self).
Proof.
  intros (H1 & H2 & H3). split; [reflexivity | split; assumption].
Qed.

Lemma set_vectorized_patch_indices_inv self u self' w :
  _set_vectorized_patch_indices self = (Ok u, self') ->
  _positions_px self = w ->
  _positions_px_fractional self = fractional w ->
  positions_are w self'
  /\ _positions_px_com self' = _positions_px_com self
  /\ _positions_px_initial self' = _positions_px_initial self
  /\ _amplitudes self' = _amplitudes self.
Proof.
  unfold _set_vectorized_patch_indices, assign. intros H Hw Hf.
  inversion H as [Hs]. clear H.
  unfold positions_are. rewrite <- Hw.
  destruct (vectorized_patch_indices (_positions_px self)
              (_region_of_interest_shape self) (_object_shape self))
    as [rows cols] eqn:Hv.
  cbn. rewrite Hv. rewrite Hw in *. repeat split; try reflexivity; assumption.
Qed.

Lemma positions_center_of_mass_constraint_inv cur self res self' :
  _positions_center_of_mass_constraint cur self = (Ok res, self') ->
  res = recentre (_positions_px_com self) cur
  /\ positions_are (recentre (_positions_px_com self) cur) self'.
Proof.
  unfold _positions_center_of_mass_constraint. intros H.
  apply bind_inv in H as (s & s0 & Hs & H). apply read_inv in Hs as [Hs ->].
  inversion Hs; subst s; clear Hs.
  apply bind_inv in H as (u1 & s1 & H1 & H). apply assign_inv in H1 as ->.
  apply bind_inv in H as (u2 & s2 & H2 & H). apply assign_inv in H2 as ->.
  apply bind_inv in H as (u3 & s3 & H3 & H).
  apply ret_inv in H as [-> ->].
  split; [reflexivity |].
  apply (set_vectorized_patch_indices_inv _ _ _ _ H3); reflexivity.
Qed.

Lemma batch_indices_inv idx start end_ self amplitudes self' :
  batch_indices idx start end_ self = (Ok amplitudes, self') ->
  exists initial,
    take_indices (_positions_px_initial self) idx = Ok initial
    /\ positions_are (slice start end_ initial) self'
    /\ _positions_px_com self' = _positions_px_com self.
Proof.
  unfold batch_indices. intros H.
  apply bind_inv in H as (initial & s0 & Hi & H).
  apply read_inv in Hi as [Hi ->].
  apply bind_inv in H as (u1 & s1 & H1 & H). apply assign_inv in H1 as ->.
  apply bind_inv in H as (u2 & s2 & H2 & H). apply assign_inv in H2 as ->.
  apply bind_inv in H as (u3 & s3 & H3 & H).
  apply bind_inv in H as (amps & s4 & H4 & H).
  apply read_inv in H4 as [H4 ->].
  apply ret_inv in H as [_ ->].
  exists initial. split; [exact Hi |].
  destruct (set_vectorized_patch_indices_inv _ _ _
              (slice start end_ initial) H3 eq_refl eq_refl)
    as (Hp & Hc & _).
  split; [exact Hp | exact Hc].
Qed.

Lemma constraints_positions o p pos pure sigma fc fa fixed self o' p' pos' self' :
  _constraints o p pos pure sigma fc fa fixed self
  = (Ok (o', p', pos'), self') ->
  positions_are pos self ->
  let w := if fixed then pos else recentre (_positions_px_com self) pos in
  pos' = w /\ positions_are w self'.
Proof.
  unfold _constraints. intros H Hpos.
  apply bind_inv in H as (s & s0 & Hs & H). apply read_inv in Hs as [Hs ->].
  apply bind_inv in H as (pr & s1 & H1 & H).
  apply read_inv in H1 as [H1 ->].
  apply bind_inv in H as (ps & s2 & H2 & H).
  apply ret_inv in H as [Heq ->]. inversion Heq; subst o' p' pos'; clear Heq.
  destruct fixed; cbn [negb] in H2; cbn zeta.
  - apply ret_inv in H2 as [-> ->]. split; [reflexivity | exact Hpos].
  - apply positions_center_of_mass_constraint_inv in H2 as [-> H2].
    split; [reflexivity | exact H2].
Qed.

Lemma batch_positions cfg sch a0 idx bounds err self r self' :
  batch cfg sch a0 idx bounds err self = (Ok r, self') ->
  exists initial,
    take_indices (_positions_px_initial self) idx = Ok initial
    /\ positions_are
         (if before a0 (fix_positions_iter cfg) then
            slice (fst bounds) (snd bounds) initial
          else
            recentre (_positions_px_com self)
              (slice (fst bounds) (snd bounds) initial))
         self'.
Proof.
  unfold batch. intros H.
  apply bind_inv in H as (amplitudes & s1 & Hi & H).
  apply bind_inv in H as ([[[sp op] ew] e] & s2 & Hf & H).
  apply bind_inv in H as (u1 & s3 & Ha & H).
  apply bind_inv in H as (u2 & s4 & Hc & H).
  apply ret_inv in H as [_ ->].
  destruct (batch_indices_inv _ _ _ _ _ _ Hi) as (initial & Hinit & Hp1 & Hcom).
  exists initial. split; [exact Hinit |].
  set (w := slice (fst bounds) (snd bounds) initial) in *.
  (* forward *)
  unfold batch_forward in Hf.
  apply bind_inv in Hf as (fw & s1' & Hfw & Hf).
  apply read_inv in Hfw as [Hfw ->].
  destruct fw as [[[sp' op'] ew'] e'].
  apply bind_inv in Hf as (u3 & s2' & Hset & Hf).
  apply assign_inv in Hset as ->.
  apply ret_inv in Hf as [_ ->].
  (* adjoint *)
  unfold batch_adjoint in Ha.
  apply bind_inv in Ha as ([[o1 p1] pos1] & s2' & Hadj & Ha).
  apply read_inv in Hadj as [Hadj ->].
  apply adjoint_keeps_positions in Hadj as [Hpos1 _].
  apply bind_inv in Ha as (u4 & s5 & H5 & Ha). apply assign_inv in H5 as ->.
  apply bind_inv in Ha as (u5 & s6 & H6 & Ha). apply assign_inv in H6 as ->.
  apply assign_inv in Ha as ->.
  assert (Hp3 : positions_are w
            (set__positions_px pos1
               (set__probe p1
                  (set__object o1 (set__exit_waves (Some (Some ew')) s1))))).
  { rewrite Hpos1.
    change (_positions_px (set__exit_waves (Some (Some ew')) s1))
      with (_positions_px s1).
    destruct Hp1 as (Hw & Hfr & Hix). rewrite Hw.
    split; [reflexivity | split; [exact Hfr | exact Hix]]. }
  (* constraints *)
  unfold batch_constraints in Hc.
  apply bind_inv in Hc as (s & s0 & Hs & Hc). apply read_inv in Hs as [Hs ->].
  inversion Hs; subst s; clear Hs.
  apply bind_inv in Hc as ([[o' p'] pos'] & s7 & Hcs & Hc).
  apply bind_inv in Hc as (u6 & s8 & H8 & Hc). apply assign_inv in H8 as ->.
  apply bind_inv in Hc as (u7 & s9 & H9 & Hc). apply assign_inv in H9 as ->.
  apply assign_inv in Hc as ->.
  assert (Hcur : positions_are
            (_positions_px
               (set__positions_px pos1
                  (set__probe p1
                     (set__object o1
                        (set__exit_waves (Some (Some ew')) s1)))))
            (set__positions_px pos1
               (set__probe p1
                  (set__object o1 (set__exit_waves (Some (Some ew')) s1))))).
  { destruct Hp3 as (Hw & Hfr & Hix). rewrite Hw.
    split; [exact Hw | split; [exact Hfr | exact Hix]]. }
  destruct (constraints_positions _ _ _ _ _ _ _ _ _ _ _ _ _ Hcs Hcur)
    as [Hpos' Hp7].
  assert (Hw : _positions_px
                 (set__positions_px pos1
                    (set__probe p1
                       (set__object o1
                          (set__exit_waves (Some (Some ew')) s1)))) = w)
    by (destruct Hp3 as (Hw & _); exact Hw).
  rewrite Hw in Hpos', Hp7.
  change (_positions_px_com
            (set__positions_px pos1
               (set__probe p1
                  (set__object o1 (set__exit_waves (Some (Some ew')) s1)))))
    with (_positions_px_com s1) in Hpos', Hp7.
  rewrite Hcom in Hpos', Hp7.
  rewrite Hpos'.
  apply positions_are_set__positions_px.
  exact Hp7.
Qed.

(** X7.  The positions are never refined: at the end of every completed
    batch the working positions are the batch's slice of the shuffled
    initial positions, as they are when [a0 < fix_positions_iter] and
    recentred on [_positions_px_com] otherwise, and the fractional
    positions and the patch indices are the ones computed from them.
    ([_adjoint] returns the positions it was given; the calls of the
    position correction are commented out.) *)
Theorem positions_after_batch cfg sch a0 idx bounds err self r self' :
  batch cfg sch a0 idx bounds err self = (Ok r, self') ->
  exists initial,
    take_indices (_positions_px_initial self) idx = Ok initial
    /\ positions_are
         (if before a0 (fix_positions_iter cfg) then
            slice (fst bounds) (snd bounds) initial
          else
            recentre (_positions_px_com self)
              (slice (fst bounds) (snd bounds) initial))
         self'.
Proof. exact (batch_positions cfg sch a0 idx bounds err self r self'). Qed.

(** *** The exceptions of a run *)

Lemma select_method_well_formed m (alpha step : F) sch :
  select_method m alpha step = Ok sch -> well_formed_scheme sch.
Proof.
  unfold select_method, well_formed_scheme. intros H.
  destruct (_ || _).
  { inversion H; subst sch; cbn. eauto 10. }
  destruct (_ || _).
  { inversion H; subst sch; cbn. eauto 10. }
  destruct (_ || _); [| discriminate H].
  inversion H; subst sch; cbn. eauto.
Qed.

Lemma bind_raise_inv {A B : Type} (c : M F Rng A) (k : A -> M F Rng B)
  self e self'' :
  bind c k self = (Raise e, self'') ->
  c self = (Raise e, self'')
  \/ exists a self', c self = (Ok a, self') /\ k a self' = (Raise e, self'').
Proof.
  unfold bind. intros H.
  destruct (c self) as [[a | e'] self'].
  - right. exists a, self'. split; [reflexivity | exact H].
  - left. inversion H. reflexivity.
Qed.

Lemma sequence_raise {A : Type} (l : list (outcome A)) e :
  sequence l = Raise e -> In (Raise e) l.
Proof.
  induction l as [| c l IH]; simpl; intros H.
  - discriminate H.
  - destruct c as [a | e'].
    + destruct (sequence l) as [r | e''] eqn:Hs; [discriminate H |].
      right. apply IH. inversion H. reflexivity.
    + left. inversion H. reflexivity.
Qed.

Lemma take_indices_raise {A : Type} (a : list A) idx e :
  take_indices a idx = Raise e -> e = IndexError.
Proof.
  unfold take_indices. intros H. apply sequence_raise in H.
  apply in_map_iff in H as (i & Hi & _).
  destruct (nth_error a i); [discriminate Hi | inversion Hi; reflexivity].
Qed.

Lemma in_zip_with {A B C : Type} (f : A -> B -> C) l m c :
  In c (zip_with f l m) -> exists a b, c = f a b.
Proof.
  revert m. induction l as [| a l IH]; intros [| b m] H; simpl in H;
    try contradiction.
  destruct H as [<- | H]; [exists a, b; reflexivity | exact (IH _ H)].
Qed.

Lemma index_object_raise shape (a : list (Cx F)) rows cols e :
  index_object shape a rows cols = Raise e -> e = IndexError.
Proof.
  unfold index_object. destruct shape as [P Q]. intros H.
  apply sequence_raise in H.
  apply in_zip_with in H as (rs & cs & H).
  symmetry in H. apply sequence_raise in H.
  apply in_zip_with in H as (r & c & H).
  destruct ((r <? P)%nat && (c <? Q)%nat).
  - destruct (nth_error a (r * Q + c)); [discriminate H |].
    inversion H; reflexivity.
  - inversion H; reflexivity.
Qed.

Lemma forward_raise self o p amplitudes ew sch e :
  well_formed_scheme sch ->
  _forward self o p amplitudes ew (use_projection_scheme sch)
    (projection_a sch) (projection_b sch) (projection_c sch)
  = Raise e ->
  e = IndexError.
Proof.
  unfold _forward, _overlap_projection, well_formed_scheme. intros Hs H.
  destruct (index_object _ _ _ _) as [patches | e'] eqn:Hi.
  - cbn [obind] in H.
    destruct (use_projection_scheme sch).
    + destruct Hs as (a & b & c & Ha & Hb & Hc).
      rewrite Ha, Hb, Hc in H. cbn [obind number] in H.
      destruct (_projection_sets_fourier_projection _ _ _ _ _ _ _).
      discriminate H.
    + destruct (_gradient_descent_fourier_projection _ _ _ _).
      discriminate H.
  - cbn [obind] in H. inversion H; subst e'.
    exact (index_object_raise _ _ _ _ _ Hi).
Qed.

Lemma xp_max_raise (l : list F) e :
  xp_max l = Raise e -> exists msg, e = ValueError msg.
Proof.
  unfold xp_max. destruct l; intros H; [| discriminate H].
  inversion H. eexists. reflexivity.
Qed.

Lemma denominator_raise self (nmin : F) (a : stack (Cx F)) e :
  projection_sets_probe_denominator self nmin a = Raise e
  \/ projection_sets_object_denominator self nmin a = Raise e
  \/ gradient_descent_probe_denominator self nmin a = Raise e
  \/ gradient_descent_object_denominator self nmin a = Raise e ->
  exists msg, e = ValueError msg.
Proof.
  unfold projection_sets_probe_denominator,
    projection_sets_object_denominator, gradient_descent_probe_denominator,
    gradient_descent_object_denominator.
  intros [H | [H | [H | H]]];
    (destruct (xp_max _) as [m | e1] eqn:Hm; cbn [obind] in H;
     [discriminate H |
      inversion H; subst; exact (xp_max_raise _ _ Hm)]).
Qed.

Lemma adjoint_raise self o p op sp pos ew sch nmin fpr fpo alt e :
  well_formed_scheme sch ->
  _adjoint self o p op sp pos ew (use_projection_scheme sch)
    (scheme_step_size sch) nmin fpr fpo alt
  = Raise e ->
  exists msg, e = ValueError msg.
Proof.
  unfold _adjoint, well_formed_scheme. intros Hs H.
  destruct (use_projection_scheme sch).
  - unfold _projection_sets_adjoint in H.
    destruct (projection_sets_probe_denominator self nmin sp)
      as [d | e1] eqn:Hd; cbn [obind] in H.
    2: { inversion H; subst. apply (denominator_raise self nmin sp). tauto. }
    destruct (negb fpr).
    2: { discriminate H. }
    destruct (projection_sets_object_denominator self nmin op)
      as [d' | e2] eqn:Hd'; cbn [obind] in H.
    + discriminate H.
    + inversion H; subst. apply (denominator_raise self nmin op). tauto.
  - destruct Hs as (step & Hstep). rewrite Hstep in H.
    unfold _gradient_descent_adjoint in H.
    destruct (gradient_descent_probe_denominator self nmin sp)
      as [d | e1] eqn:Hd; cbn [obind number] in H.
    2: { inversion H; subst. apply (denominator_raise self nmin sp). tauto. }
    destruct (negb fpr).
    2: { discriminate H. }
    destruct (gradient_descent_object_denominator self nmin op)
      as [d' | e2] eqn:Hd'; cbn [obind] in H.
    + discriminate H.
    + inversion H; subst. apply (denominator_raise self nmin op). tauto.
Qed.

Lemma read_raise_inv {A : Type} (f : Recon F Rng -> outcome A) self e self' :
  read f self = (Raise e, self') -> f self = Raise e.
Proof. unfold read. intros H. inversion H. reflexivity. Qed.

Ltac no_raise H :=
  first [ discriminate H
        | unfold assign in H; discriminate H
        | unfold ret in H; discriminate H ].

Lemma set_vectorized_patch_indices_no_raise self e self' :
  _set_vectorized_patch_indices self = (Raise e, self') -> False.
Proof. unfold _set_vectorized_patch_indices, assign. discriminate. Qed.

Lemma positions_center_of_mass_constraint_no_raise cur self e self' :
  _positions_center_of_mass_constraint cur self = (Raise e, self') -> False.
Proof.
  unfold _positions_center_of_mass_constraint. intros H.
  apply bind_raise_inv in H as [H | (a & s & H1 & H)]; [no_raise H |].
  apply bind_raise_inv in H as [H | (a1 & s1 & H2 & H)]; [no_raise H |].
  apply bind_raise_inv in H as [H | (a2 & s2 & H3 & H)]; [no_raise H |].
  apply bind_raise_inv in H as [H | (a3 & s3 & H4 & H)];
    [exact (set_vectorized_patch_indices_no_raise _ _ _ H) | no_raise H].
Qed.

Lemma constraints_raise o p pos pure sigma fc fa fp self e self' :
  _constraints o p pos pure sigma fc fa fp self = (Raise e, self') ->
  exists name, e = AttributeError name.
Proof.
  unfold _constraints. intros H.
  apply bind_raise_inv in H as [H | (a & s & H1 & H)]; [no_raise H |].
  apply bind_raise_inv in H as [H | (a1 & s1 & H2 & H)].
  - apply read_raise_inv in H. unfold _probe_finite_support_constraint in H.
    destruct (_probe_support_mask a) as [mask |]; [discriminate H |].
    cbn in H. inversion H. eexists. reflexivity.
  - apply bind_raise_inv in H as [H | (a2 & s2 & H3 & H)]; [| no_raise H].
    destruct (negb fp); [| no_raise H].
    exfalso. exact (positions_center_of_mass_constraint_no_raise _ _ _ _ H).
Qed.

Lemma batch_raise cfg sch a0 idx bounds err self e self' :
  well_formed_scheme sch ->
  batch cfg sch a0 idx bounds err self = (Raise e, self') ->
  data_error e.
Proof.
  intros Hs H. unfold batch in H.
  apply bind_raise_inv in H as [H | (amplitudes & s1 & _ & H)].
  { unfold batch_indices in H.
    apply bind_raise_inv in H as [H | (a & s & _ & H)].
    { apply read_raise_inv, take_indices_raise in H. subst e. exact I. }
    apply bind_raise_inv in H as [H | (a1 & s2 & _ & H)]; [no_raise H |].
    apply bind_raise_inv in H as [H | (a2 & s3 & _ & H)]; [no_raise H |].
    apply bind_raise_inv in H as [H | (a3 & s4 & _ & H)];
      [exfalso; exact (set_vectorized_patch_indices_no_raise _ _ _ H) |].
    apply bind_raise_inv in H as [H | (a4 & s5 & _ & H)]; [| no_raise H].
    apply read_raise_inv, take_indices_raise in H. subst e. exact I. }
  apply bind_raise_inv in H as [H | ([[[sp op] ew] e0] & s2 & _ & H)].
  { unfold batch_forward in H.
    apply bind_raise_inv in H as [H | ([[[sp op] ew] e0] & s & _ & H)].
    - apply read_raise_inv in H.
      destruct (_exit_waves s1) as [previous |]; cbn [attribute obind] in H.
      + apply (forward_raise _ _ _ _ _ _ _ Hs) in H. subst e. exact I.
      + inversion H. exact I.
    - apply bind_raise_inv in H as [H | (a & s3 & _ & H)]; no_raise H. }
  apply bind_raise_inv in H as [H | (u1 & s3 & _ & H)].
  { unfold batch_adjoint in H.
    apply bind_raise_inv in H as [H | ([[o1 p1] pos1] & s & _ & H)].
    - apply read_raise_inv in H.
      apply (adjoint_raise _ _ _ _ _ _ _ _ _ _ _ _ _ Hs) in H as [msg ->].
      exact I.
    - apply bind_raise_inv in H as [H | (a & s4 & _ & H)]; [no_raise H |].
      apply bind_raise_inv in H as [H | (a1 & s5 & _ & H)]; no_raise H. }
  apply bind_raise_inv in H as [H | (u2 & s4 & _ & H)]; [| no_raise H].
  unfold batch_constraints in H.
  apply bind_raise_inv in H as [H | (s & s5 & _ & H)]; [no_raise H |].
  apply bind_raise_inv in H as [H | ([[o1 p1] pos1] & s6 & _ & H)].
  - apply constraints_raise in H as [name ->]. exact I.
  - apply bind_raise_inv in H as [H | (a & s7 & _ & H)]; [no_raise H |].
    apply bind_raise_inv in H as [H | (a1 & s8 & _ & H)]; no_raise H.
Qed.

Lemma for_each_batch_raise cfg sch a0 idx bs :
  well_formed_scheme sch ->
  forall err self e self',
    for_each (batch cfg sch a0 idx) bs err self = (Raise e, self') ->
    data_error e.
Proof.
  intros Hs. induction bs as [| b bs IH]; intros err self e self' H; simpl in H.
  - no_raise H.
  - apply bind_raise_inv in H as [H | (r & s & _ & H)].
    + exact (batch_raise _ _ _ _ _ _ _ _ _ Hs H).
    + exact (IH _ _ _ _ H).
Qed.

Lemma for_each_batch_result cfg sch a0 idx bs :
  forall err self r self',
    for_each (batch cfg sch a0 idx) bs err self = (Ok r, self') ->
    (bs = [] /\ r = err) \/ exists e, r = Some e.
Proof.
  induction bs as [| b bs IH]; intros err self r self' H; simpl in H.
  - apply ret_inv in H as [-> _]. left. split; reflexivity.
  - apply bind_inv in H as (r1 & s1 & Hb & H).
    destruct (batch_returns_forward_error _ _ _ _ _ _ _ _ _ Hb)
      as (am & si & sp & op & ew & e & sf & _ & _ & ->).
    destruct (IH _ _ _ _ H) as [[_ ->] | He]; right; [eauto | exact He].
Qed.

Lemma randomize_no_raise mb idx self e self' :
  randomize mb idx self = (Raise e, self') -> False.
Proof.
  unfold randomize. intros H.
  apply bind_raise_inv in H as [H | (num & s & _ & H)]; [no_raise H |].
  destruct (mb <? num)%nat; [| no_raise H].
  apply bind_raise_inv in H as [H | (state & s1 & _ & H)]; [no_raise H |].
  destruct (np_random_shuffle state idx) as [shuffled state'].
  apply bind_raise_inv in H as [H | (u & s2 & _ & H)]; no_raise H.
Qed.

Lemma store_iteration_raise err self e self' :
  store_iteration err self = (Raise e, self') ->
  data_error e \/ (e = UnboundLocalError "error" /\ err = None).
Proof.
  unfold store_iteration. intros H.
  apply bind_raise_inv in H as [H | (s & s0 & Hs & H)]; [no_raise H |].
  apply bind_raise_inv in H as [H | (l1 & s1 & _ & H)].
  { apply read_raise_inv in H. unfold append, attribute in H.
    destruct (object_iterations s); [discriminate H |].
    inversion H. left. exact I. }
  apply bind_raise_inv in H as [H | (u1 & s2 & _ & H)]; [no_raise H |].
  apply bind_raise_inv in H as [H | (l2 & s3 & _ & H)].
  { apply read_raise_inv in H. unfold append, attribute in H.
    destruct (probe_iterations s); [discriminate H |].
    inversion H. left. exact I. }
  apply bind_raise_inv in H as [H | (u2 & s4 & _ & H)]; [no_raise H |].
  apply bind_raise_inv in H as [H | (l3 & s5 & _ & H)]; [| no_raise H].
  apply read_raise_inv in H. unfold append, attribute, local in H.
  destruct err as [e0 |]; cbn [obind] in H.
  - destruct (error_iterations s); [discriminate H |].
    inversion H. left. exact I.
  - inversion H. right. split; reflexivity.
Qed.

Lemma randomize_num mb idx self r self' :
  randomize mb idx self = (Ok r, self') ->
  _num_diffraction_patterns self' = _num_diffraction_patterns self.
Proof.
  intros H.
  pose proof (keeps_randomize _num_diffraction_patterns mb idx
                (fun _ _ => eq_refl) self) as K.
  rewrite H in K. exact K.
Qed.

Lemma iteration_raise cfg sch mb a0 locals self e self' :
  well_formed_scheme sch ->
  iteration cfg sch mb a0 locals self = (Raise e, self') ->
  data_error e
  \/ (e = UnboundLocalError "error"
      /\ generate_batches (_num_diffraction_patterns self) mb = []).
Proof.
  intros Hs H. unfold iteration in H.
  apply bind_raise_inv in H as [H | (idx & s0 & Hr & H)];
    [exfalso; exact (randomize_no_raise _ _ _ _ _ H) |].
  apply bind_raise_inv in H as [H | (num & s1 & Hn & H)]; [no_raise H |].
  apply read_inv in Hn as [Hn ->]. inversion Hn; subst num; clear Hn.
  rewrite (randomize_num _ _ _ _ _ Hr) in H.
  apply bind_raise_inv in H as [H | (err & s2 & Hf & H)].
  { left. exact (for_each_batch_raise _ _ _ _ _ Hs _ _ _ _ H). }
  apply bind_raise_inv in H as [H | (u & s3 & _ & H)]; [| no_raise H].
  destruct (store_iterations cfg); [| no_raise H].
  apply store_iteration_raise in H as [H | [-> ->]]; [left; exact H |].
  right. split; [reflexivity |].
  destruct (for_each_batch_result _ _ _ _ _ _ _ _ _ Hf) as [[Hb _] | [e0 He]];
    [exact Hb | discriminate He].
Qed.

Lemma iteration_result cfg sch mb a0 locals self r self' :
  iteration cfg sch mb a0 locals self = (Ok r, self') ->
  generate_batches (_num_diffraction_patterns self) mb <> [] ->
  exists e, snd r = Some e.
Proof.
  intros H Hb. unfold iteration in H.
  apply bind_inv in H as (idx & s0 & Hr & H).
  apply bind_inv in H as (num & s1 & Hn & H).
  apply read_inv in Hn as [Hn ->]. inversion Hn; subst num; clear Hn.
  rewrite (randomize_num _ _ _ _ _ Hr) in H.
  apply bind_inv in H as (err & s2 & Hf & H).
  apply bind_inv in H as (u & s3 & _ & H).
  apply ret_inv in H as [-> _]. cbn [snd].
  destruct (for_each_batch_result _ _ _ _ _ _ _ _ _ Hf) as [[Hb' _] | He];
    [contradiction | exact He].
Qed.

Lemma iteration_num cfg sch mb a0 locals self r self' :
  iteration cfg sch mb a0 locals self = (Ok r, self') ->
  _num_diffraction_patterns self' = _num_diffraction_patterns self.
Proof.
  intros H.
  assert (K : keeps _num_diffraction_patterns (iteration cfg sch mb a0 locals))
    by (apply keeps_iteration; intros; reflexivity).
  specialize (K self). rewrite H in K. exact K.
Qed.

Lemma loop_raise cfg sch mb l :
  well_formed_scheme sch ->
  forall locals self e self',
    for_each (iteration cfg sch mb) l locals self = (Raise e, self') ->
    data_error e
    \/ (e = UnboundLocalError "error"
        /\ generate_batches (_num_diffraction_patterns self) mb = []).
Proof.
  intros Hs. induction l as [| a0 l IH]; intros locals self e self' H;
    simpl in H.
  - no_raise H.
  - apply bind_raise_inv in H as [H | (r & s & Hit & H)].
    + exact (iteration_raise _ _ _ _ _ _ _ _ Hs H).
    + rewrite <- (iteration_num _ _ _ _ _ _ _ _ Hit). exact (IH _ _ _ _ H).
Qed.

Lemma loop_result cfg sch mb l :
  forall locals self r self',
    for_each (iteration cfg sch mb) l locals self = (Ok r, self') ->
    generate_batches (_num_diffraction_patterns self) mb <> [] ->
    (l = [] /\ r = locals) \/ exists e, snd r = Some e.
Proof.
  induction l as [| a0 l IH]; intros locals self r self' H Hb; simpl in H.
  - apply ret_inv in H as [-> _]. left. split; reflexivity.
  - apply bind_inv in H as (r1 & s1 & Hit & H).
    destruct (iteration_result _ _ _ _ _ _ _ _ Hit Hb) as [e1 He1].
    rewrite <- (iteration_num _ _ _ _ _ _ _ _ Hit) in Hb.
    destruct (IH _ _ _ _ H Hb) as [[_ ->] | He]; right; [eauto | exact He].
Qed.

Lemma prelude_raise cfg self e self' :
  prelude cfg self = (Raise e, self') -> exists msg, e = ValueError msg.
Proof.
  unfold prelude. intros H.
  apply bind_raise_inv in H as [H | (u & s & _ & H)].
  { destruct (_ || _); [| no_raise H].
    unfold raise in H. inversion H. eexists. reflexivity. }
  apply bind_raise_inv in H as [H | (sch & s1 & _ & H)].
  { apply read_raise_inv in H. unfold select_method in H.
    destruct (_ || _); [discriminate H |].
    destruct (_ || _); [discriminate H |].
    destruct (_ || _); [discriminate H |].
    inversion H. eexists. reflexivity. }
  apply bind_raise_inv in H as [H | (num & s2 & _ & H)]; [no_raise H |].
  apply bind_raise_inv in H as [H | (mb & s3 & _ & H)].
  { apply read_raise_inv in H. unfold batching in H.
    destruct (max_batch_size cfg); [| discriminate H].
    destruct (use_projection_scheme sch); [| discriminate H].
    inversion H. eexists. reflexivity. }
  apply bind_raise_inv in H as [H | (u1 & s4 & _ & H)].
  { destruct (initialization_succeeds cfg s3) as [s' Hs'].
    rewrite Hs' in H. discriminate H. }
  apply bind_raise_inv in H as [H | (u2 & s5 & _ & H)]; no_raise H.
Qed.

Lemma prelude_scheme cfg self sch mb s_init :
  prelude cfg self = (Ok (sch, mb), s_init) -> well_formed_scheme sch.
Proof.
  unfold prelude. intros H.
  apply bind_inv in H as (u & s & _ & H).
  apply bind_inv in H as (sch' & s1 & Hsel & H).
  apply read_inv in Hsel as [Hsel _].
  apply bind_inv in H as (num & s2 & _ & H).
  apply bind_inv in H as (mb' & s3 & _ & H).
  apply bind_inv in H as (u1 & s4 & _ & H).
  apply bind_inv in H as (u2 & s5 & _ & H).
  apply ret_inv in H as [Heq _]. inversion Heq; subst sch' mb'.
  exact (select_method_well_formed _ _ _ _ Hsel).
Qed.

(** Where an exception of [reconstruct] comes from, as long as the
    library calls return. *)
Lemma reconstruct_raise cfg self e self' :
  reconstruct cfg self = (Raise e, self') ->
  data_error e
  \/ (e = UnboundLocalError "error"
      /\ (max_iter cfg = 0%nat
          \/ generate_batches (_num_diffraction_patterns self)
               (chosen_batch_size cfg self)
             = [])).
Proof.
  intros H. unfold reconstruct in H.
  apply bind_raise_inv in H as [H | ([sch mb] & s_init & Hp & H)].
  { apply prelude_raise in H as [msg ->]. left. exact I. }
  pose proof (prelude_scheme _ _ _ _ _ Hp) as Hs.
  destruct (prelude_batch_size _ _ _ _ _ Hp) as [-> Hnum].
  apply bind_raise_inv in H as [H | (num & s1 & Hn & H)]; [no_raise H |].
  apply read_inv in Hn as [Hn ->]. inversion Hn; subst num; clear Hn.
  apply bind_raise_inv in H as [H | (locals & s2 & Hl & H)].
  { apply (loop_raise _ _ _ _ Hs) in H as [H | [-> H]]; [left; exact H |].
    right. split; [reflexivity |]. right. rewrite <- Hnum. exact H. }
  unfold store_result in H.
  apply bind_raise_inv in H as [H | (u1 & s3 & _ & H)]; [no_raise H |].
  apply bind_raise_inv in H as [H | (u2 & s4 & _ & H)]; [no_raise H |].
  apply bind_raise_inv in H as [H | (e0 & s5 & _ & H)]; [| no_raise H].
  apply read_raise_inv in H. unfold local in H.
  destruct (snd locals) as [e1 |] eqn:Hloc; [discriminate H |].
  inversion H. right. split; [reflexivity |].
  destruct (generate_batches (_num_diffraction_patterns self)
              (chosen_batch_size cfg self)) as [| b bs] eqn:Hgen;
    [right; reflexivity |].
  left.
  assert (Hb : generate_batches (_num_diffraction_patterns s_init)
                 (chosen_batch_size cfg self) <> [])
    by (rewrite Hnum, Hgen; discriminate).
  destruct (loop_result _ _ _ _ _ _ _ _ Hl Hb) as [[Hseq _] | [e1 He1]].
  - destruct (max_iter cfg); [reflexivity | discriminate Hseq].
  - rewrite Hloc in He1. discriminate He1.
Qed.

(** X8.  For a positive batch size, for which the batch generator
    returns (with [max_batch_size = 0], or without diffraction patterns,
    [generate_batches] divides by zero, which the model leaves out), and
    as long as the other library calls return: an exception of
    [reconstruct] is never a [TypeError], as the scheme parameters that
    are [None] are never used in arithmetic; and it is an
    [UnboundLocalError] only for the local [error], and only when no
    batch was processed ([max_iter = 0] or no batches). *)
Theorem reconstruct_exceptions cfg self e self' :
  chosen_batch_size cfg self <> 0%nat ->
  reconstruct cfg self = (Raise e, self') ->
  e <> TypeError
  /\ (forall name,
         e = UnboundLocalError name ->
         name = "error"%string
         /\ (max_iter cfg = 0%nat
             \/ generate_batches (_num_diffraction_patterns self)
                  (chosen_batch_size cfg self)
                = [])).
Proof.
  intros _ H.
  destruct (reconstruct_raise cfg self e self' H) as [Hd | [-> Hnone]].
  - split.
    + intros ->. exact Hd.
    + intros name ->. contradiction.
  - split; [discriminate |].
    intros name Hname. inversion Hname; subst name.
    split; [reflexivity | exact Hnone].
Qed.

(** *** A probe that is kept fixed *)

Lemma constraints_probe o p pos pure sigma fixed self o' p' pos' self' :
  _constraints o p pos pure sigma false false fixed self
  = (Ok (o', p', pos'), self') ->
  exists mask,
    _probe_support_mask self = Some mask /\ p' = zip_with crmul p mask.
Proof.
  unfold _constraints. intros H.
  apply bind_inv in H as (s & s0 & Hs & H). apply read_inv in Hs as [Hs ->].
  inversion Hs; subst s; clear Hs.
  apply bind_inv in H as (pr & s1 & H1 & H).
  apply read_inv in H1 as [H1 ->].
  apply bind_inv in H as (ps & s2 & H2 & H).
  apply ret_inv in H as [Heq _]. inversion Heq; subst o' p' pos'; clear Heq.
  unfold _probe_finite_support_constraint, attribute in H1.
  destruct (_probe_support_mask self) as [mask |]; [| discriminate H1].
  cbn [obind] in H1. inversion H1. exists mask. split; reflexivity.
Qed.

(** X15.  A probe that is kept fixed is still masked.  After a completed
    batch of an iteration with [a0 < fix_probe_iter] and
    [a0 >= fix_probe_fourier_amplitude_iter] the probe is the probe
    before the batch multiplied by the probe support mask: the adjoint
    leaves it alone and the centre-of-mass shift is skipped, but
    [_probe_finite_support_constraint] is applied in every batch. *)
Theorem fixed_probe_is_masked cfg sch a0 idx bounds err self r self' :
  before a0 (fix_probe_iter cfg) = true ->
  before a0 (fix_probe_fourier_amplitude_iter cfg) = false ->
  batch cfg sch a0 idx bounds err self = (Ok r, self') ->
  exists mask,
    _probe_support_mask self = Some mask
    /\ _probe self' = zip_with crmul (_probe self) mask.
Proof.
  intros Hfix Hamp H. unfold batch in H.
  apply bind_inv in H as (amplitudes & s1 & Hi & H).
  apply bind_inv in H as ([[[sp op] ew] e] & s2 & Hf & H).
  apply bind_inv in H as (u1 & s3 & Ha & H).
  apply bind_inv in H as (u2 & s4 & Hc & H).
  apply ret_inv in H as [_ ->].
  assert (Hp1 : _probe s1 = _probe self
                /\ _probe_support_mask s1 = _probe_support_mask self).
  { pose proof (keeps_batch_indices _probe
                  (fun _ _ => eq_refl) (fun _ _ => eq_refl)
                  (fun _ _ => eq_refl) (fun _ _ => eq_refl)
                  idx (fst bounds) (snd bounds) self) as K1.
    pose proof (keeps_batch_indices _probe_support_mask
                  (fun _ _ => eq_refl) (fun _ _ => eq_refl)
                  (fun _ _ => eq_refl) (fun _ _ => eq_refl)
                  idx (fst bounds) (snd bounds) self) as K2.
    rewrite Hi in K1, K2. split; [exact K1 | exact K2]. }
  destruct Hp1 as [Hp1 Hm1].
  (* forward *)
  unfold batch_forward in Hf.
  apply bind_inv in Hf as (fw & s1' & Hfw & Hf).
  apply read_inv in Hfw as [Hfw ->].
  destruct fw as [[[sp' op'] ew'] e'].
  apply bind_inv in Hf as (u3 & s2' & Hset & Hf).
  apply assign_inv in Hset as ->.
  apply ret_inv in Hf as [_ ->].
  (* adjoint *)
  unfold batch_adjoint in Ha.
  apply bind_inv in Ha as ([[o1 p1] pos1] & s2' & Hadj & Ha).
  apply read_inv in Hadj as [Hadj ->].
  rewrite Hfix in Hadj.
  apply adjoint_keeps_positions in Hadj as [_ Hprobe].
  specialize (Hprobe eq_refl).
  apply bind_inv in Ha as (u4 & s5 & H5 & Ha). apply assign_inv in H5 as ->.
  apply bind_inv in Ha as (u5 & s6 & H6 & Ha). apply assign_inv in H6 as ->.
  apply assign_inv in Ha as ->.
  (* constraints *)
  unfold batch_constraints in Hc.
  apply bind_inv in Hc as (s & s0 & Hs & Hc). apply read_inv in Hs as [Hs ->].
  inversion Hs; subst s; clear Hs.
  apply bind_inv in Hc as ([[o' p'] pos'] & s7 & Hcs & Hc).
  apply bind_inv in Hc as (u6 & s8 & H8 & Hc). apply assign_inv in H8 as ->.
  apply bind_inv in Hc as (u7 & s9 & H9 & Hc). apply assign_inv in H9 as ->.
  apply assign_inv in Hc as ->.
  rewrite Hfix, Hamp, andb_false_r in Hcs.
  apply constraints_probe in Hcs as (mask & Hmask & ->).
  exists mask. split.
  - rewrite <- Hm1. exact Hmask.
  - change (_probe (set__positions_px pos' (set__probe ?p _))) with p.
    cbn [negb].
    change (_probe
              (set__positions_px pos1
                 (set__probe p1
                    (set__object o1
                       (set__exit_waves (Some (Some ew')) s1)))))
      with p1.
    rewrite Hprobe.
    change (_probe (set__exit_waves (Some (Some ew')) s1)) with (_probe s1).
    rewrite Hp1. reflexivity.
Qed.

(** *** Batches of all the patterns *)

Lemma randomize_full mb idx self :
  (_num_diffraction_patterns self <= mb)%nat ->
  randomize mb idx self = (Ok idx, self).
Proof.
  intros H. unfold randomize, bind, read, ret.
  apply Nat.ltb_ge in H. rewrite H. reflexivity.
Qed.

Lemma keeps_np_random_state_store_iteration (err : option F) :
  keeps (X := Rng) np_random_state (store_iteration err).
Proof. unfold store_iteration. frame_by fail. Qed.

Lemma iteration_full cfg sch mb a0 locals self :
  (_num_diffraction_patterns self <= mb)%nat ->
  np_random_state (snd (iteration cfg sch mb a0 locals self))
  = np_random_state self
  /\ forall r self',
       iteration cfg sch mb a0 locals self = (Ok r, self') ->
       fst r = fst locals.
Proof.
  intros Hfull. unfold iteration.
  rewrite (bind_ok _ _ _ _ _ (randomize_full mb (fst locals) self Hfull)).
  split.
  - assert (K : keeps (X := Rng) np_random_state
      (bind (read (fun self0 => Ok (_num_diffraction_patterns self0)))
         (fun num =>
            bind (for_each (batch cfg sch a0 (fst locals))
                    (generate_batches num mb) (snd locals))
              (fun error =>
                 bind (if store_iterations cfg then store_iteration error
                       else ret tt)
                   (fun _ => ret (fst locals, error)))))).
    { frame_by fail.
      - apply keeps_for_each. intros b err.
        apply keeps_batch; intros; reflexivity.
      - apply keeps_np_random_state_store_iteration. }
    exact (K self).
  - intros r self' H.
    apply bind_inv in H as (num & s1 & _ & H).
    apply bind_inv in H as (error & s2 & _ & H).
    apply bind_inv in H as (u & s3 & _ & H).
    apply ret_inv in H as [-> _]. reflexivity.
Qed.

Lemma loop_full cfg sch mb l :
  forall locals self,
    (_num_diffraction_patterns self <= mb)%nat ->
    np_random_state (snd (for_each (iteration cfg sch mb) l locals self))
    = np_random_state self.
Proof.
  induction l as [| a0 l IH]; intros locals self Hfull; simpl.
  - reflexivity.
  - unfold bind.
    destruct (iteration_full cfg sch mb a0 locals self Hfull) as [Hstate _].
    destruct (iteration cfg sch mb a0 locals self) as [[r | e] s1] eqn:Hit.
    + cbn [snd] in Hstate. rewrite IH; [exact Hstate |].
      rewrite (iteration_num _ _ _ _ _ _ _ _ Hit). exact Hfull.
    + exact Hstate.
Qed.

(** X16.  When the batch size is at least the number of diffraction
    patterns (as it always is with [max_batch_size=None], hence for the
    projection-set methods), [reconstruct] never shuffles: whether it
    returns or raises, the state of the random generator is the one it
    started with, and an iteration hands on the index order it was
    given. *)
Theorem full_batches_never_shuffle cfg self :
  (_num_diffraction_patterns self <= chosen_batch_size cfg self)%nat ->
  np_random_state (snd (reconstruct cfg self)) = np_random_state self
  /\ forall sch a0 locals r self',
       iteration cfg sch (chosen_batch_size cfg self) a0 locals self
       = (Ok r, self') ->
       fst r = fst locals.
Proof.
  intros Hfull. split.
  - unfold reconstruct, bind at 1.
    assert (K : keeps (X := Rng) np_random_state (prelude cfg))
      by (apply keeps_prelude; intros; reflexivity).
    specialize (K self).
    destruct (prelude cfg self) as [[[sch mb] | e] s_init] eqn:Hp;
      cbn [snd] in K; [| exact K].
    destruct (prelude_batch_size _ _ _ _ _ Hp) as [-> Hnum].
    unfold bind at 1, read at 1.
    unfold bind at 1.
    pose proof (loop_full cfg sch (chosen_batch_size cfg self)
                  (seq 0 (max_iter cfg))
                  (seq 0 (_num_diffraction_patterns s_init), None) s_init)
      as L.
    specialize (L ltac:(rewrite Hnum; exact Hfull)).
    destruct (for_each _ _ _ s_init) as [[locals | e] s_loop];
      cbn [snd] in L |- *; [| rewrite L; exact K].
    assert (S : keeps (X := Rng) np_random_state (store_result (snd locals)))
      by (unfold store_result; frame_by fail).
    rewrite (S s_loop), L. exact K.
  - intros sch a0 locals r self' H.
    exact (proj2 (iteration_full cfg sch _ a0 locals self Hfull) r self' H).
Qed.

(** *** The results of a run that fails *)

Lemma results_kept {A : Type} (c : M F Rng A) self x self' :
  keeps (fun self => (object self, probe self, error self)) c ->
  c self = (x, self') ->
  object self' = object self /\ probe self' = probe self
  /\ error self' = error self.
Proof.
  intros K H. specialize (K self). rewrite H in K. cbn [snd] in K.
  split; [| split].
  - exact (f_equal (fun t => fst (fst t)) K).
  - exact (f_equal (fun t => snd (fst t)) K).
  - exact (f_equal snd K).
Qed.

Lemma keeps_results_prelude cfg :
  keeps (fun self => (object self, probe self, error self)) (prelude cfg).
Proof. apply keeps_prelude; intros; reflexivity. Qed.

Lemma keeps_results_loop cfg sch mb l locals :
  keeps (fun self => (object self, probe self, error self))
    (for_each (iteration cfg sch mb) l locals).
Proof.
  apply keeps_for_each. intros a0 acc.
  apply keeps_iteration; intros; reflexivity.
Qed.

(** X17.  A call of [reconstruct] that raises leaves [self.error] as it
    was; and unless the exception is the [UnboundLocalError] of the last
    statement, it creates neither [self.object] nor [self.probe]: where
    they were missing they are still missing.  The three results are
    assigned only after the main loop.  (An array that an earlier call
    stored in [self.object] is the array that was then held in
    [self._object], and the in-place update of
    [_gradient_descent_adjoint] can change its values; the statement is
    about the attributes that do not exist yet.) *)
Theorem failed_run_keeps_results cfg self e self' :
  reconstruct cfg self = (Raise e, self') ->
  error self' = error self
  /\ (data_error e ->
      (object self = None -> object self' = None)
      /\ (probe self = None -> probe self' = None)).
Proof.
  intros H. unfold reconstruct in H.
  apply bind_raise_inv in H as [H | ([sch mb] & s_init & Hp & H)].
  { destruct (results_kept _ _ _ _ (keeps_results_prelude cfg) H)
      as (Ho & Hpr & He).
    split; [exact He | intros _; split; intros Hn; congruence]. }
  destruct (results_kept _ _ _ _ (keeps_results_prelude cfg) Hp)
    as (Ho0 & Hp0 & He0).
  apply bind_raise_inv in H as [H | (num & s1 & Hn & H)]; [no_raise H |].
  apply read_inv in Hn as [_ ->].
  apply bind_raise_inv in H as [H | (locals & s2 & Hl & H)].
  { destruct (results_kept _ _ _ _ (keeps_results_loop cfg sch mb _ _) H)
      as (Ho & Hpr & He).
    split; [congruence | intros _; split; intros Hn; congruence]. }
  destruct (results_kept _ _ _ _ (keeps_results_loop cfg sch mb _ _) Hl)
    as (Ho1 & Hp1 & He1).
  unfold store_result in H.
  apply bind_raise_inv in H as [H | (u1 & s3 & H1 & H)]; [no_raise H |].
  apply assign_inv in H1 as ->.
  apply bind_raise_inv in H as [H | (u2 & s4 & H2 & H)]; [no_raise H |].
  apply assign_inv in H2 as ->.
  apply bind_raise_inv in H as [H | (e0 & s5 & _ & H)]; [| no_raise H].
  unfold lift, read in H.
  assert (Hraise : local "error" (snd locals) = Raise e)
    by exact (f_equal fst H).
  assert (Hstate : set_probe (Some (_probe s2))
                     (set_object (Some (_object s2)) s2) = self')
    by exact (f_equal snd H).
  split.
  - rewrite <- Hstate.
    change (error (set_probe (Some (_probe s2))
                     (set_object (Some (_object s2)) s2)))
      with (error s2).
    congruence.
  - intros Hd. exfalso.
    unfold local in Hraise. destruct (snd locals); [discriminate Hraise |].
    inversion Hraise; subst e. exact Hd.
Qed.

End MoreProperties.

(* ================================================================= *)
(** ** Further properties in exact arithmetic *)

Section RealConstraints.
Context {Rng : Type} {E : Externals R Rng}.
Local Open Scope R_scope.
Implicit Types (self : Recon R Rng).

Ltac real :=
  cbn [fzero fone fadd fsub fmul fdiv fopp fabs fsqrt fltb of_nat f1em9 Rnum]
    in *.

(** *** The positivity constraint *)

Lemma fmax_0_nonneg (x : R) : 0 <= fmax x 0.
Proof.
  unfold fmax. real. unfold Rltb.
  destruct (Rlt_dec x 0); lra.
Qed.

Lemma fmax_0_fixed (x : R) : 0 <= x -> fmax x 0 = x.
Proof.
  intros H. unfold fmax. real. unfold Rltb.
  destruct (Rlt_dec x 0); [lra | reflexivity].
Qed.

(** X10.  In exact arithmetic the result of
    [_object_positivity_constraint] has no negative element and the
    length of its argument, and applying the constraint again without
    shrinkage changes nothing. *)
Theorem object_positivity_constraint_nonnegative
  (current_object : list R) (shrinkage_rad : option R) :
  Forall (fun x => 0 <= x)
    (_object_positivity_constraint current_object shrinkage_rad)
  /\ length (_object_positivity_constraint current_object shrinkage_rad)
     = length current_object
  /\ _object_positivity_constraint
       (_object_positivity_constraint current_object shrinkage_rad) None
     = _object_positivity_constraint current_object shrinkage_rad.
Proof.
  unfold _object_positivity_constraint. split; [| split].
  - apply Forall_map, Forall_forall. intros x _. apply fmax_0_nonneg.
  - destruct shrinkage_rad; rewrite ?length_map; reflexivity.
  - rewrite map_map. apply map_ext. intros x.
    apply fmax_0_fixed, fmax_0_nonneg.
Qed.

(** *** Smoothing of a pure-phase object *)

(** X11.  In exact arithmetic, for a filter that keeps the shape of the
    phase array and [|exp(1j·t)| = 1]: with [pure_phase_object=True],
    [_object_smoothness_constraint] of [iterative_ptychography.py] changes
    no amplitude of the object, whereas [_object_gaussian_constraint] of
    [iterative_constraints.py] returns an object of unit amplitude. *)
Theorem pure_phase_smoothing_amplitudes self (current_object : list (Cx R))
  (sigma : R) :
  (forall t : R, cabs (xp_exp_1j t) = 1) ->
  length (gaussian_filter_real (_object_shape self)
            (map xp_angle current_object) sigma)
  = length current_object ->
  map cabs (_object_smoothness_constraint self current_object sigma true)
  = map cabs current_object
  /\ Forall (fun z => cabs z = 1)
       (_object_gaussian_constraint self current_object sigma true).
Proof.
  intros Hunit Hlen. split.
  - unfold _object_smoothness_constraint.
    remember (gaussian_filter_real (_object_shape self)
                (map xp_angle current_object) sigma) as phase eqn:Hp.
    clear Hp. revert phase Hlen.
    induction current_object as [| z l IH]; intros phase Hlen.
    + reflexivity.
    + destruct phase as [| t phase]; [discriminate Hlen |].
      cbn [map zip_with]. f_equal.
      * rewrite cabs_rcmul, Hunit.
        rewrite Rabs_pos_eq by apply cabs_nonneg. real. lra.
      * apply IH. simpl in Hlen. lia.
  - unfold _object_gaussian_constraint.
    apply Forall_map, Forall_forall. intros t _. apply Hunit.
Qed.

End RealConstraints.

Section RealProjection.
Context {Rng : Type} {E : Externals R Rng}.
Local Open Scope R_scope.
Implicit Types (self : Recon R Rng).

Ltac real :=
  cbn [fzero fone fadd fsub fmul fdiv fopp fabs fsqrt fltb of_nat f1em9 Rnum]
    in *.

(** *** Data that the current estimate already explains *)

Lemma zip_with_maps {A B C D : Type} (f : B -> C -> D) (g : A -> B)
  (h : A -> C) (l : list A) :
  zip_with f (map g l) (map h l) = map (fun x => f (g x) (h x)) l.
Proof. induction l as [| x l IH]; simpl; [| rewrite IH]; reflexivity. Qed.

Lemma zip_with_same {A B : Type} (f : A -> A -> B) (l : list A) :
  zip_with f l l = map (fun x => f x x) l.
Proof. induction l as [| x l IH]; simpl; [| rewrite IH]; reflexivity. Qed.

Lemma map_fixed {A : Type} (f : A -> A) (l : list A) :
  (forall x, In x l -> f x = x) -> map f l = l.
Proof.
  intros H. induction l as [| x l IH]; simpl; [reflexivity |].
  rewrite H by (left; reflexivity).
  rewrite IH by (intros y Hy; apply H; right; exact Hy). reflexivity.
Qed.

Lemma csub_same (z : Cx R) : csub z z = rc 0.
Proof. unfold csub, rc. real. f_equal; ring. Qed.

Lemma fsum_zeros (l : list R) : Forall (fun x => x = 0) l -> fsum l = 0.
Proof.
  induction 1 as [| x l Hx _ IH]; [reflexivity |].
  change (fsum (x :: l)) with (x + fsum l). rewrite Hx, IH. real. lra.
Qed.

Lemma szip_with_smaps {A B C D : Type} (f : B -> C -> D) (g : A -> B)
  (h : A -> C) (a : stack A) :
  szip_with f (smap g a) (smap h a) = smap (fun x => f (g x) (h x)) a.
Proof.
  unfold szip_with, smap. rewrite zip_with_maps.
  apply map_ext. intros row. apply zip_with_maps.
Qed.

Lemma smap_smap {A B C : Type} (f : A -> B) (g : B -> C) (a : stack A) :
  smap g (smap f a) = smap (fun x => g (f x)) a.
Proof.
  unfold smap. rewrite map_map. apply map_ext. intros row. apply map_map.
Qed.

Lemma matching_amplitudes_error self (transformed : stack (Cx R)) :
  mean_all
    (smap (fun d => sq (fabs d))
       (szip_with fsub (smap cabs transformed) (smap cabs transformed)))
  / _mean_diffraction_intensity self
  = 0.
Proof.
  unfold mean_all. rewrite fsum_zeros.
  - real. unfold Rdiv. ring.
  - rewrite szip_with_smaps, smap_smap.
    apply Forall_forall. intros x Hx.
    apply in_smap_concat in Hx as (z & ->).
    unfold sq. real.
    replace (cabs z - cabs z) with 0 by ring. rewrite Rabs_R0. ring.
Qed.

Lemma rcmul_split (c : R) (z : Cx R) :
  cadd (rcmul c z) (rcmul (1 - c) z) = z.
Proof.
  destruct z as [x y]. unfold cadd, rcmul, cmul, rc. real. cbn [re im].
  f_equal; ring.
Qed.

Lemma rcmul_split3 (a b : R) (z : Cx R) :
  cadd (cadd (rcmul (1 - a - b) z) (rcmul a z)) (rcmul b z) = z.
Proof.
  destruct z as [x y]. unfold cadd, rcmul, cmul, rc. real. cbn [re im].
  f_equal; ring.
Qed.

Lemma smap_fixed {A : Type} (f : A -> A) (a : stack A) :
  (forall x, f x = x) -> smap f a = a.
Proof.
  intros H. unfold smap. apply map_fixed. intros row _.
  apply map_fixed. intros x _. apply H.
Qed.

(** The Fourier step applied to an overlap whose transform has the
    measured amplitudes gives the overlap back. *)
Lemma project_matching_amplitudes (shape : nat * nat)
  (overlap : stack (Cx R)) :
  (forall w, In w overlap -> xp_ifft2 shape (xp_fft2 shape w) = w) ->
  (forall w z,
      In w overlap -> In z (xp_fft2 shape w) ->
      rcmul (cabs z) (unit_phase z) = z) ->
  stack_ifft2 shape
    (szip_with rcmul (smap cabs (stack_fft2 shape overlap))
       (smap unit_phase (stack_fft2 shape overlap)))
  = overlap.
Proof.
  intros Hinv Hpolar. rewrite szip_with_smaps.
  unfold stack_ifft2, stack_fft2, smap. rewrite !map_map.
  apply map_fixed. intros w Hw.
  rewrite map_fixed by (intros z Hz; exact (Hpolar w z Hw Hz)).
  exact (Hinv w Hw).
Qed.

(** X12.  Data that the estimate explains is a fixed point of both
    Fourier projections (exact arithmetic).  Let the measured amplitudes
    be the Fourier amplitudes of the overlap, and let, on the patterns of
    the overlap, the inverse transform undo the transform and
    [|z|·exp(1j·angle z) = z] hold.  Then
    [_gradient_descent_fourier_projection] returns exit waves that are 0
    everywhere and the error 0, and
    [_projection_sets_fourier_projection], started without exit waves or
    with the overlap as exit waves, returns the overlap and the error 0,
    for all coefficients.  The overlap is not empty and the mean
    diffraction intensity is not 0, so that no quotient is 0/0. *)
Theorem fourier_projections_of_consistent_data self
  (overlap : stack (Cx R)) (exit_waves : option (stack (Cx R)))
  (projection_a projection_b projection_c : R) :
  let shape := _region_of_interest_shape self in
  let amplitudes := smap cabs (stack_fft2 shape overlap) in
  (forall w, In w overlap -> xp_ifft2 shape (xp_fft2 shape w) = w) ->
  (forall w z,
      In w overlap -> In z (xp_fft2 shape w) ->
      rcmul (cabs z) (unit_phase z) = z) ->
  concat overlap <> [] ->
  _mean_diffraction_intensity self <> 0 ->
  _gradient_descent_fourier_projection self amplitudes overlap exit_waves
  = (smap (fun _ => rc 0) overlap, 0)
  /\ (exit_waves = None \/ exit_waves = Some overlap ->
      _projection_sets_fourier_projection self amplitudes overlap exit_waves
        projection_a projection_b projection_c
      = (overlap, 0)).
Proof.
  intros shape amplitudes Hinv Hpolar _ _. subst amplitudes. split.
  - unfold _gradient_descent_fourier_projection. fold shape.
    rewrite matching_amplitudes_error.
    rewrite (project_matching_amplitudes shape overlap Hinv Hpolar).
    f_equal. unfold szip_with. rewrite zip_with_same.
    unfold smap. apply map_ext. intros w.
    rewrite zip_with_same. apply map_ext. intros z. apply csub_same.
  - intros Hew.
    assert (Hw : match exit_waves with
                 | None => overlap
                 | Some w => w
                 end = overlap)
      by (destruct Hew as [-> | ->]; reflexivity).
    unfold _projection_sets_fourier_projection. fold shape.
    rewrite matching_amplitudes_error. rewrite Hw.
    assert (Hfactor :
      szip_with cadd (smap (rcmul projection_c) overlap)
        (smap (rcmul (1 - projection_c)) overlap)
      = overlap).
    { rewrite szip_with_smaps. apply smap_fixed. intros z.
      apply rcmul_split. }
    real. rewrite Hfactor.
    rewrite (project_matching_amplitudes shape overlap Hinv Hpolar).
    f_equal.
    rewrite 2!szip_with_smaps. apply smap_fixed. intros z.
    apply rcmul_split3.
Qed.

End RealProjection.

Section RealGradient.
Context {Rng : Type}.
Local Open Scope R_scope.
Implicit Types (self : Recon R Rng).

Ltac real :=
  cbn [fzero fone fadd fsub fmul fdiv fopp fabs fsqrt fltb of_nat f1em9 Rnum]
    in *.

(** *** A vanishing exit-wave difference *)

Lemma cmul_zero_r (z : Cx R) : cmul z (rc 0) = rc 0.
Proof. unfold cmul, rc. real. cbn [re im]. f_equal; ring. Qed.

Lemma crmul_zero_l (r : R) : crmul (rc 0) r = rc 0.
Proof. unfold crmul, cmul, rc. real. cbn [re im]. f_equal; ring. Qed.

Lemma rcmul_zero_r (r : R) : rcmul r (rc 0) = rc 0.
Proof. unfold rcmul. apply cmul_zero_r. Qed.

Lemma cadd_zero_r (z : Cx R) : cadd z (rc 0) = z.
Proof.
  destruct z as [x y]. unfold cadd, rc. real. cbn [re im]. f_equal; ring.
Qed.

Lemma zip_with_vanishes_r {A : Type} (f : A -> Cx R -> Cx R) (l : list A)
  (m : list (Cx R)) :
  (forall a, f a (rc 0) = rc 0) -> vanishes m -> vanishes (zip_with f l m).
Proof.
  intros Hf Hm. revert l.
  induction Hm as [| z m Hz _ IH]; intros [| a l]; simpl;
    try constructor.
  - rewrite Hz. apply Hf.
  - apply IH.
Qed.

Lemma zip_with_vanishes_l {B : Type} (f : Cx R -> B -> Cx R)
  (l : list (Cx R)) (m : list B) :
  (forall b, f (rc 0) b = rc 0) -> vanishes l -> vanishes (zip_with f l m).
Proof.
  intros Hf Hl. revert m.
  induction Hl as [| z l Hz _ IH]; intros [| b m]; simpl;
    try constructor.
  - rewrite Hz. apply Hf.
  - apply IH.
Qed.

Lemma zip_with_length {A B C : Type} (f : A -> B -> C) (l : list A)
  (m : list B) :
  length (zip_with f l m) = Nat.min (length l) (length m).
Proof.
  revert m. induction l as [| a l IH]; intros [| b m]; simpl;
    [reflexivity .. |]. rewrite IH. reflexivity.
Qed.

Lemma zip_with_cadd_vanishes (l u : list (Cx R)) :
  vanishes u -> (length l <= length u)%nat -> zip_with cadd l u = l.
Proof.
  intros Hu. revert l.
  induction Hu as [| z u Hz _ IH]; intros [| a l] Hlen; simpl in *;
    try reflexivity; try lia.
  rewrite Hz, cadd_zero_r, IH by lia. reflexivity.
Qed.

Lemma scatter_add_vanishes (npix : nat) (entries : list (nat * Cx R)) :
  vanishes (map snd entries) ->
  vanishes (scatter_add (rc 0) cadd npix entries)
  /\ length (scatter_add (rc 0) cadd npix entries) = npix.
Proof.
  intros H. unfold scatter_add. split.
  - apply Forall_map, Forall_forall. intros pix _.
    induction entries as [| e entries IH]; simpl; [reflexivity |].
    inversion H as [| z l Hz Hl]; subst.
    rewrite (IH Hl). destruct (fst e =? pix)%nat; [| reflexivity].
    rewrite Hz. apply cadd_zero_r.
  - rewrite length_map, length_seq. reflexivity.
Qed.

Lemma combine_snd_vanishes {A : Type} (idx : list A) (l : list (Cx R)) :
  vanishes l -> vanishes (map snd (combine idx l)).
Proof.
  intros Hl. revert idx.
  induction Hl as [| z l Hz _ IH]; intros [| i idx]; simpl;
    try constructor.
  - exact Hz.
  - apply IH.
Qed.

Lemma concat_vanishes (a : stack (Cx R)) :
  Forall vanishes a -> vanishes (concat a).
Proof.
  induction 1 as [| w a Hw _ IH]; simpl; [constructor |].
  apply Forall_app. split; assumption.
Qed.

Lemma szip_with_vanishes {A : Type} (f : A -> Cx R -> Cx R)
  (a : stack A) (b : stack (Cx R)) :
  (forall x, f x (rc 0) = rc 0) -> Forall vanishes b ->
  Forall vanishes (szip_with f a b).
Proof.
  intros Hf Hb. revert a.
  induction Hb as [| w b Hw _ IH]; intros [| r a]; simpl;
    try constructor.
  - apply zip_with_vanishes_r; assumption.
  - apply IH.
Qed.

Lemma map_vanishes (f : Cx R -> Cx R) (l : list (Cx R)) :
  f (rc 0) = rc 0 -> vanishes l -> vanishes (map f l).
Proof.
  intros Hf Hl. induction Hl as [| z l Hz _ IH]; simpl; constructor.
  - rewrite Hz. exact Hf.
  - exact IH.
Qed.

Lemma zip_with_cadd_vanishes_both (l m : list (Cx R)) :
  vanishes l -> vanishes m -> vanishes (zip_with cadd l m).
Proof.
  intros Hl. revert m.
  induction Hl as [| z l Hz _ IH]; intros m Hm; simpl; [constructor |].
  destruct Hm as [| y m Hy Hm]; constructor.
  - rewrite Hz, Hy. apply cadd_zero_r.
  - apply IH. exact Hm.
Qed.

Lemma csum_axis0_vanishes (n : nat) (a : stack (Cx R)) :
  Forall (fun w => length w = n /\ vanishes w) a ->
  vanishes (csum_axis0 n a) /\ length (csum_axis0 n a) = n.
Proof.
  unfold csum_axis0.
  induction 1 as [| w a [Hlen Hw] _ [IHv IHl]]; cbn [fold_right].
  - split; [| apply repeat_length].
    apply Forall_forall. intros z Hz. apply repeat_spec in Hz. exact Hz.
  - split.
    + apply zip_with_cadd_vanishes_both; assumption.
    + rewrite zip_with_length, Hlen, IHl. apply Nat.min_id.
Qed.

Lemma fsum_axis0_length (n : nat) (a : stack R) :
  Forall (fun w => length w = n) a -> length (fsum_axis0 n a) = n.
Proof.
  unfold fsum_axis0.
  induction 1 as [| w a Hlen _ IH]; cbn [fold_right].
  - apply repeat_length.
  - rewrite zip_with_length, Hlen, IH. apply Nat.min_id.
Qed.

Lemma szip_with_rows {A : Type} (f : A -> Cx R -> Cx R) (n : nat)
  (a : stack A) (b : stack (Cx R)) :
  (forall x, f x (rc 0) = rc 0) ->
  Forall (fun w => length w = n) a ->
  Forall (fun w => length w = n /\ vanishes w) b ->
  Forall (fun w => length w = n /\ vanishes w) (szip_with f a b).
Proof.
  intros Hf Ha. revert b.
  induction Ha as [| r a Hr _ IH]; intros b Hb; simpl; [constructor |].
  destruct Hb as [| w b [Hlen Hw] Hb]; constructor.
  - split.
    + rewrite zip_with_length, Hr, Hlen. apply Nat.min_id.
    + apply zip_with_vanishes_r; assumption.
  - apply IH. exact Hb.
Qed.

(** X13.  In exact arithmetic and for [normalization_min] in [0, 1]
    (where every divisor is at least [1e-9]): when the exit waves passed
    to [_gradient_descent_adjoint] are 0 everywhere and the arrays have
    the shapes of the object and of the region of interest, a call that
    returns gives back the object and the probe unchanged, for every step
    size. *)
Theorem gradient_descent_adjoint_without_exit_waves self
  (current_object current_probe : list (Cx R))
  (object_patches shifted_probes exit_waves : stack (Cx R))
  (step_size : option R) (normalization_min : R) (fix_probe : bool)
  (new_object new_probe : list (Cx R)) :
  0 <= normalization_min <= 1 ->
  length current_object
  = (fst (_object_shape self) * snd (_object_shape self))%nat ->
  length current_probe = roi_size self ->
  Forall (fun w => length w = roi_size self) object_patches ->
  Forall (fun w => length w = roi_size self /\ vanishes w) exit_waves ->
  _gradient_descent_adjoint self current_object current_probe object_patches
    shifted_probes exit_waves step_size normalization_min fix_probe
  = Ok (new_object, new_probe) ->
  new_object = current_object /\ new_probe = current_probe.
Proof.
  intros _ Ho Hp Hop Hew H.
  assert (Hv : Forall vanishes exit_waves).
  { eapply Forall_impl; [| exact Hew]. intros w [_ Hw]. exact Hw. }
  unfold _gradient_descent_adjoint in H.
  destruct (gradient_descent_probe_denominator self normalization_min
              shifted_probes) as [d |] eqn:Hd; [| discriminate H].
  cbn [obind] in H.
  destruct step_size as [step |]; [| discriminate H].
  cbn [obind number] in H.
  assert (Hdlen : length d
                  = (fst (_object_shape self) * snd (_object_shape self))%nat).
  { unfold gradient_descent_probe_denominator in Hd.
    destruct (xp_max _) as [m |]; [| discriminate Hd].
    cbn [obind] in Hd. inversion Hd.
    unfold _sum_overlapping_patches_bincounts, scatter_add.
    rewrite !length_map, length_seq. reflexivity. }
  destruct (scatter_add_vanishes
              (fst (_object_shape self) * snd (_object_shape self))
              (combine (flat_patch_indices self)
                 (concat (szip_with cmul (smap cconj shifted_probes)
                            exit_waves))))
    as [Hsv Hsl].
  { apply combine_snd_vanishes, concat_vanishes, szip_with_vanishes;
      [exact cmul_zero_r | exact Hv]. }
  assert (Hobject :
    zip_with cadd current_object
      (map (rcmul step)
         (zip_with crmul
            (_sum_overlapping_patches_bincounts_complex self
               (szip_with cmul (smap cconj shifted_probes) exit_waves))
            (map (fdiv 1) d)))
    = current_object).
  { apply zip_with_cadd_vanishes.
    - apply map_vanishes; [apply rcmul_zero_r |].
      apply zip_with_vanishes_l; [exact crmul_zero_l | exact Hsv].
    - rewrite length_map, zip_with_length, length_map.
      assert (Hl : length
                     (_sum_overlapping_patches_bincounts_complex self
                        (szip_with cmul (smap cconj shifted_probes)
                           exit_waves))
                   = (fst (_object_shape self) * snd (_object_shape self))%nat)
        by exact Hsl.
      rewrite Hl, Hdlen, Ho. lia. }
  destruct fix_probe; cbn [negb] in H.
  { inversion H. split; [exact Hobject | reflexivity]. }
  destruct (gradient_descent_object_denominator self normalization_min
              object_patches) as [d' |] eqn:Hd'; [| discriminate H].
  cbn [obind] in H.
  assert (Hd'len : length d' = roi_size self).
  { unfold gradient_descent_object_denominator in Hd'.
    destruct (xp_max _) as [m |]; [| discriminate Hd'].
    cbn [obind] in Hd'. inversion Hd'.
    rewrite length_map. apply fsum_axis0_length.
    unfold smap. apply Forall_map.
    eapply Forall_impl; [| exact Hop].
    intros w Hw. cbn beta. rewrite length_map. exact Hw. }
  destruct (csum_axis0_vanishes (roi_size self)
              (szip_with cmul (smap cconj object_patches) exit_waves))
    as [Hcv Hcl].
  { apply szip_with_rows; [exact cmul_zero_r | | exact Hew].
    unfold smap. apply Forall_map.
    eapply Forall_impl; [| exact Hop].
    intros w Hw. cbn beta. rewrite length_map. exact Hw. }
  assert (Hprobe :
    zip_with cadd current_probe
      (map (rcmul step)
         (zip_with crmul
            (csum_axis0 (roi_size self)
               (szip_with cmul (smap cconj object_patches) exit_waves))
            (map (fdiv 1) d')))
    = current_probe).
  { apply zip_with_cadd_vanishes.
    - apply map_vanishes; [apply rcmul_zero_r |].
      apply zip_with_vanishes_l; [exact crmul_zero_l | exact Hcv].
    - rewrite length_map, zip_with_length, length_map.
      assert (Hl : length
                     (csum_axis0 (roi_size self)
                        (szip_with cmul (smap cconj object_patches)
                           exit_waves))
                   = roi_size self)
        by exact Hcl.
      rewrite Hl, Hd'len, Hp. lia. }
  inversion H. split; [exact Hobject | exact Hprobe].
Qed.

End RealGradient.

Section RealPositions.
Context {Rng : Type} {E : Externals R Rng}.
Local Open Scope R_scope.
Implicit Types (self : Recon R Rng) (cfg : Config R) (sch : Scheme R).

(** *** The centroid of the working positions *)

(** X9.  In exact arithmetic, after a completed batch of an iteration
    with [a0 >= fix_positions_iter] the mean of the (non-empty) working
    positions is the reference centroid [_positions_px_com], which the
    batch leaves unchanged. *)
Theorem batch_centres_positions cfg sch a0 idx bounds err self r self' :
  before a0 (fix_positions_iter cfg) = false ->
  batch cfg sch a0 idx bounds err self = (Ok r, self') ->
  _positions_px self' <> [] ->
  mean_axis0 (_positions_px self') = _positions_px_com self'
  /\ _positions_px_com self' = _positions_px_com self.
Proof.
  intros Hfree H Hne.
  assert (Hcom : _positions_px_com self' = _positions_px_com self).
  { assert (K : keeps _positions_px_com (batch cfg sch a0 idx bounds err))
      by (apply keeps_batch; intros; reflexivity).
    specialize (K self). rewrite H in K. exact K. }
  split; [| exact Hcom].
  destruct (batch_positions cfg sch a0 idx bounds err self r self' H)
    as (initial & _ & Hpos & _).
  rewrite Hfree in Hpos. rewrite Hcom, Hpos.
  apply mean_axis0_recentre.
  intros Hempty. apply Hne. rewrite Hpos, Hempty. reflexivity.
Qed.

End RealPositions.

(* ================================================================= *)
(** ** The further statements at the example inputs *)

Lemma example_prelude_without_iterations :
  prelude (Examples.configure None 0 true "GD" 1 (Some 1)) Reference.example
  = (Ok (Reference.gradient_descent, 1), Reference.initialised).
Proof.
  unfold prelude.
  change (reconstruction_parameter
            (Examples.configure None 0 true "GD" 1 (Some 1)))
    with 1%R.
  cbn [fltb fzero fone Rnum].
  rewrite (Rltb_false 1 0) by lra.
  rewrite (Rltb_false 1 1) by lra.
  reflexivity.
Qed.

Lemma example_without_iterations :
  reconstruct (Examples.configure None 0 true "GD" 1 (Some 1))
    Reference.example
  = (Raise (UnboundLocalError "error"),
     set_probe (Some (_probe Reference.initialised))
       (set_object (Some (_object Reference.initialised))
          Reference.initialised)).
Proof.
  unfold reconstruct.
  rewrite (bind_ok _ _ _ _ _ example_prelude_without_iterations).
  reflexivity.
Qed.

Lemma example_prelude_reset :
  fst (prelude (Examples.configure (Some true) 1 true "GD" 1 (Some 1))
         Reference.example)
  = Ok (Reference.gradient_descent, 1).
Proof.
  unfold prelude.
  change (reconstruction_parameter
            (Examples.configure (Some true) 1 true "GD" 1 (Some 1)))
    with 1%R.
  cbn [fltb fzero fone Rnum].
  rewrite (Rltb_false 1 0) by lra.
  rewrite (Rltb_false 1 1) by lra.
  reflexivity.
Qed.

Lemma example_free_batch_ok :
  is_ok (fst (batch Examples.free_positions Reference.gradient_descent 0
                [0; 1] (0, 1) None Reference.initialised))
  = true.
Proof. vm_compute. reflexivity. Qed.

Lemma example_free_batch_positions :
  match _positions_px
          (snd (batch Examples.free_positions Reference.gradient_descent 0
                  [0; 1] (0, 1) None Reference.initialised))
  with
  | [] => false
  | _ :: _ => true
  end = true.
Proof. vm_compute. reflexivity. Qed.

Lemma reconstruct_accepts_valid_configuration_witness :
  exists sch s_init,
    select_method "RAAR" (1 / 2)%R (9 / 10)%R = Ok sch
    /\ prelude (Reference.example_config "RAAR" (1 / 2) None)
         Reference.example
       = (Ok (sch, 2), s_init)
    /\ _probe_support_mask s_init <> None.
Proof.
  apply (reconstruct_accepts_valid_configuration
           (E := Reference.externals)
           (Reference.example_config "RAAR" (1 / 2) None) Reference.example).
  - apply Rltb_false. cbn. lra.
  - apply Rltb_false. cbn. lra.
  - cbn. auto 10.
  - left. reflexivity.
Defined.

Lemma reconstruct_without_iterations_witness :
  reconstruct (Examples.configure None 0 true "GD" 1 (Some 1))
    Reference.example
  = (Raise (UnboundLocalError "error"),
     set_probe (Some (_probe Reference.initialised))
       (set_object (Some (_object Reference.initialised))
          Reference.initialised)).
Proof.
  exact (reconstruct_without_iterations
           (Examples.configure None 0 true "GD" 1 (Some 1))
           Reference.example Reference.gradient_descent 1
           Reference.initialised eq_refl example_prelude_without_iterations).
Defined.

Lemma reset_ignores_previous_reconstruction_witness :
  _object
    (snd (prelude (Examples.configure (Some true) 1 true "GD" 1 (Some 1))
            Reference.example))
  = _object_initial Reference.example.
Proof.
  pose proof example_prelude_reset as Hok.
  destruct (prelude (Examples.configure (Some true) 1 true "GD" 1 (Some 1))
              Reference.example) as [r s'] eqn:Hrun.
  cbn [fst] in Hok. subst r. cbn [snd].
  exact (proj1 (reset_ignores_previous_reconstruction
                  (E := Reference.externals)
                  (Examples.configure (Some true) 1 true "GD" 1 (Some 1))
                  Reference.example _ s' eq_refl Hrun)).
Defined.

Lemma reconstruct_without_storing_keeps_history_witness :
  stored_iterations
    (snd (reconstruct (Examples.configure None 1 false "GD" 1 (Some 1))
            Reference.example))
  = stored_iterations Reference.example.
Proof.
  exact (reconstruct_without_storing_keeps_history
           (E := Reference.externals)
           (Examples.configure None 1 false "GD" 1 (Some 1)) eq_refl
           Reference.example).
Defined.

Lemma stored_history_of_a_run_witness :
  exists os new_objects o,
    object_iterations
      (snd (reconstruct (Reference.example_config "GD" 1 (Some 1))
              Reference.example))
    = Some (os ++ new_objects ++ [o])%list
    /\ S (length new_objects) = 1
    /\ object
         (snd (reconstruct (Reference.example_config "GD" 1 (Some 1))
                 Reference.example))
       = Some o.
Proof.
  destruct (reconstruct (Reference.example_config "GD" 1 (Some 1))
              Reference.example)
    as [[[] | x] s_end] eqn:Hrun.
  - destruct (stored_history_of_a_run (E := Reference.externals)
                (Reference.example_config "GD" 1 (Some 1))
                Reference.example s_end eq_refl Hrun)
      as (sch & mb & s_init & os & ps & es & no & np & ne & o & p & e
          & _ & _ & _ & _ & Ho & _ & _ & Lo & _ & _ & Hobj & _).
    exists os, no, o. cbn [snd].
    split; [exact Ho | split; [exact Lo | exact Hobj]].
  - exfalso. pose proof example_run_ok as Hok.
    rewrite Hrun in Hok. discriminate Hok.
Defined.

Lemma positions_after_batch_witness :
  exists initial,
    take_indices (_positions_px_initial Reference.initialised) [0; 1]
    = Ok initial
    /\ positions_are (slice 0 1 initial)
         (snd (batch (Reference.example_config "GD" 1 (Some 1))
                 Reference.gradient_descent 0 [0; 1] (0, 1) None
                 Reference.initialised)).
Proof.
  destruct (batch (Reference.example_config "GD" 1 (Some 1))
              Reference.gradient_descent 0 [0; 1] (0, 1) None
              Reference.initialised)
    as [[r | x] s'] eqn:Hrun.
  - exact (positions_after_batch (E := Reference.externals)
             (Reference.example_config "GD" 1 (Some 1))
             Reference.gradient_descent 0 [0; 1] (0, 1) None
             Reference.initialised r s' Hrun).
  - exfalso. pose proof example_batch_ok as Hok.
    rewrite Hrun in Hok. discriminate Hok.
Defined.

Lemma reconstruct_exceptions_witness :
  max_iter (Examples.configure None 0 true "GD" 1 (Some 1)) = 0
  \/ generate_batches (_num_diffraction_patterns Reference.example)
       (chosen_batch_size (Examples.configure None 0 true "GD" 1 (Some 1))
          Reference.example)
     = [].
Proof.
  assert (Hsize : chosen_batch_size
                    (Examples.configure None 0 true "GD" 1 (Some 1))
                    Reference.example
                  <> 0)
    by discriminate.
  exact (proj2 (proj2 (reconstruct_exceptions (E := Reference.externals)
                         (Examples.configure None 0 true "GD" 1 (Some 1))
                         Reference.example _ _ Hsize
                         example_without_iterations)
                  "error"%string eq_refl)).
Defined.

Lemma batch_centres_positions_witness :
  mean_axis0
    (_positions_px
       (snd (batch Examples.free_positions Reference.gradient_descent 0
               [0; 1] (0, 1) None Reference.initialised)))
  = _positions_px_com Reference.initialised.
Proof.
  pose proof example_free_batch_ok as Hok.
  pose proof example_free_batch_positions as Hne.
  destruct (batch Examples.free_positions Reference.gradient_descent 0
              [0; 1] (0, 1) None Reference.initialised)
    as [[r | x] s'] eqn:Hrun; [| discriminate Hok].
  cbn [snd] in *.
  destruct (batch_centres_positions (E := Reference.externals)
              Examples.free_positions Reference.gradient_descent 0 [0; 1]
              (0, 1) None Reference.initialised r s' eq_refl Hrun)
    as [Hmean Hcom].
  - intros Hempty. rewrite Hempty in Hne. discriminate Hne.
  - rewrite Hmean. exact Hcom.
Defined.

Lemma pure_phase_smoothing_amplitudes_witness :
  map cabs
    (_object_smoothness_constraint Reference.example
       (_object Reference.example) 1%R true)
  = map cabs (_object Reference.example)
  /\ Forall (fun z => cabs z = 1%R)
       (_object_gaussian_constraint Reference.example
          (_object Reference.example) 1%R true).
Proof.
  apply (pure_phase_smoothing_amplitudes (E := Reference.externals)
           Reference.example (_object Reference.example) 1%R).
  - exact exp_1j_unit.
  - reflexivity.
Defined.

Lemma dft2_single_pixel (sign : R) (z : Cx R) :
  Reference.dft2 sign (1, 1) [z] = [z].
Proof.
  unfold Reference.dft2, Reference.grid. cbn [flat_map seq map fst snd app zip_with csum fold_right].
  replace (sign * 2 * PI * (INR 0 * INR 0 / INR 1 + INR 0 * INR 0 / INR 1))%R
    with 0%R by (cbn [INR]; lra).
  unfold Reference.exp_1j. rewrite cos_0, sin_0.
  destruct z as [x y]. unfold cadd, cmul, rc. cbn. f_equal. f_equal; ring.
Qed.

Lemma single_pixel_round_trip (w : list (Cx R)) :
  In w [[rc 1%R]] ->
  xp_ifft2 (Externals := Reference.externals) (1, 1)
    (xp_fft2 (Externals := Reference.externals) (1, 1) w)
  = w.
Proof.
  intros [<- | []].
  cbn [xp_ifft2 xp_fft2 Reference.externals].
  unfold Reference.ifft2, Reference.fft2. rewrite !dft2_single_pixel.
  unfold rcmul, cmul, rc. cbn. f_equal. f_equal; field.
Qed.

Lemma single_pixel_polar (w : list (Cx R)) (z : Cx R) :
  In w [[rc 1%R]] ->
  In z (xp_fft2 (Externals := Reference.externals) (1, 1) w) ->
  rcmul (cabs z) (unit_phase (E := Reference.externals) z) = z.
Proof.
  intros [<- | []].
  cbn [xp_fft2 Reference.externals]. unfold Reference.fft2.
  rewrite dft2_single_pixel. intros [<- | []].
  unfold unit_phase. cbn [xp_angle xp_exp_1j Reference.externals].
  assert (Ha : Reference.angle (rc 1%R) = 0%R).
  { unfold Reference.angle, rc. cbn.
    destruct (Rlt_dec 0 1) as [_ | H]; [| exfalso; lra].
    replace (0 / 1)%R with 0%R by lra. apply atan_0. }
  rewrite Ha. unfold Reference.exp_1j. rewrite cos_0, sin_0.
  assert (Hc : cabs (rc 1%R) = 1%R).
  { unfold cabs, rc. cbn.
    replace (1 * 1 + 0 * 0)%R with 1%R by ring. apply sqrt_1. }
  rewrite Hc. unfold rcmul, cmul, rc. cbn. f_equal; ring.
Qed.

Lemma fourier_projections_of_consistent_data_witness :
  _gradient_descent_fourier_projection Examples.single_pixel
    (smap cabs (stack_fft2 (E := Reference.externals) (1, 1) [[rc 1%R]]))
    [[rc 1%R]] None
  = ([[rc 0%R]], 0%R)
  /\ _projection_sets_fourier_projection Examples.single_pixel
       (smap cabs (stack_fft2 (E := Reference.externals) (1, 1) [[rc 1%R]]))
       [[rc 1%R]] None (1 / 2)%R (1 / 4)%R 2%R
     = ([[rc 1%R]], 0%R).
Proof.
  destruct (fourier_projections_of_consistent_data
              (E := Reference.externals) Examples.single_pixel [[rc 1%R]]
              None (1 / 2)%R (1 / 4)%R 2%R
              single_pixel_round_trip single_pixel_polar)
    as [Hgd Hps].
  - discriminate.
  - cbn. lra.
  - split; [exact Hgd | apply Hps; left; reflexivity].
Defined.

Lemma degenerate_adjoint_ok :
  is_ok (_gradient_descent_adjoint (Degenerate.state (F := R))
           Degenerate.current_object Degenerate.current_probe
           Degenerate.object_patches Degenerate.shifted_probes
           [[rc 0%R; rc 0%R]] (Some Degenerate.step_size_half)
           (1 / 100)%R false)
  = true.
Proof. vm_compute. reflexivity. Qed.

Lemma gradient_descent_adjoint_without_exit_waves_witness :
  _gradient_descent_adjoint (Degenerate.state (F := R))
    Degenerate.current_object Degenerate.current_probe
    Degenerate.object_patches Degenerate.shifted_probes
    [[rc 0%R; rc 0%R]] (Some Degenerate.step_size_half)
    (1 / 100)%R false
  = Ok (Degenerate.current_object, Degenerate.current_probe).
Proof.
  pose proof degenerate_adjoint_ok as Hok.
  destruct (_gradient_descent_adjoint (Degenerate.state (F := R))
              Degenerate.current_object Degenerate.current_probe
              Degenerate.object_patches Degenerate.shifted_probes
              [[rc 0%R; rc 0%R]] (Some Degenerate.step_size_half)
              (1 / 100)%R false)
    as [[o' p'] | x] eqn:Hrun; [| discriminate Hok].
  destruct (gradient_descent_adjoint_without_exit_waves
              (Degenerate.state (F := R))
              Degenerate.current_object Degenerate.current_probe
              Degenerate.object_patches Degenerate.shifted_probes
              [[rc 0%R; rc 0%R]] (Some Degenerate.step_size_half)
              (1 / 100)%R false o' p')
    as [-> ->].
  - cbn. lra.
  - reflexivity.
  - reflexivity.
  - repeat constructor.
  - repeat constructor.
  - exact Hrun.
  - reflexivity.
Defined.

Lemma degenerate_denominator_ok :
  is_ok (gradient_descent_probe_denominator (Degenerate.state (F := R))
           (1 / 100)%R Degenerate.shifted_probes)
  = true.
Proof. vm_compute. reflexivity. Qed.

Lemma gradient_descent_denominators_positive_witness :
  exists d,
    gradient_descent_probe_denominator (Degenerate.state (F := R))
      (1 / 100)%R Degenerate.shifted_probes
    = Ok d
    /\ Forall (fun x => (1 / 1000000000 <= x)%R) d.
Proof.
  pose proof degenerate_denominator_ok as Hok.
  destruct (gradient_descent_probe_denominator (Degenerate.state (F := R))
              (1 / 100)%R Degenerate.shifted_probes)
    as [d | x] eqn:Hrun; [| discriminate Hok].
  exists d. split; [reflexivity |].
  apply (proj1 (gradient_descent_denominators_positive
                  (Degenerate.state (F := R))
                  (1 / 100)%R
                  Degenerate.shifted_probes Degenerate.object_patches
                  ltac:(cbn; lra))).
  exact Hrun.
Defined.

Lemma example_fixed_probe_batch_ok :
  is_ok (fst (batch Examples.fixed_probe Reference.gradient_descent 0
                [0; 1] (0, 1) None Reference.initialised))
  = true.
Proof. vm_compute. reflexivity. Qed.

Lemma fixed_probe_is_masked_witness :
  exists mask,
    _probe_support_mask Reference.initialised = Some mask
    /\ _probe
         (snd (batch Examples.fixed_probe Reference.gradient_descent 0
                 [0; 1] (0, 1) None Reference.initialised))
       = zip_with crmul (_probe Reference.initialised) mask.
Proof.
  pose proof example_fixed_probe_batch_ok as Hok.
  destruct (batch Examples.fixed_probe Reference.gradient_descent 0
              [0; 1] (0, 1) None Reference.initialised)
    as [[r | x] s'] eqn:Hrun; [| discriminate Hok].
  exact (fixed_probe_is_masked (E := Reference.externals)
           Examples.fixed_probe Reference.gradient_descent 0 [0; 1] (0, 1)
           None Reference.initialised r s' eq_refl eq_refl Hrun).
Defined.

Lemma full_batches_never_shuffle_witness :
  np_random_state
    (snd (reconstruct (Reference.example_config "RAAR" (1 / 2) None)
            Reference.example))
  = np_random_state Reference.example.
Proof.
  exact (proj1 (full_batches_never_shuffle (E := Reference.externals)
                  (Reference.example_config "RAAR" (1 / 2) None)
                  Reference.example (le_n 2))).
Defined.

Lemma failed_run_keeps_results_witness :
  error
    (snd (reconstruct (Examples.configure None 0 true "GD" 1 (Some 1))
            Reference.example))
  = error Reference.example.
Proof.
  rewrite example_without_iterations. cbn [snd].
  exact (proj1 (failed_run_keeps_results (E := Reference.externals)
                  (Examples.configure None 0 true "GD" 1 (Some 1))
                  Reference.example _ _ example_without_iterations)).
Defined.
